(** * Dice Chess: the [DiceBoard] class of [DiceChess.py]

    [DiceBoard] extends python-chess' [chess.Board] with a dice roll and
    per-colour extended en-passant rights.  The development embeds the
    class twice:

    - over an object store (module-level names [copy], [push],
      [get_moves], ...), where a board object refers to its [ep_squares]
      dict and its [dice_roll] list by location, so that copying and
      aliasing are visible;
    - with value semantics ([push_v], [get_moves_v], ...), one record per
      board, which is what the store-level methods are shown to compute.

    The board engine ([chess.Board]) is not part of the repository; it is
    taken as a parameter through the class [BoardEngine]. *)

From Stdlib Require Import ZArith Lia.
From stdpp Require Import gmap list strings.

Local Open Scope Z_scope.

(** ** Pieces, squares and moves *)

(** [chess.PieceType]; python-chess numbers them 1 to 6 in this order. *)
Inductive PieceType := PAWN | KNIGHT | BISHOP | ROOK | QUEEN | KING.

#[global] Instance PieceType_eq_dec : EqDecision PieceType.
Proof. solve_decision. Defined.

(** [chess.Piece]: a type and a colour; [chess.WHITE] is [True]. *)
Record Piece := mkPiece { piece_type : PieceType; color : bool }.

#[global] Instance Piece_eq_dec : EqDecision Piece.
Proof. solve_decision. Defined.

Definition WHITE : bool := true.
Definition BLACK : bool := false.

(** [chess.Move]: squares are integers, 0 (a1) to 63 (h8). *)
Record Move := mkMove {
  from_square : Z;
  to_square : Z;
  promotion : option PieceType }.

#[global] Instance Move_eq_dec : EqDecision Move.
Proof. solve_decision. Defined.

Definition square_rank (sq : Z) : Z := Z.shiftr sq 3.
Definition square_file (sq : Z) : Z := Z.land sq 7.
Definition square (file_index rank_index : Z) : Z := rank_index * 8 + file_index.

(** ** The board engine interface *)

(** What [DiceChess.py] uses of [chess.Board]: the [turn] and [ep_square]
    attributes, [piece_at], [remove_piece_at], [push],
    [pseudo_legal_moves] and [is_castling].  [base_push move b] is the
    board in which [chess.Board.push] leaves the object; whether the call
    returns or fails its assertion is [engine_asserts] below. *)
Class BoardEngine (B : Type) := {
  turn : B -> bool;
  set_turn : bool -> B -> B;
  ep_square : B -> option Z;
  set_ep_square : option Z -> B -> B;
  piece_at : B -> Z -> option Piece;
  remove_piece_at : Z -> B -> B;
  base_push : Move -> B -> B;
  pseudo_legal_moves : B -> list Move;
  is_castling : B -> Move -> bool }.

(** The frame conditions of the attribute writes and of
    [remove_piece_at], and the fact that a castling move starts on a
    king. *)
Class BoardEngineLaws (B : Type) `{BoardEngine B} := {
  turn_set_turn : forall c b, turn (set_turn c b) = c;
  piece_at_set_turn : forall c b sq, piece_at (set_turn c b) sq = piece_at b sq;
  turn_set_ep_square : forall e b, turn (set_ep_square e b) = turn b;
  piece_at_set_ep_square :
    forall e b sq, piece_at (set_ep_square e b) sq = piece_at b sq;
  ep_square_set_ep_square : forall e b, ep_square (set_ep_square e b) = e;
  turn_remove_piece_at : forall sq b, turn (remove_piece_at sq b) = turn b;
  piece_at_remove_piece_at :
    forall sq b sq',
      piece_at (remove_piece_at sq b) sq' =
      if decide (sq' = sq) then None else piece_at b sq';
  is_castling_piece :
    forall b m, is_castling b m = true ->
      exists c, piece_at b (from_square m) = Some (mkPiece KING c) }.

(** ** Exceptions and the state monad *)

(** [BadRef] is not a Python exception: it is the result of reading a
    location that holds no object of the expected class, which no
    well-formed store produces. *)
Inductive exn := ValueError | AttributeError | AssertionError | BadRef.

#[global] Instance exn_eq_dec : EqDecision exn.
Proof. solve_decision. Defined.

Definition St (S A : Type) : Type := S -> (exn + A) * S.

Definition ret {S A} (a : A) : St S A := fun s => (inr a, s).

Definition bind {S A C} (c : St S A) (k : A -> St S C) : St S C :=
  fun s =>
    match c s with
    | (inr a, s') => k a s'
    | (inl e, s') => (inl e, s')
    end.

Definition raise {S A} (e : exn) : St S A := fun s => (inl e, s).

(** [try: c except ValueError: pass] *)
Definition try_except_ValueError {S} (c : St S unit) : St S unit :=
  fun s =>
    match c s with
    | (inl ValueError, s') => (inr tt, s')
    | r => r
    end.

Declare Scope py_scope.
Delimit Scope py_scope with py.
Notation "x <- c ;; k" := (bind c (fun x => k))
  (at level 100, c at next level, right associativity) : py_scope.
Notation "c ;; k" := (bind c (fun _ => k))
  (at level 100, right associativity) : py_scope.
Local Open Scope py_scope.

(** [for x in l: s = body x s], and the same with [break]: the body
    returns [true] to leave the loop. *)
Fixpoint for_each {S A T} (l : list A) (body : A -> T -> St S T) (t : T)
  : St S T :=
  match l with
  | [] => ret t
  | x :: l' => t' <- body x t ;; for_each l' body t'
  end.

Fixpoint for_break {S A T} (l : list A) (body : A -> T -> St S (bool * T))
  (t : T) : St S T :=
  match l with
  | [] => ret t
  | x :: l' =>
      r <- body x t ;;
      if fst r then ret (snd r) else for_break l' body (snd r)
  end.

(** [l.remove(x)]: the first occurrence goes; [None] stands for the
    [ValueError] of an absent element. *)
Fixpoint list_remove_first {A} `{EqDecision A} (x : A) (l : list A)
  : option (list A) :=
  match l with
  | [] => None
  | y :: l' =>
      if decide (x = y) then Some l'
      else option_map (cons y) (list_remove_first x l')
  end.

(** Python truthiness of [piece and piece.piece_type == t]. *)
Definition is_type (t : PieceType) (p : option Piece) : bool :=
  match p with
  | Some q => bool_decide (piece_type q = t)
  | None => false
  end.

Definition is_piece (t : PieceType) (c : bool) (p : option Piece) : bool :=
  match p with
  | Some q => bool_decide (piece_type q = t) && bool_decide (color q = c)
  | None => false
  end.

Definition truthy {A} (o : option A) : bool :=
  match o with Some _ => true | None => false end.

(** [chess.Move.null()], the move for which [bool(move)] is false. *)
Definition null_move (m : Move) : bool :=
  (from_square m =? 0) && (to_square m =? 0) && negb (truthy (promotion m)).

(** [chess.Board.push] and [chess.Board.san] both assert that a move
    other than the null move starts on a piece; on any other move they
    raise [AssertionError]. *)
Definition engine_asserts {B : Type} `{BoardEngine B} (b : B) (move : Move)
  : bool :=
  negb (null_move move) && negb (truthy (piece_at b (from_square move))).

(** The outcome of a call without its value. *)
Definition outcome {A} (r : exn + A) : exn + unit :=
  match r with inl e => inl e | inr _ => inr tt end.

Definition enumerate {A} (l : list A) : list (nat * A) :=
  zip (seq 0 (length l)) l.

(** ** The object store *)

(** Python objects live at locations.  A [DiceBoard] object holds the
    engine's board state and refers to its [ep_squares] dict and its
    [dice_roll] list; the dict refers to one list of squares per colour. *)
Inductive obj (B : Type) :=
| OBoard (b : B) (ep_squares_ref : nat) (dice_roll_ref : nat)
| ODict (white_ref black_ref : nat)
| OSquares (l : list Z)
| ODice (l : list PieceType).

Arguments OBoard {B} b ep_squares_ref dice_roll_ref.
Arguments ODict {B} white_ref black_ref.
Arguments OSquares {B} l.
Arguments ODice {B} l.

Abbreviation store B := (gmap nat (obj B)).

(** A board by value: what a [DiceBoard] object and its containers hold. *)
Record DiceBoardV (B : Type) := mkDiceBoardV {
  board : B;
  ep_white : list Z;
  ep_black : list Z;
  dice_roll : list PieceType }.

Arguments mkDiceBoardV {B} board ep_white ep_black dice_roll.
Arguments board {B} d.
Arguments ep_white {B} d.
Arguments ep_black {B} d.
Arguments dice_roll {B} d.

(** [ep_squares[color]] *)
Definition ep_squares {B} (v : DiceBoardV B) (c : bool) : list Z :=
  if c then ep_white v else ep_black v.

Section DiceBoard.
Context {B : Type} `{BoardEngine B}.

(** *** Store primitives *)

Definition alloc (o : obj B) : St (store B) nat :=
  fun h => let l := fresh (dom h) in (inr l, <[l := o]> h).

Definition store_at (l : nat) (o : obj B) : St (store B) unit :=
  fun h => (inr tt, <[l := o]> h).

Definition load_board (l : nat) : St (store B) (B * nat * nat) :=
  fun h =>
    match h !! l with
    | Some (OBoard b d r) => (inr (b, d, r), h)
    | _ => (inl BadRef, h)
    end.

Definition load_dict (l : nat) : St (store B) (nat * nat) :=
  fun h =>
    match h !! l with
    | Some (ODict w k) => (inr (w, k), h)
    | _ => (inl BadRef, h)
    end.

Definition load_squares (l : nat) : St (store B) (list Z) :=
  fun h =>
    match h !! l with
    | Some (OSquares xs) => (inr xs, h)
    | _ => (inl BadRef, h)
    end.

Definition load_dice (l : nat) : St (store B) (list PieceType) :=
  fun h =>
    match h !! l with
    | Some (ODice xs) => (inr xs, h)
    | _ => (inl BadRef, h)
    end.

(** *** Attribute access on a board object *)

Definition get_board (self : nat) : St (store B) B :=
  o <- load_board self ;; ret (fst (fst o)).

Definition set_board (self : nat) (b : B) : St (store B) unit :=
  o <- load_board self ;; store_at self (OBoard b (snd (fst o)) (snd o)).

(** [self.ep_squares[color]], the list object *)
Definition ep_squares_ref (self : nat) (c : bool) : St (store B) nat :=
  o <- load_board self ;;
  d <- load_dict (snd (fst o)) ;;
  ret (if c then fst d else snd d).

(** [self.ep_squares[color]], its elements *)
Definition get_ep_squares (self : nat) (c : bool) : St (store B) (list Z) :=
  l <- ep_squares_ref self c ;; load_squares l.

(** [self.ep_squares[color].remove(sq)] *)
Definition ep_squares_remove (self : nat) (c : bool) (sq : Z)
  : St (store B) unit :=
  l <- ep_squares_ref self c ;;
  xs <- load_squares l ;;
  match list_remove_first sq xs with
  | Some xs' => store_at l (OSquares xs')
  | None => raise ValueError
  end.

(** [self.ep_squares[color].append(sq)] *)
Definition ep_squares_append (self : nat) (c : bool) (sq : Z)
  : St (store B) unit :=
  l <- ep_squares_ref self c ;;
  xs <- load_squares l ;;
  store_at l (OSquares (xs ++ [sq])).

(** [self.ep_squares[color] = []]: a new list object is stored in the
    dict. *)
Definition ep_squares_clear (self : nat) (c : bool) : St (store B) unit :=
  o <- load_board self ;;
  d <- load_dict (snd (fst o)) ;;
  l <- alloc (OSquares []) ;;
  store_at (snd (fst o))
    (if c then ODict l (snd d) else ODict (fst d) l).

Definition get_dice_roll (self : nat) : St (store B) (list PieceType) :=
  o <- load_board self ;; load_dice (snd o).

(** [self.dice_roll.remove(t)] *)
Definition dice_roll_remove (self : nat) (t : PieceType)
  : St (store B) unit :=
  o <- load_board self ;;
  xs <- load_dice (snd o) ;;
  match list_remove_first t xs with
  | Some xs' => store_at (snd o) (ODice xs')
  | None => raise ValueError
  end.

Definition get_turn (self : nat) : St (store B) bool :=
  b <- get_board self ;; ret (turn b).

Definition self_piece_at (self : nat) (sq : Z) : St (store B) (option Piece) :=
  b <- get_board self ;; ret (piece_at b sq).

Definition self_is_castling (self : nat) (move : Move) : St (store B) bool :=
  b <- get_board self ;; ret (is_castling b move).

(** *** [DiceBoard.copy] *)

(** [chess.Board.copy] builds the new object with [type(self)(None)],
    which runs [DiceBoard.__init__]: a new dict with two empty lists and
    an empty dice roll. *)
Definition new_board (b : B) : St (store B) nat :=
  w <- alloc (OSquares []) ;;
  k <- alloc (OSquares []) ;;
  d <- alloc (ODict w k) ;;
  r <- alloc (ODice []) ;;
  alloc (OBoard b d r).

(** [deepcopy] of the dict: new list objects, and a list shared by both
    keys stays shared in the copy. *)
Definition deepcopy_dict (d : nat) : St (store B) nat :=
  wk <- load_dict d ;;
  xs <- load_squares (fst wk) ;;
  w' <- alloc (OSquares xs) ;;
  k' <- (if decide (snd wk = fst wk) then ret w'
         else ys <- load_squares (snd wk) ;; alloc (OSquares ys)) ;;
  alloc (ODict w' k').

Definition copy (self : nat) : St (store B) nat :=
  o <- load_board self ;;
  board_copy <- new_board (fst (fst o)) ;;
  d' <- deepcopy_dict (snd (fst o)) ;;
  o' <- load_board board_copy ;;
  store_at board_copy (OBoard (fst (fst o')) d' (snd o')) ;;
  xs <- load_dice (snd o) ;;
  r' <- alloc (ODice xs) ;;
  o'' <- load_board board_copy ;;
  store_at board_copy (OBoard (fst (fst o'')) (snd (fst o'')) r') ;;
  ret board_copy.

(** *** [pseudo_legal_moves_dice] and [_get_pseudo_moves] *)

Definition pseudo_legal_moves_dice (self : nat) : St (store B) (list Move) :=
  b <- get_board self ;;
  let moves := pseudo_legal_moves b in
  color <- get_turn self ;;
  let opponent := negb color in
  eps <- get_ep_squares self color ;;
  for_each eps (fun ep_sq moves =>
    let ep_rank := square_rank ep_sq in
    let ep_file := square_file ep_sq in
    let direction := if color then 1 else -1 in
    let captured_sq := square ep_file (ep_rank - direction) in
    for_each [-1; 1] (fun df moves =>
      let pawn_file := ep_file + df in
      if (0 <=? pawn_file) && (pawn_file <=? 7) then
        let pawn_sq := square pawn_file (ep_rank - direction) in
        piece <- self_piece_at self pawn_sq ;;
        if is_piece PAWN color piece then
          captured_piece <- self_piece_at self captured_sq ;;
          if is_piece PAWN opponent captured_piece
          then ret (moves ++ [mkMove pawn_sq ep_sq None])
          else ret moves
        else ret moves
      else ret moves) moves) moves.

(** The condition of the comprehension in [_get_pseudo_moves]. *)
Definition dice_allow (self : nat) (move : Move) : St (store B) bool :=
  castling <- self_is_castling self move ;;
  first <- (if negb castling then
              piece <- self_piece_at self (from_square move) ;;
              match piece with
              | Some p =>
                  dice <- get_dice_roll self ;;
                  ret (bool_decide (piece_type p ∈ dice))
              | None => ret false
              end
            else ret false) ;;
  if first then ret true
  else if castling then
    dice <- get_dice_roll self ;;
    if bool_decide (KING ∈ dice) then
      dice' <- get_dice_roll self ;;
      ret (bool_decide (ROOK ∈ dice'))
    else ret false
  else ret false.

Definition _get_pseudo_moves (self : nat) : St (store B) (list Move) :=
  candidates <- pseudo_legal_moves_dice self ;;
  for_each candidates (fun move acc =>
    keep <- dice_allow self move ;;
    ret (if keep then acc ++ [move] else acc)) [].

(** *** [push] *)

(** The loop over [(to_file - 1, to_file + 1)] that looks for an
    opponent pawn next to the landing square. *)
Definition has_adjacent_opponent_pawn (self : nat) (to_file to_rank : Z)
  (opponent : bool) : St (store B) bool :=
  for_break [to_file - 1; to_file + 1] (fun side_file found =>
    if (0 <=? side_file) && (side_file <=? 7) then
      let neighbor_sq := square side_file to_rank in
      piece <- self_piece_at self neighbor_sq ;;
      if is_piece PAWN opponent piece then ret (true, true)
      else ret (false, found)
    else ret (false, found)) false.

(** [push] is given in the four parts of its body. *)

(** "Detect custom en passant captures": the captured pawn is taken off
    the board and the consumed right off the mover's list. *)
Definition push_capture (self : nat) (move : Move) (make_changes : bool)
  (color is_pawn : bool) : St (store B) unit :=
  is_ep <- (if make_changes && is_pawn then
              eps <- get_ep_squares self color ;;
              if bool_decide (to_square move ∈ eps) then
                target <- self_piece_at self (to_square move) ;;
                ret (negb (truthy target))
              else ret false
            else ret false) ;;
  if is_ep then
    let ep_capture_square := to_square move + (if color then -8 else 8) in
    b <- get_board self ;;
    set_board self (remove_piece_at ep_capture_square b) ;;
    ep_squares_remove self color (to_square move)
  else ret tt.

(** "Execute the move normally": [super().push(move)], which raises
    when the engine's assertion fails, then [self.turn = color] and
    [self.ep_square = None]. *)
Definition push_base (self : nat) (move : Move) (color : bool)
  : St (store B) unit :=
  b <- get_board self ;;
  set_board self (base_push move b) ;;
  (if engine_asserts b move then raise AssertionError else ret tt) ;;
  b <- get_board self ;;
  set_board self (set_turn color b) ;;
  b <- get_board self ;;
  set_board self (set_ep_square None b).

(** The [try] block that consumes the dice. *)
Definition push_dice (self : nat) (piece : option Piece) (is_castling : bool)
  : St (store B) unit :=
  try_except_ValueError
    (t <- match piece with
          | Some p => ret (piece_type p)
          | None => raise AttributeError
          end ;;
     dice_roll_remove self t ;;
     if is_castling then dice_roll_remove self ROOK else ret tt).

(** "Handle new en passant rights", inside [if is_pawn and make_changes]. *)
Definition push_rights (self : nat) (move : Move) (opponent : bool)
  : St (store B) unit :=
  let from_rank := square_rank (from_square move) in
  let to_rank := square_rank (to_square move) in
  if Z.abs (to_rank - from_rank) =? 2 then
    let ep_sq := (from_square move + to_square move) `div` 2 in
    let to_file := square_file (to_square move) in
    found <- has_adjacent_opponent_pawn self to_file to_rank opponent ;;
    if found then
      eps <- get_ep_squares self opponent ;;
      if negb (bool_decide (ep_sq ∈ eps))
      then ep_squares_append self opponent ep_sq
      else ret tt
    else ret tt
  else ret tt.

Definition push (self : nat) (move : Move) (make_changes : bool)
  : St (store B) unit :=
  color <- get_turn self ;;
  let opponent := negb color in
  piece <- self_piece_at self (from_square move) ;;
  is_castling <- self_is_castling self move ;;
  let is_pawn := is_type PAWN piece in
  push_capture self move make_changes color is_pawn ;;
  push_base self move color ;;
  (if make_changes then push_dice self piece is_castling else ret tt) ;;
  if is_pawn && make_changes then push_rights self move opponent else ret tt.

(** *** Move selection *)

(** The comprehension that ends [_get_moves_2] and [_get_moves_3]. *)
Definition select_moves (self : nat) (pseudo_moves : list Move)
  (count_list : list nat) (max_count : nat) : St (store B) (list Move) :=
  for_each (zip pseudo_moves count_list) (fun mc acc =>
    if (snd mc =? max_count)%nat then ret (acc ++ [fst mc])
    else
      captured <- self_piece_at self (to_square (fst mc)) ;;
      ret (if is_type KING captured then acc ++ [fst mc] else acc)) [].

(** The body of the loop of [_get_moves_2]; the loop state is
    [(count_list, max_count)] and [im] is [(i, move)]. *)
Definition count_step_2 (self : nat) (im : nat * Move) (st : list nat * nat)
  : St (store B) (list nat * nat) :=
  castling <- self_is_castling self (snd im) ;;
  if castling then ret (<[fst im := 2%nat]> (fst st), 2%nat)
  else
    board_p1 <- copy self ;;
    push board_p1 (snd im) true ;;
    pseudo_moves_p1 <- _get_pseudo_moves board_p1 ;;
    if (0 <? length pseudo_moves_p1)%nat
    then ret (<[fst im := 2%nat]> (fst st), 2%nat)
    else ret st.

Definition _get_moves_2 (self : nat) : St (store B) (list Move) :=
  pseudo_moves <- _get_pseudo_moves self ;;
  let count_list := replicate (length pseudo_moves) 1%nat in
  let max_count := 1%nat in
  st <- for_each (enumerate pseudo_moves) (count_step_2 self)
          (count_list, max_count) ;;
  select_moves self pseudo_moves (fst st) (snd st).

(** The body of the inner loop of [_get_moves_3], over the continuations
    [move_p1] of the first move; [true] is the [break]. *)
Definition second_step_body (board_p1 : nat) (i : nat) (move_p1 : Move)
  (st : list nat * nat) : St (store B) (bool * (list nat * nat)) :=
  castling <- self_is_castling board_p1 move_p1 ;;
  if castling then ret (true, (<[i := 3%nat]> (fst st), 3%nat))
  else
    board_p2 <- copy board_p1 ;;
    push board_p2 move_p1 true ;;
    pseudo_moves_p2 <- _get_pseudo_moves board_p2 ;;
    if (0 <? length pseudo_moves_p2)%nat
    then ret (true, (<[i := 3%nat]> (fst st), 3%nat))
    else ret (false, st).

Definition second_step (board_p1 : nat) (i : nat)
  (pseudo_moves_p1 : list Move) (st : list nat * nat)
  : St (store B) (list nat * nat) :=
  for_break pseudo_moves_p1 (second_step_body board_p1 i) st.

(** The body of the outer loop of [_get_moves_3]. *)
Definition count_step_3 (self : nat) (im : nat * Move) (st : list nat * nat)
  : St (store B) (list nat * nat) :=
  board_p1 <- copy self ;;
  push board_p1 (snd im) true ;;
  pseudo_moves_p1 <- _get_pseudo_moves board_p1 ;;
  castling <- self_is_castling self (snd im) ;;
  if castling then
    let st1 := (<[fst im := 2%nat]> (fst st),
                if (snd st <? 2)%nat then 2%nat else snd st) in
    if (0 <? length pseudo_moves_p1)%nat
    then ret (<[fst im := 3%nat]> (fst st1), 3%nat)
    else ret st1
  else if (0 <? length pseudo_moves_p1)%nat then
    let st1 := (<[fst im := 2%nat]> (fst st),
                if (snd st <? 2)%nat then 2%nat else snd st) in
    second_step board_p1 (fst im) pseudo_moves_p1 st1
  else ret st.

Definition _get_moves_3 (self : nat) : St (store B) (list Move) :=
  pseudo_moves <- _get_pseudo_moves self ;;
  let count_list := replicate (length pseudo_moves) 1%nat in
  let max_count := 1%nat in
  st <- for_each (enumerate pseudo_moves) (count_step_3 self)
          (count_list, max_count) ;;
  select_moves self pseudo_moves (fst st) (snd st).

Definition get_moves (self : nat) : St (store B) (list Move) :=
  dice <- get_dice_roll self ;;
  let nDices := length dice in
  match nDices with
  | 0%nat => ret []
  | 1%nat => _get_pseudo_moves self
  | 2%nat => _get_moves_2 self
  | 3%nat => _get_moves_3 self
  | _ => raise ValueError
  end.

(** *** [is_game_over] and [next_player] *)

Definition is_game_over (self : nat) (move : Move) : St (store B) bool :=
  captured <- self_piece_at self (to_square move) ;;
  if is_type KING captured then ret true else ret false.

Definition next_player (self : nat) : St (store B) unit :=
  color <- get_turn self ;;
  ep_squares_clear self color ;;
  b <- get_board self ;;
  set_board self (set_turn (negb color) b).

(** *** The chain depth, as the specification words it *)

(** Applying a move "hypothetically": on a copy, with the die consumed;
    the result is the copy and the candidates recomputed on it. *)
Definition simulate (self : nat) (move : Move)
  : St (store B) (nat * list Move) :=
  board_p1 <- copy self ;;
  push board_p1 move true ;;
  pseudo_moves_p1 <- _get_pseudo_moves board_p1 ;;
  ret (board_p1, pseudo_moves_p1).

(** "The recomputed candidate set is non-empty." *)
Definition has_continuation (h : store B) (self : nat) (move : Move) : bool :=
  match fst (simulate self move h) with
  | inr (_, _ :: _) => true
  | _ => false
  end.

Definition castling_at (h : store B) (self : nat) (move : Move) : bool :=
  match fst (self_is_castling self move h) with
  | inr c => c
  | inl _ => false
  end.

(** The destination square holds a king. *)
Definition king_at (h : store B) (self : nat) (sq : Z) : bool :=
  match fst (self_piece_at self sq h) with
  | inr p => is_type KING p
  | inl _ => false
  end.

(** Depth with two dice: 2 if the move is a castling move or has a
    continuation, 1 otherwise. *)
Definition depth_2 (h : store B) (self : nat) (move : Move) : nat :=
  if castling_at h self move || has_continuation h self move
  then 2%nat else 1%nat.

(** "Some continuation move is itself a castling move or yields a
    further non-empty continuation." *)
Definition continues_twice (h : store B) (self : nat) (move : Move) : bool :=
  match simulate self move h with
  | (inr (board_p1, pseudo_moves_p1), h1) =>
      existsb (fun move_p1 =>
                 castling_at h1 board_p1 move_p1
                 || has_continuation h1 board_p1 move_p1)
        pseudo_moves_p1
  | _ => false
  end.

(** Depth with three dice. *)
Definition depth_3 (h : store B) (self : nat) (move : Move) : nat :=
  if castling_at h self move then
    if has_continuation h self move then 3%nat else 2%nat
  else if has_continuation h self move then
    if continues_twice h self move then 3%nat else 2%nat
  else 1%nat.

(** "The maximum depth found across all candidates (minimum 1)." *)
Definition max_depth (depths : list nat) : nat := foldr Nat.max 1%nat depths.

End DiceBoard.

(** ** Value semantics *)

(** The same methods on a board held by value.  A query is a function of
    the board; [push_v] returns the new board or the exception. *)
Section DiceBoardV.
Context {B : Type} `{BoardEngine B}.

Definition set_board_v (b : B) (v : DiceBoardV B) : DiceBoardV B :=
  mkDiceBoardV b (ep_white v) (ep_black v) (dice_roll v).

Definition set_ep_squares_v (c : bool) (l : list Z) (v : DiceBoardV B)
  : DiceBoardV B :=
  if c then mkDiceBoardV (board v) l (ep_black v) (dice_roll v)
  else mkDiceBoardV (board v) (ep_white v) l (dice_roll v).

Definition set_dice_roll_v (l : list PieceType) (v : DiceBoardV B)
  : DiceBoardV B :=
  mkDiceBoardV (board v) (ep_white v) (ep_black v) l.

(** The custom en-passant moves that one right [ep_sq] adds. *)
Definition custom_ep_moves (b : B) (color : bool) (ep_sq : Z)
  (moves : list Move) : list Move :=
  let ep_rank := square_rank ep_sq in
  let ep_file := square_file ep_sq in
  let direction := if color then 1 else -1 in
  let captured_sq := square ep_file (ep_rank - direction) in
  fold_left (fun moves df =>
    let pawn_file := ep_file + df in
    if (0 <=? pawn_file) && (pawn_file <=? 7) then
      let pawn_sq := square pawn_file (ep_rank - direction) in
      if is_piece PAWN color (piece_at b pawn_sq) then
        if is_piece PAWN (negb color) (piece_at b captured_sq)
        then moves ++ [mkMove pawn_sq ep_sq None]
        else moves
      else moves
    else moves) [-1; 1] moves.

Definition pseudo_legal_moves_dice_v (v : DiceBoardV B) : list Move :=
  let color := turn (board v) in
  fold_left (fun moves ep_sq => custom_ep_moves (board v) color ep_sq moves)
    (ep_squares v color) (pseudo_legal_moves (board v)).

Definition dice_allow_v (v : DiceBoardV B) (move : Move) : bool :=
  let castling := is_castling (board v) move in
  (negb castling &&
   match piece_at (board v) (from_square move) with
   | Some p => bool_decide (piece_type p ∈ dice_roll v)
   | None => false
   end)
  || (castling && bool_decide (KING ∈ dice_roll v)
      && bool_decide (ROOK ∈ dice_roll v)).

Definition _get_pseudo_moves_v (v : DiceBoardV B) : list Move :=
  List.filter (dice_allow_v v) (pseudo_legal_moves_dice_v v).

Definition has_adjacent_opponent_pawn_v (b : B) (to_file to_rank : Z)
  (opponent : bool) : bool :=
  existsb (fun side_file =>
    (0 <=? side_file) && (side_file <=? 7)
    && is_piece PAWN opponent (piece_at b (square side_file to_rank)))
    [to_file - 1; to_file + 1].

(** The test that makes a move a custom en-passant capture. *)
Definition is_ep_capture_v (move : Move) (make_changes : bool)
  (v : DiceBoardV B) : bool :=
  make_changes
  && is_type PAWN (piece_at (board v) (from_square move))
  && bool_decide (to_square move ∈ ep_squares v (turn (board v)))
  && negb (truthy (piece_at (board v) (to_square move))).

Definition ep_capture_square (color : bool) (move : Move) : Z :=
  to_square move + (if color then -8 else 8).

(** First part of [push]: the captured pawn and the consumed right go. *)
Definition push_capture_v (move : Move) (make_changes : bool)
  (v : DiceBoardV B) : exn + DiceBoardV B :=
  let color := turn (board v) in
  if is_ep_capture_v move make_changes v then
    match list_remove_first (to_square move) (ep_squares v color) with
    | Some l' =>
        inr (set_ep_squares_v color l'
               (set_board_v
                  (remove_piece_at (ep_capture_square color move) (board v))
                  v))
    | None => inl ValueError
    end
  else inr v.

(** A pawn move that [push] takes for a custom en-passant capture and
    whose capture square is the square the pawn stands on: a step
    straight onto a right of the pawn's own side.  [push] then removes
    the moving pawn. *)
Definition takes_itself (v : DiceBoardV B) (move : Move) : bool :=
  is_ep_capture_v move true v
  && bool_decide (ep_capture_square (turn (board v)) move = from_square move).

(** When [push] returns. *)
Definition push_returns (v : DiceBoardV B) (move : Move)
  (make_changes : bool) : bool :=
  if make_changes
  then truthy (piece_at (board v) (from_square move))
       && negb (takes_itself v move)
  else negb (engine_asserts (board v) move).

(** Second part: the engine's push, which raises when its assertion
    fails, with the turn and the standard en-passant square forced. *)
Definition push_base_v (move : Move) (color : bool) (v : DiceBoardV B)
  : exn + DiceBoardV B :=
  if engine_asserts (board v) move then inl AssertionError
  else inr (set_board_v
              (set_ep_square None
                 (set_turn color (base_push move (board v)))) v).

(** Third part: the dice consumed, inside [try ... except ValueError]. *)
Definition push_dice_v (piece : option Piece) (castling : bool)
  (v : DiceBoardV B) : exn + DiceBoardV B :=
  match piece with
  | None => inl AttributeError
  | Some p =>
      match list_remove_first (piece_type p) (dice_roll v) with
      | None => inr v
      | Some d1 =>
          if castling then
            match list_remove_first ROOK d1 with
            | None => inr (set_dice_roll_v d1 v)
            | Some d2 => inr (set_dice_roll_v d2 v)
            end
          else inr (set_dice_roll_v d1 v)
      end
  end.

(** Fourth part: the new right of the opponent. *)
Definition grants_right_v (move : Move) (opponent : bool)
  (v : DiceBoardV B) : bool :=
  let from_rank := square_rank (from_square move) in
  let to_rank := square_rank (to_square move) in
  (Z.abs (to_rank - from_rank) =? 2)
  && has_adjacent_opponent_pawn_v (board v)
       (square_file (to_square move)) to_rank opponent
  && negb (bool_decide
             ((from_square move + to_square move) `div` 2
              ∈ ep_squares v opponent)).

Definition push_rights_v (move : Move) (opponent : bool)
  (v : DiceBoardV B) : DiceBoardV B :=
  if grants_right_v move opponent v then
    set_ep_squares_v opponent
      (ep_squares v opponent ++ [(from_square move + to_square move) `div` 2])
      v
  else v.

Definition push_v (move : Move) (make_changes : bool) (v : DiceBoardV B)
  : exn + DiceBoardV B :=
  let color := turn (board v) in
  let piece := piece_at (board v) (from_square move) in
  let castling := is_castling (board v) move in
  match push_capture_v move make_changes v with
  | inl e => inl e
  | inr v1 =>
      match push_base_v move color v1 with
      | inl e => inl e
      | inr v2 =>
          match (if make_changes then push_dice_v piece castling v2
                 else inr v2)
          with
          | inl e => inl e
          | inr v3 =>
              inr (if is_type PAWN piece && make_changes
                   then push_rights_v move (negb color) v3
                   else v3)
          end
      end
  end.

Definition is_game_over_v (v : DiceBoardV B) (move : Move) : bool :=
  is_type KING (piece_at (board v) (to_square move)).

Definition next_player_v (v : DiceBoardV B) : DiceBoardV B :=
  let color := turn (board v) in
  let v1 := set_ep_squares_v color [] v in
  set_board_v (set_turn (negb color) (board v1)) v1.

(** Selection.  A simulated board is a value of its own, so the live
    board [v] is simply not touched. *)
Definition select_moves_v (v : DiceBoardV B) (pseudo_moves : list Move)
  (count_list : list nat) (max_count : nat) : list Move :=
  fst <$> List.filter (fun mc =>
            (snd mc =? max_count)%nat || is_game_over_v v (fst mc))
            (zip pseudo_moves count_list).

(** One simulated move: the candidates left after it. *)
Definition continuations_v (v : DiceBoardV B) (move : Move)
  : exn + list Move :=
  match push_v move true v with
  | inl e => inl e
  | inr v1 => inr (_get_pseudo_moves_v v1)
  end.

Fixpoint counts_2_v (v : DiceBoardV B) (ims : list (nat * Move))
  (st : list nat * nat) : exn + (list nat * nat) :=
  match ims with
  | [] => inr st
  | im :: rest =>
      if is_castling (board v) (snd im)
      then counts_2_v v rest (<[fst im := 2%nat]> (fst st), 2%nat)
      else
        match continuations_v v (snd im) with
        | inl e => inl e
        | inr pseudo_moves_p1 =>
            if (0 <? length pseudo_moves_p1)%nat
            then counts_2_v v rest (<[fst im := 2%nat]> (fst st), 2%nat)
            else counts_2_v v rest st
        end
  end.

Definition _get_moves_2_v (v : DiceBoardV B) : exn + list Move :=
  let pseudo_moves := _get_pseudo_moves_v v in
  match counts_2_v v (enumerate pseudo_moves)
          (replicate (length pseudo_moves) 1%nat, 1%nat) with
  | inl e => inl e
  | inr st => inr (select_moves_v v pseudo_moves (fst st) (snd st))
  end.

(** The inner loop of [_get_moves_3]: [inr true] when a continuation
    confirms depth 3, at which point the loop is left. *)
Fixpoint second_step_v (v1 : DiceBoardV B) (pseudo_moves_p1 : list Move)
  : exn + bool :=
  match pseudo_moves_p1 with
  | [] => inr false
  | move_p1 :: rest =>
      if is_castling (board v1) move_p1 then inr true
      else
        match continuations_v v1 move_p1 with
        | inl e => inl e
        | inr pseudo_moves_p2 =>
            if (0 <? length pseudo_moves_p2)%nat then inr true
            else second_step_v v1 rest
        end
  end.

Fixpoint counts_3_v (v : DiceBoardV B) (ims : list (nat * Move))
  (st : list nat * nat) : exn + (list nat * nat) :=
  match ims with
  | [] => inr st
  | im :: rest =>
      match push_v (snd im) true v with
      | inl e => inl e
      | inr v1 =>
          let pseudo_moves_p1 := _get_pseudo_moves_v v1 in
          let st1 := (<[fst im := 2%nat]> (fst st),
                      if (snd st <? 2)%nat then 2%nat else snd st) in
          if is_castling (board v) (snd im) then
            if (0 <? length pseudo_moves_p1)%nat
            then counts_3_v v rest (<[fst im := 3%nat]> (fst st1), 3%nat)
            else counts_3_v v rest st1
          else if (0 <? length pseudo_moves_p1)%nat then
            match second_step_v v1 pseudo_moves_p1 with
            | inl e => inl e
            | inr true =>
                counts_3_v v rest (<[fst im := 3%nat]> (fst st1), 3%nat)
            | inr false => counts_3_v v rest st1
            end
          else counts_3_v v rest st
      end
  end.

Definition _get_moves_3_v (v : DiceBoardV B) : exn + list Move :=
  let pseudo_moves := _get_pseudo_moves_v v in
  match counts_3_v v (enumerate pseudo_moves)
          (replicate (length pseudo_moves) 1%nat, 1%nat) with
  | inl e => inl e
  | inr st => inr (select_moves_v v pseudo_moves (fst st) (snd st))
  end.

Definition get_moves_v (v : DiceBoardV B) : exn + list Move :=
  match length (dice_roll v) with
  | 0%nat => inr []
  | 1%nat => inr (_get_pseudo_moves_v v)
  | 2%nat => _get_moves_2_v v
  | 3%nat => _get_moves_3_v v
  | _ => inl ValueError
  end.

(** The chain depth on a board held by value. *)
Definition has_continuation_v (v : DiceBoardV B) (move : Move) : bool :=
  match continuations_v v move with
  | inr (_ :: _) => true
  | _ => false
  end.

Definition depth_2_v (v : DiceBoardV B) (move : Move) : nat :=
  if is_castling (board v) move || has_continuation_v v move
  then 2%nat else 1%nat.

Definition continues_twice_v (v : DiceBoardV B) (move : Move) : bool :=
  match push_v move true v with
  | inr v1 =>
      existsb (fun move_p1 =>
                 is_castling (board v1) move_p1
                 || has_continuation_v v1 move_p1)
        (_get_pseudo_moves_v v1)
  | inl _ => false
  end.

Definition depth_3_v (v : DiceBoardV B) (move : Move) : nat :=
  if is_castling (board v) move then
    if has_continuation_v v move then 3%nat else 2%nat
  else if has_continuation_v v move then
    if continues_twice_v v move then 3%nat else 2%nat
  else 1%nat.

(** *** Reading a board out of the store *)

(** Where the containers of a board object live. *)
Record layout := mkLayout {
  l_dict : nat; l_white : nat; l_black : nat; l_dice : nat }.

Record repr (h : store B) (self : nat) (ly : layout) (v : DiceBoardV B)
  : Prop := mkRepr {
  repr_board : h !! self = Some (OBoard (board v) (l_dict ly) (l_dice ly));
  repr_dict : h !! l_dict ly = Some (ODict (l_white ly) (l_black ly));
  repr_white : h !! l_white ly = Some (OSquares (ep_white v));
  repr_black : h !! l_black ly = Some (OSquares (ep_black v));
  repr_dice : h !! l_dice ly = Some (ODice (dice_roll v));
  repr_sep : l_white ly ≠ l_black ly }.

(** The board that the object at [self] and its containers hold, when
    they are well formed. *)
Definition view (h : store B) (self : nat) : option (DiceBoardV B) :=
  match h !! self with
  | Some (OBoard b d r) =>
      match h !! d, h !! r with
      | Some (ODict w k), Some (ODice dice) =>
          match h !! w, h !! k with
          | Some (OSquares ws), Some (OSquares ks) =>
              if decide (w = k) then None
              else Some (mkDiceBoardV b ws ks dice)
          | _, _ => None
          end
      | _, _ => None
      end
  | _ => None
  end.

(** *** The invariant on the right-sets *)

(** No square is a right of both colours. *)
Definition rights_disjoint (v : DiceBoardV B) : Prop :=
  forall sq, sq ∈ ep_white v -> sq ∉ ep_black v.

(** No right lies on an occupied square. *)
Definition rights_unoccupied (v : DiceBoardV B) : Prop :=
  forall c sq, sq ∈ ep_squares v c -> piece_at (board v) sq = None.

Definition ep_invariant (v : DiceBoardV B) : Prop :=
  rights_disjoint v /\ rights_unoccupied v.

(** White's rights lie behind black's double steps, on the sixth rank,
    and black's on the third. *)
Definition rights_on_ranks (v : DiceBoardV B) : Prop :=
  (forall sq, sq ∈ ep_white v -> square_rank sq = 5)
  /\ (forall sq, sq ∈ ep_black v -> square_rank sq = 2).

Definition rights_kept (v : DiceBoardV B) : Prop :=
  rights_on_ranks v /\ NoDup (ep_white v) /\ NoDup (ep_black v).

(** A pawn that advances two ranks does so from the second rank of its
    side, straight ahead. *)
Definition orthodox_double_step (v : DiceBoardV B) (move : Move) : Prop :=
  is_type PAWN (piece_at (board v) (from_square move)) = true ->
  Z.abs (square_rank (to_square move) - square_rank (from_square move)) = 2 ->
  to_square move = from_square move + (if turn (board v) then 16 else -16)
  /\ square_rank (from_square move) = (if turn (board v) then 1 else 6).

(** A store that holds the one board [v], at location 0. *)
Definition mk_store (v : DiceBoardV B) : store B :=
  {[ 0%nat := OBoard (board v) 1%nat 4%nat;
     1%nat := ODict 2%nat 3%nat;
     2%nat := OSquares (ep_white v);
     3%nat := OSquares (ep_black v);
     4%nat := ODice (dice_roll v) ]}.

(** A board object whose cells all lie outside a baseline store [hb]:
    writing to it leaves [hb] as it is. *)
Definition outside (hb : store B) (self : nat) (ly : layout) : Prop :=
  hb !! self = None /\ hb !! l_dict ly = None /\ hb !! l_white ly = None
  /\ hb !! l_black ly = None /\ hb !! l_dice ly = None.

Record owns (hb h : store B) (self : nat) (ly : layout) (v : DiceBoardV B)
  : Prop := mkOwns {
  owns_sub : hb ⊆ h;
  owns_repr : repr h self ly v;
  owns_out : outside hb self ly }.

(** A store-level command on the board at [self] computes the
    value-level [f]: same outcome, the baseline untouched, and the board
    object still well formed and outside the baseline afterwards. *)
Definition sim_at (hb : store B) (self : nat) (ly : layout)
  (c : St (store B) unit) (f : DiceBoardV B -> exn + DiceBoardV B)
  (h : store B) (v : DiceBoardV B) : Prop :=
  exists h', c h = (outcome (f v), h') /\ hb ⊆ h'
             /\ forall v', f v = inr v' -> owns hb h' self ly v'.

End DiceBoardV.

(** ** The rest of the module *)

(** [pieces_list] and [pieces_name_list], and the number python-chess
    gives each piece type, which indexes the names. *)
Definition pieces_list : list PieceType :=
  [PAWN; KNIGHT; BISHOP; ROOK; QUEEN; KING].

Definition pieces_name_list : list String.string :=
  ["Pawn"; "Knight"; "Bishop"; "Rook"; "Queen"; "King"]%string.

Definition piece_number (t : PieceType) : Z :=
  match t with
  | PAWN => 1 | KNIGHT => 2 | BISHOP => 3 | ROOK => 4 | QUEEN => 5 | KING => 6
  end.

(** [l[i]] for a Python list: a negative index counts from the end, and
    an index out of range is an [IndexError] ([None]). *)
Definition py_index {A} (l : list A) (i : Z) : option A :=
  if 0 <=? i then l !! Z.to_nat i
  else if - Z.of_nat (length l) <=? i then l !! Z.to_nat (Z.of_nat (length l) + i)
  else None.

(** [[pieces_name_list[p-1] for p in dice_roll]], as [main] prints a
    roll. *)
Definition roll_names (dice : list PieceType) : list (option String.string) :=
  map (fun p => py_index pieces_name_list (piece_number p - 1)) dice.

(** [random.choices(population, k=k)]: [rnd j] is the [j]-th draw of the
    generator, reduced to an index of the population. *)
Definition choices {A} (population : list A) (k : nat) (rnd : nat -> nat)
  : list (option A) :=
  map (fun j => population !! (rnd j mod length population)%nat) (seq 0 k).

(** The engine's [san] for a move that passes the engine's assertion.
    It is taken as a query on the board: the engine leaves the board as
    it found it. *)
Class BoardSan (B : Type) := {
  base_san : B -> Move -> String.string }.

Section DiceBoardRest.
Context {B : Type} `{BoardEngine B} `{BoardSan B}.

(** [roll_dices]: the attribute is bound to a new list object. *)
Definition roll_dices (self : nat) (rnd : nat -> nat) : St (store B) unit :=
  match mapM id (choices pieces_list 3 rnd) with
  | Some dice =>
      r <- alloc (ODice dice) ;;
      o <- load_board self ;;
      store_at self (OBoard (fst (fst o)) (snd (fst o)) r)
  | None => raise BadRef
  end.

(** [san] *)
Definition san (self : nat) (move : Move) : St (store B) String.string :=
  color <- get_turn self ;;
  piece <- self_piece_at self (from_square move) ;;
  let is_pawn := is_type PAWN piece in
  is_ep <- (if is_pawn then
              eps <- get_ep_squares self color ;;
              if bool_decide (to_square move ∈ eps) then
                target <- self_piece_at self (to_square move) ;;
                ret (negb (truthy target))
              else ret false
            else ret false) ;;
  (if is_ep then
     b <- get_board self ;;
     set_board self (set_ep_square (Some (to_square move)) b)
   else ret tt) ;;
  b <- get_board self ;;
  (if engine_asserts b move then raise AssertionError else ret tt) ;;
  let san_str := base_san b move in
  b <- get_board self ;;
  set_board self (set_ep_square None b) ;;
  ret san_str.

(** [is_check], [is_checkmate], [_attacked_for_king] and [is_stalemate]
    answer [False] whatever the board. *)
Definition is_check (self : nat) : St (store B) bool := ret false.
Definition is_checkmate (self : nat) : St (store B) bool := ret false.
Definition _attacked_for_king (self : nat) (king_square : Z) (color : bool)
  : St (store B) bool := ret false.
Definition is_stalemate (self : nat) : St (store B) bool := ret false.

(** The cells of the board object at [p], as a store of their own. *)
Definition cells (p : nat) (ly : layout) (v : DiceBoardV B) : store B :=
  {[ p := OBoard (board v) (l_dict ly) (l_dice ly);
     l_dict ly := ODict (l_white ly) (l_black ly);
     l_white ly := OSquares (ep_white v);
     l_black ly := OSquares (ep_black v);
     l_dice ly := ODice (dice_roll v) ]}.

(** The test and the move of one round of the inner loop of
    [pseudo_legal_moves_dice], for the right [ep_sq] and the side [df]. *)
Definition custom_ep_ok (b : B) (color : bool) (ep_sq df : Z) : bool :=
  let direction := if color then 1 else -1 in
  (0 <=? square_file ep_sq + df) && (square_file ep_sq + df <=? 7)
  && is_piece PAWN color
       (piece_at b (square (square_file ep_sq + df)
                      (square_rank ep_sq - direction)))
  && is_piece PAWN (negb color)
       (piece_at b (square (square_file ep_sq)
                      (square_rank ep_sq - direction))).

Definition custom_ep_move (color : bool) (ep_sq df : Z) : Move :=
  let direction := if color then 1 else -1 in
  mkMove (square (square_file ep_sq + df) (square_rank ep_sq - direction))
    ep_sq None.

(** The moves that [pseudo_legal_moves_dice] adds to the engine's: a pawn
    of the side to move, on a file next to a right [ep_sq] of that side
    and one rank behind it, moves onto [ep_sq], and a pawn of the other
    side stands on the file of [ep_sq], one rank behind it. *)
Definition custom_ep (v : DiceBoardV B) (move : Move) : Prop :=
  let color := turn (board v) in
  let direction := if color then 1 else -1 in
  exists ep_sq df,
    ep_sq ∈ ep_squares v color /\ (df = -1 \/ df = 1) /\
    0 <= square_file ep_sq + df <= 7 /\
    move = mkMove (square (square_file ep_sq + df)
                     (square_rank ep_sq - direction)) ep_sq None /\
    piece_at (board v) (from_square move) = Some (mkPiece PAWN color) /\
    piece_at (board v)
      (square (square_file ep_sq) (square_rank ep_sq - direction))
    = Some (mkPiece PAWN (negb color)).

End DiceBoardRest.

(** ** A small board engine *)

(** Modelled from the spec: the Board Engine of section 6
    ([chess.Board] of python-chess, which is not part of the repository):
    piece lookup by square, pseudo-legal move generation under orthodox
    movement and castling availability with checks ignored, and move
    application with capture removal, castling rook relocation, promotion
    and the standard en-passant capture.  It gives the abstract
    [BoardEngine] a concrete instance on which the theorems are run. *)
Module MiniChess.

Record Board := mkBoard {
  pieces : gmap Z Piece;
  b_turn : bool;
  b_ep_square : option Z;
  castling_rights : list Z }.

Definition on_board (sq : Z) : bool := (0 <=? sq) && (sq <=? 63).

(** Squares from h8 down to a1, the order in which the engine scans. *)
Definition squares_desc : list Z := reverse (seqZ 0 64).

Definition m_piece_at (b : Board) (sq : Z) : option Piece := pieces b !! sq.

Definition m_set_turn (c : bool) (b : Board) : Board :=
  mkBoard (pieces b) c (b_ep_square b) (castling_rights b).

Definition m_set_ep_square (e : option Z) (b : Board) : Board :=
  mkBoard (pieces b) (b_turn b) e (castling_rights b).

Definition m_remove_piece_at (sq : Z) (b : Board) : Board :=
  mkBoard (delete sq (pieces b)) (b_turn b) (b_ep_square b)
    (castling_rights b).

Definition own (b : Board) (sq : Z) : bool :=
  match pieces b !! sq with
  | Some p => bool_decide (color p = b_turn b)
  | None => false
  end.

Definition enemy (b : Board) (sq : Z) : bool :=
  match pieces b !! sq with
  | Some p => bool_decide (color p = negb (b_turn b))
  | None => false
  end.

Definition occupied (b : Board) (sq : Z) : bool := truthy (pieces b !! sq).

(** A king move is a castling move when it spans more than one file or
    lands on a rook of the mover. *)
Definition m_is_castling (b : Board) (m : Move) : bool :=
  match pieces b !! from_square m with
  | Some (mkPiece KING _) =>
      (1 <? Z.abs (square_file (from_square m) - square_file (to_square m)))
      || is_piece ROOK (b_turn b) (pieces b !! to_square m)
  | _ => false
  end.

(** A step of [(df, dr)] from [sq], if it stays on the board. *)
Definition step (sq df dr : Z) : option Z :=
  let f := square_file sq + df in
  let r := square_rank sq + dr in
  if (0 <=? f) && (f <=? 7) && (0 <=? r) && (r <=? 7)
  then Some (square f r) else None.

(** The squares of a ray from [sq], up to and including the first
    occupied one. *)
Fixpoint ray (b : Board) (fuel : nat) (sq df dr : Z) : list Z :=
  match fuel with
  | O => []
  | S fuel' =>
      match step sq df dr with
      | None => []
      | Some sq' =>
          if occupied b sq' then [sq'] else sq' :: ray b fuel' sq' df dr
      end
  end.

Definition knight_steps : list (Z * Z) :=
  [(1, 2); (2, 1); (2, -1); (1, -2); (-1, -2); (-2, -1); (-2, 1); (-1, 2)].
Definition king_steps : list (Z * Z) :=
  [(1, 0); (1, 1); (0, 1); (-1, 1); (-1, 0); (-1, -1); (0, -1); (1, -1)].
Definition bishop_dirs : list (Z * Z) := [(1, 1); (-1, 1); (-1, -1); (1, -1)].
Definition rook_dirs : list (Z * Z) := [(1, 0); (0, 1); (-1, 0); (0, -1)].

Definition leaps (sq : Z) (steps : list (Z * Z)) : list Z :=
  omap (fun d => step sq (fst d) (snd d)) steps.

Definition slides (b : Board) (sq : Z) (dirs : list (Z * Z)) : list Z :=
  concat (map (fun d => ray b 7 sq (fst d) (snd d)) dirs).

(** The squares a piece on [sq] attacks. *)
Definition attacks (b : Board) (sq : Z) (p : Piece) : list Z :=
  match piece_type p with
  | PAWN =>
      let dr := if color p then 1 else -1 in
      leaps sq [(-1, dr); (1, dr)]
  | KNIGHT => leaps sq knight_steps
  | BISHOP => slides b sq bishop_dirs
  | ROOK => slides b sq rook_dirs
  | QUEEN => slides b sq (bishop_dirs ++ rook_dirs)
  | KING => leaps sq king_steps
  end.

Definition targets_desc (l : list Z) : list Z :=
  List.filter (fun sq => bool_decide (sq ∈ l)) squares_desc.

Definition piece_moves (b : Board) : list Move :=
  concat (map (fun from =>
    match pieces b !! from with
    | Some p =>
        if bool_decide (color p = b_turn b)
           && negb (bool_decide (piece_type p = PAWN))
        then map (fun to => mkMove from to None)
               (List.filter (fun to => negb (own b to))
                  (targets_desc (attacks b from p)))
        else []
    | None => []
    end) squares_desc).

Definition back_rank (c : bool) : Z := if c then 0 else 7.

(** Castling with the rook on [rook_sq]: the king stands on the e-file of
    its back rank, the right is still there, and nothing but king and
    rook stands on the squares they cross or reach.  Attacks are not
    looked at. *)
Definition castling_move (b : Board) (rook_sq : Z) : list Move :=
  let r := back_rank (b_turn b) in
  let king_sq := square 4 r in
  let a_side := square_file rook_sq <? 4 in
  let king_to := square (if a_side then 2 else 6) r in
  let rook_to := square (if a_side then 3 else 5) r in
  let crossed :=
    if a_side then [square 1 r; square 2 r; square 3 r]
    else [square 5 r; square 6 r] in
  if bool_decide (rook_sq ∈ castling_rights b)
     && bool_decide (square_rank rook_sq = r)
     && is_piece KING (b_turn b) (pieces b !! king_sq)
     && is_piece ROOK (b_turn b) (pieces b !! rook_sq)
     && forallb (fun sq => negb (occupied b sq)) crossed
  then [mkMove king_sq king_to None] else [].

Definition castling_moves (b : Board) : list Move :=
  let r := back_rank (b_turn b) in
  castling_move b (square 7 r) ++ castling_move b (square 0 r).

Definition with_promotions (from to : Z) : list Move :=
  if bool_decide (square_rank to = 0) || bool_decide (square_rank to = 7)
  then map (fun t => mkMove from to (Some t)) [QUEEN; ROOK; BISHOP; KNIGHT]
  else [mkMove from to None].

Definition is_own_pawn (b : Board) (sq : Z) : bool :=
  is_piece PAWN (b_turn b) (pieces b !! sq).

Definition pawn_captures (b : Board) : list Move :=
  concat (map (fun from =>
    match pieces b !! from with
    | Some p =>
        if is_own_pawn b from then
          concat (map (with_promotions from)
                    (List.filter (enemy b) (targets_desc (attacks b from p))))
        else []
    | None => []
    end) squares_desc).

Definition forward (b : Board) : Z := if b_turn b then 8 else -8.

Definition pawn_single_moves (b : Board) : list Move :=
  concat (map (fun to =>
    let from := to - forward b in
    if is_own_pawn b from && negb (occupied b to) && on_board to
    then with_promotions from to else []) squares_desc).

Definition pawn_double_moves (b : Board) : list Move :=
  concat (map (fun to =>
    let from := to - 2 * forward b in
    if is_own_pawn b from
       && negb (occupied b (to - forward b)) && negb (occupied b to)
       && bool_decide (square_rank to = if b_turn b then 3 else 4)
    then [mkMove from to None] else []) squares_desc).

Definition ep_captures (b : Board) : list Move :=
  match b_ep_square b with
  | Some ep =>
      if occupied b ep then []
      else
        concat (map (fun from =>
          if is_own_pawn b from
             && bool_decide (square_rank from = if b_turn b then 4 else 3)
             && bool_decide (ep ∈ attacks b from (mkPiece PAWN (b_turn b)))
          then [mkMove from ep None] else []) squares_desc)
  | None => []
  end.

Definition m_pseudo_legal_moves (b : Board) : list Move :=
  piece_moves b ++ castling_moves b ++ pawn_captures b
  ++ pawn_single_moves b ++ pawn_double_moves b ++ ep_captures b.

(** Move application.  The null move only passes the turn.  For another
    move from an empty square, where the engine's assertion fails, the
    placement and the turn stay as they were and the en-passant square
    is unset. *)
Definition m_push (m : Move) (b : Board) : Board :=
  let c := b_turn b in
  if null_move m then mkBoard (pieces b) (negb c) None (castling_rights b)
  else
  match pieces b !! from_square m with
  | None => mkBoard (pieces b) c None (castling_rights b)
  | Some p =>
      let from := from_square m in
      let to := to_square m in
      let rights0 :=
        List.filter (fun r => negb (bool_decide (r = from))
                              && negb (bool_decide (r = to)))
          (castling_rights b) in
      let rights :=
        if bool_decide (piece_type p = KING)
        then List.filter
               (fun r => negb (bool_decide (square_rank r = back_rank c)))
               rights0
        else rights0 in
      if m_is_castling b m then
        let r := square_rank from in
        let a_side := square_file to <? square_file from in
        let rook_from :=
          if is_piece ROOK c (pieces b !! to) then to
          else square (if a_side then 0 else 7) r in
        let placed :=
          <[square (if a_side then 2 else 6) r := mkPiece KING c]>
            (<[square (if a_side then 3 else 5) r := mkPiece ROOK c]>
               (delete rook_from (delete from (pieces b)))) in
        mkBoard placed (negb c) None rights
      else
        let diff := to - from in
        let is_pawn := bool_decide (piece_type p = PAWN) in
        let new_ep :=
          if is_pawn && (diff =? 16) && (square_rank from =? 1)
          then Some (from + 8)
          else if is_pawn && (diff =? -16) && (square_rank from =? 6)
          then Some (from - 8)
          else None in
        let ep_taken :=
          is_pawn && bool_decide (b_ep_square b = Some to)
          && ((Z.abs diff =? 7) || (Z.abs diff =? 9))
          && negb (occupied b to) in
        let cleared :=
          if ep_taken then delete (to + (if c then -8 else 8)) (pieces b)
          else pieces b in
        let moved :=
          match promotion m with
          | Some t => mkPiece t c
          | None => mkPiece (piece_type p) c
          end in
        mkBoard (<[to := moved]> (delete from cleared)) (negb c) new_ep rights
  end.

#[global] Instance engine : BoardEngine Board := {
  turn := b_turn;
  set_turn := m_set_turn;
  ep_square := b_ep_square;
  set_ep_square := m_set_ep_square;
  piece_at := m_piece_at;
  remove_piece_at := m_remove_piece_at;
  base_push := m_push;
  pseudo_legal_moves := m_pseudo_legal_moves;
  is_castling := m_is_castling }.

(** Notation of a move in long form: the letter of the piece (none for a
    pawn), the square it leaves, [x] for a capture and [-] otherwise, and
    the square it reaches.  A pawn that moves diagonally onto the standard
    en-passant square captures. *)
Definition file_name (f : Z) : String.string :=
  match f with
  | 0 => "a" | 1 => "b" | 2 => "c" | 3 => "d"
  | 4 => "e" | 5 => "f" | 6 => "g" | _ => "h"
  end%string.

Definition rank_name (r : Z) : String.string :=
  match r with
  | 0 => "1" | 1 => "2" | 2 => "3" | 3 => "4"
  | 4 => "5" | 5 => "6" | 6 => "7" | _ => "8"
  end%string.

Definition square_name (sq : Z) : String.string :=
  (file_name (square_file sq) +:+ rank_name (square_rank sq))%string.

Definition piece_letter (t : PieceType) : String.string :=
  match t with
  | PAWN => String.EmptyString
  | KNIGHT => "N" | BISHOP => "B"
  | ROOK => "R" | QUEEN => "Q" | KING => "K"
  end%string.

Definition m_san (b : Board) (m : Move) : String.string :=
  let from := from_square m in
  let to := to_square m in
  match pieces b !! from with
  | None => "--"%string
  | Some p =>
      let is_pawn := bool_decide (piece_type p = PAWN) in
      let ep_taken :=
        is_pawn && bool_decide (b_ep_square b = Some to)
        && negb (square_file from =? square_file to) in
      let captures := occupied b to || ep_taken in
      (piece_letter (piece_type p) +:+ square_name from
       +:+ (if captures then "x" else "-") +:+ square_name to)%string
  end.

#[global] Instance engine_san : BoardSan Board := { base_san := m_san }.

(** The start position. *)
Definition back_row : list PieceType :=
  [ROOK; KNIGHT; BISHOP; QUEEN; KING; BISHOP; KNIGHT; ROOK].

Definition row (r : Z) (c : bool) (ts : list PieceType) : list (Z * Piece) :=
  zip (seqZ (r * 8) 8) (map (fun t => mkPiece t c) ts).

Definition start : Board :=
  mkBoard
    (list_to_map (row 0 WHITE back_row ++ row 1 WHITE (replicate 8 PAWN)
                  ++ row 6 BLACK (replicate 8 PAWN) ++ row 7 BLACK back_row))
    WHITE None [0; 7; 56; 63].

End MiniChess.

(** ** Positions used in the examples *)

Module Examples.
Import MiniChess.

Definition position (l : list (Z * Piece)) (c : bool) : Board :=
  mkBoard (list_to_map l) c None [].

(** The start position with a roll of pawn, knight and rook. *)
Definition opening : DiceBoardV Board :=
  mkDiceBoardV start [] [] [PAWN; KNIGHT; ROOK].

(** The start position with two dice left. *)
Definition opening_2 : DiceBoardV Board :=
  mkDiceBoardV start [] [] [PAWN; KNIGHT].

(** The start position, but the black d-pawn has reached d4; white has
    rolled pawn, queen, queen. *)
Definition pawn_on_d4 : DiceBoardV Board :=
  mkDiceBoardV
    (mkBoard (<[27 := mkPiece PAWN BLACK]> (delete 51 (pieces start)))
       WHITE None [0; 7; 56; 63])
    [] [] [PAWN; QUEEN; QUEEN].

Definition e2e4 : Move := mkMove 12 28 None.
Definition d1e2 : Move := mkMove 3 12 None.
Definition e2e3 : Move := mkMove 12 20 None.

(** White pawn on d5, black pawn on e5 which has just advanced two
    squares: white holds the right on e6 (square 44). *)
Definition en_passant : DiceBoardV Board :=
  mkDiceBoardV
    (position [(4, mkPiece KING WHITE); (60, mkPiece KING BLACK);
               (35, mkPiece PAWN WHITE); (36, mkPiece PAWN BLACK)] WHITE)
    [44] [] [PAWN].

Definition d5e6 : Move := mkMove 35 44 None.

(** Black to move with pawn and king left to play.  White's pawn went
    e2-e4 past the black pawn on d4, so black holds the right on e3
    (square 20); the black king has since stepped onto e3. *)
Definition king_on_right : DiceBoardV Board :=
  mkDiceBoardV
    (position [(7, mkPiece KING WHITE); (20, mkPiece KING BLACK);
               (27, mkPiece PAWN BLACK); (28, mkPiece PAWN WHITE)] BLACK)
    [] [20] [PAWN; KING].

Definition d4e3 : Move := mkMove 27 20 None.

(** White king on e1 and rook on h1 with the castling right, a pawn on
    a2, and a roll of rook, rook, king. *)
Definition castling_roll : DiceBoardV Board :=
  mkDiceBoardV
    (mkBoard (list_to_map [(4, mkPiece KING WHITE); (7, mkPiece ROOK WHITE);
                           (8, mkPiece PAWN WHITE); (60, mkPiece KING BLACK)])
       WHITE None [7])
    [] [] [ROOK; ROOK; KING].

Definition e1g1 : Move := mkMove 4 6 None.
Definition g1f3 : Move := mkMove 6 21 None.

(** A move from the empty square e3 of the start position. *)
Definition e3e4 : Move := mkMove 20 28 None.

(** White king e1 and pawn e2, black king e8 and pawns d4 and f5; white
    has one pawn die left. *)
Definition before_e2e4 : DiceBoardV Board :=
  mkDiceBoardV
    (position [(4, mkPiece KING WHITE); (12, mkPiece PAWN WHITE);
               (60, mkPiece KING BLACK); (27, mkPiece PAWN BLACK);
               (37, mkPiece PAWN BLACK)] WHITE)
    [] [] [PAWN].

(** The same after e2-e4, the end of white's turn and a roll of three
    pawns: black holds the right on e3 (square 20). *)
Definition right_on_e3 : DiceBoardV Board :=
  mkDiceBoardV
    (position [(4, mkPiece KING WHITE); (28, mkPiece PAWN WHITE);
               (60, mkPiece KING BLACK); (27, mkPiece PAWN BLACK);
               (37, mkPiece PAWN BLACK)] BLACK)
    [] [20] [PAWN; PAWN; PAWN].

Definition f5e4 : Move := mkMove 37 28 None.
Definition e4e3 : Move := mkMove 28 20 None.

(** After f5xe4 two pawn dice are left, and the black pawn on e4 stands
    right behind black's own right on e3. *)
Definition behind_the_right : DiceBoardV Board :=
  mkDiceBoardV
    (position [(4, mkPiece KING WHITE); (60, mkPiece KING BLACK);
               (27, mkPiece PAWN BLACK); (28, mkPiece PAWN BLACK)] BLACK)
    [] [20] [PAWN; PAWN].

(** White to move in the middle of a turn.  Black's e-pawn went e7-e5
    past the white pawn on d5 in the turn before, so white holds the
    right on e6 (square 44); white's c-pawn has just gone c2-c4 past the
    black pawn on d4, so black holds the right on c3 (square 18). *)
Definition both_rights : DiceBoardV Board :=
  mkDiceBoardV
    (position [(4, mkPiece KING WHITE); (35, mkPiece PAWN WHITE);
               (26, mkPiece PAWN WHITE); (14, mkPiece PAWN WHITE);
               (60, mkPiece KING BLACK); (36, mkPiece PAWN BLACK);
               (27, mkPiece PAWN BLACK); (31, mkPiece PAWN BLACK)] WHITE)
    [44] [18] [PAWN; KNIGHT].

Definition g2g4 : Move := mkMove 14 30 None.

(** The start position before the roll, and with four dice. *)
Definition no_dice : DiceBoardV Board := mkDiceBoardV start [] [] [].

Definition four_dice : DiceBoardV Board :=
  mkDiceBoardV start [] [] [PAWN; KNIGHT; ROOK; KING].

End Examples.
(** ** The store-level methods compute the value-level ones *)

Section Refinement.
Context {B : Type} `{BoardEngine B}.

Implicit Types (h hb : store B) (v : DiceBoardV B) (ly : layout).

#[local] Arguments bind : simpl never.

Lemma bind_eq {S A C} (c : St S A) (k : A -> St S C) s a s' :
  c s = (inr a, s') -> bind c k s = k a s'.
Proof. unfold bind. intros ->. reflexivity. Qed.

Lemma bind_raise {S A C} (c : St S A) (k : A -> St S C) s e s' :
  c s = (inl e, s') -> bind c k s = (inl e, s').
Proof. unfold bind. intros ->. reflexivity. Qed.

Lemma bind_assoc {S A C D} (c : St S A) (k1 : A -> St S C)
  (k2 : C -> St S D) s :
  bind (bind c k1) k2 s = bind c (fun a => bind (k1 a) k2) s.
Proof. unfold bind. destruct (c s) as [[e|a] s']; reflexivity. Qed.

Lemma bind_ret {S A C} (a : A) (k : A -> St S C) s : bind (ret a) k s = k a s.
Proof. reflexivity. Qed.

Lemma view_repr h self v :
  view h self = Some v <-> exists ly, repr h self ly v.
Proof.
  unfold view. split.
  - destruct (h !! self) as [[b d r| | |]|] eqn:Es; try discriminate.
    destruct (h !! d) as [[|w k| |]|] eqn:Ed; try discriminate.
    destruct (h !! r) as [[| | |dice]|] eqn:Er; try discriminate.
    destruct (h !! w) as [[| |ws|]|] eqn:Ew; try discriminate.
    destruct (h !! k) as [[| |ks|]|] eqn:Ek; try discriminate.
    destruct (decide (w = k)); try discriminate.
    intros [= <-]. exists (mkLayout d w k r). split; simpl; assumption.
  - intros [ly [Hs Hd Hw Hk Hr Hne]].
    rewrite Hs, Hd, Hr, Hw, Hk. destruct (decide _); [contradiction|].
    destruct v; reflexivity.
Qed.

Lemma repr_mono h h' self ly v :
  h ⊆ h' -> repr h self ly v -> repr h' self ly v.
Proof.
  intros Hsub [Hs Hd Hw Hk Hr Hne].
  split; try assumption; eapply lookup_weaken; eassumption.
Qed.

(** *** Reads *)

Lemma load_board_repr h self ly v :
  repr h self ly v ->
  load_board self h = (inr (board v, l_dict ly, l_dice ly), h).
Proof. intros [Hs _ _ _ _ _]. unfold load_board. rewrite Hs. reflexivity. Qed.

Lemma get_board_repr h self ly v :
  repr h self ly v -> get_board self h = (inr (board v), h).
Proof.
  intros Hr. unfold get_board.
  rewrite (bind_eq _ _ _ _ _ (load_board_repr _ _ _ _ Hr)). reflexivity.
Qed.

Lemma get_turn_repr h self ly v :
  repr h self ly v -> get_turn self h = (inr (turn (board v)), h).
Proof.
  intros Hr. unfold get_turn.
  rewrite (bind_eq _ _ _ _ _ (get_board_repr _ _ _ _ Hr)). reflexivity.
Qed.

Lemma self_piece_at_repr h self ly v sq :
  repr h self ly v ->
  self_piece_at self sq h = (inr (piece_at (board v) sq), h).
Proof.
  intros Hr. unfold self_piece_at.
  rewrite (bind_eq _ _ _ _ _ (get_board_repr _ _ _ _ Hr)). reflexivity.
Qed.

Lemma self_is_castling_repr h self ly v m :
  repr h self ly v ->
  self_is_castling self m h = (inr (is_castling (board v) m), h).
Proof.
  intros Hr. unfold self_is_castling.
  rewrite (bind_eq _ _ _ _ _ (get_board_repr _ _ _ _ Hr)). reflexivity.
Qed.

Lemma ep_squares_ref_repr h self ly v (c : bool) :
  repr h self ly v ->
  ep_squares_ref self c h = (inr (if c then l_white ly else l_black ly), h).
Proof.
  intros Hr. unfold ep_squares_ref.
  rewrite (bind_eq _ _ _ _ _ (load_board_repr _ _ _ _ Hr)). simpl.
  unfold bind, load_dict. rewrite (repr_dict _ _ _ _ Hr). reflexivity.
Qed.

Lemma load_squares_repr h self ly v (c : bool) :
  repr h self ly v ->
  load_squares (if c then l_white ly else l_black ly) h
  = (inr (ep_squares v c), h).
Proof.
  intros Hr. unfold load_squares, ep_squares.
  destruct c; [rewrite (repr_white _ _ _ _ Hr) | rewrite (repr_black _ _ _ _ Hr)];
    reflexivity.
Qed.

Lemma get_ep_squares_repr h self ly v c :
  repr h self ly v ->
  get_ep_squares self c h = (inr (ep_squares v c), h).
Proof.
  intros Hr. unfold get_ep_squares.
  rewrite (bind_eq _ _ _ _ _ (ep_squares_ref_repr _ _ _ _ c Hr)).
  apply (load_squares_repr _ _ _ _ c Hr).
Qed.

Lemma get_dice_roll_repr h self ly v :
  repr h self ly v -> get_dice_roll self h = (inr (dice_roll v), h).
Proof.
  intros Hr. unfold get_dice_roll.
  rewrite (bind_eq _ _ _ _ _ (load_board_repr _ _ _ _ Hr)). simpl.
  unfold load_dice. rewrite (repr_dice _ _ _ _ Hr). reflexivity.
Qed.

Ltac ro Hr :=
  repeat first
    [ rewrite bind_assoc
    | rewrite bind_ret
    | rewrite (bind_eq _ _ _ _ _ (get_board_repr _ _ _ _ Hr))
    | rewrite (bind_eq _ _ _ _ _ (get_turn_repr _ _ _ _ Hr))
    | rewrite (bind_eq _ _ _ _ _ (self_piece_at_repr _ _ _ _ _ Hr))
    | rewrite (bind_eq _ _ _ _ _ (self_is_castling_repr _ _ _ _ _ Hr))
    | rewrite (bind_eq _ _ _ _ _ (get_ep_squares_repr _ _ _ _ _ Hr))
    | rewrite (bind_eq _ _ _ _ _ (get_dice_roll_repr _ _ _ _ Hr)) ];
  cbv beta.

Lemma for_each_ro {S A T} (body : A -> T -> St S T) (g : T -> A -> T) s l :
  (forall x t, body x t s = (inr (g t x), s)) ->
  forall t, for_each l body t s = (inr (fold_left g l t), s).
Proof.
  intros Hb. induction l as [|x l IH]; intros t; simpl.
  - reflexivity.
  - rewrite (bind_eq _ _ _ _ _ (Hb x t)). apply IH.
Qed.

Lemma fold_left_filter_app {A} (f : A -> bool) l acc :
  fold_left (fun acc x => if f x then acc ++ [x] else acc) l acc
  = acc ++ List.filter f l.
Proof.
  revert acc. induction l as [|x l IH]; intros acc; simpl.
  - rewrite app_nil_r. reflexivity.
  - rewrite IH. destruct (f x); [rewrite <- app_assoc|]; reflexivity.
Qed.

Lemma fold_left_filter_map {A C} (f : A -> bool) (g : A -> C) l acc :
  fold_left (fun acc x => if f x then acc ++ [g x] else acc) l acc
  = acc ++ (g <$> List.filter f l).
Proof.
  revert acc. induction l as [|x l IH]; intros acc; simpl.
  - rewrite app_nil_r. reflexivity.
  - rewrite IH. destruct (f x); [rewrite <- app_assoc|]; reflexivity.
Qed.

Lemma pseudo_legal_moves_dice_repr h self ly v :
  repr h self ly v ->
  pseudo_legal_moves_dice self h = (inr (pseudo_legal_moves_dice_v v), h).
Proof.
  intros Hr. unfold pseudo_legal_moves_dice, pseudo_legal_moves_dice_v.
  ro Hr. apply for_each_ro. intros ep_sq moves.
  unfold custom_ep_moves. apply for_each_ro. intros df moves'.
  destruct (_ && _); [|reflexivity].
  ro Hr. destruct (is_piece PAWN (turn (board v)) _); [|reflexivity].
  ro Hr. destruct (is_piece PAWN (negb (turn (board v))) _); reflexivity.
Qed.

Lemma dice_allow_repr h self ly v m :
  repr h self ly v -> dice_allow self m h = (inr (dice_allow_v v m), h).
Proof.
  intros Hr. unfold dice_allow, dice_allow_v. ro Hr.
  destruct (is_castling (board v) m); simpl.
  - ro Hr. destruct (bool_decide (KING ∈ dice_roll v)); [|reflexivity].
    ro Hr. reflexivity.
  - ro Hr. destruct (piece_at (board v) (from_square m)) as [p|].
    + ro Hr. destruct (bool_decide (piece_type p ∈ dice_roll v)); reflexivity.
    + ro Hr. reflexivity.
Qed.

Lemma _get_pseudo_moves_repr h self ly v :
  repr h self ly v ->
  _get_pseudo_moves self h = (inr (_get_pseudo_moves_v v), h).
Proof.
  intros Hr. unfold _get_pseudo_moves, _get_pseudo_moves_v.
  rewrite (bind_eq _ _ _ _ _ (pseudo_legal_moves_dice_repr _ _ _ _ Hr)).
  rewrite (for_each_ro _
             (fun acc x => if dice_allow_v v x then acc ++ [x] else acc)).
  - rewrite fold_left_filter_app. reflexivity.
  - intros x t. rewrite (bind_eq _ _ _ _ _ (dice_allow_repr _ _ _ _ x Hr)).
    reflexivity.
Qed.

Lemma is_game_over_repr h self ly v m :
  repr h self ly v -> is_game_over self m h = (inr (is_game_over_v v m), h).
Proof.
  intros Hr. unfold is_game_over, is_game_over_v. ro Hr.
  destruct (is_type KING _); reflexivity.
Qed.

Lemma has_adjacent_opponent_pawn_repr h self ly v to_file to_rank opp :
  repr h self ly v ->
  has_adjacent_opponent_pawn self to_file to_rank opp h
  = (inr (has_adjacent_opponent_pawn_v (board v) to_file to_rank opp), h).
Proof.
  intros Hr.
  unfold has_adjacent_opponent_pawn, has_adjacent_opponent_pawn_v. simpl.
  destruct ((0 <=? to_file - 1) && (to_file - 1 <=? 7)); simpl.
  - ro Hr. destruct (is_piece PAWN opp _); simpl; [reflexivity|].
    unfold bind at 1. simpl.
    destruct ((0 <=? to_file + 1) && (to_file + 1 <=? 7)); simpl.
    + ro Hr. destruct (is_piece PAWN opp _); reflexivity.
    + reflexivity.
  - unfold bind at 1. simpl.
    destruct ((0 <=? to_file + 1) && (to_file + 1 <=? 7)); simpl.
    + ro Hr. destruct (is_piece PAWN opp _); reflexivity.
    + reflexivity.
Qed.

Lemma select_moves_repr h self ly v pseudo_moves count_list max_count :
  repr h self ly v ->
  select_moves self pseudo_moves count_list max_count h
  = (inr (select_moves_v v pseudo_moves count_list max_count), h).
Proof.
  intros Hr. unfold select_moves, select_moves_v.
  rewrite (for_each_ro _
    (fun acc mc =>
       if (snd mc =? max_count)%nat || is_game_over_v v (fst mc)
       then acc ++ [fst mc] else acc)).
  - rewrite fold_left_filter_map. reflexivity.
  - intros x t. destruct (snd x =? max_count)%nat; simpl; [reflexivity|].
    ro Hr. reflexivity.
Qed.

(** *** Writes *)

Lemma owns_empty h self ly v : repr h self ly v -> owns ∅ h self ly v.
Proof.
  intros Hr. split; [apply map_empty_subseteq | assumption |].
  repeat split; apply lookup_empty.
Qed.

Lemma set_board_owns hb h self ly v b :
  owns hb h self ly v ->
  exists h', set_board self b h = (inr tt, h')
             /\ owns hb h' self ly (set_board_v b v).
Proof.
  intros [Hsub Hr (Hs & Hd & Hw & Hk & Hdi)].
  exists (<[self := OBoard b (l_dict ly) (l_dice ly)]> h). split.
  - unfold set_board.
    rewrite (bind_eq _ _ _ _ _ (load_board_repr _ _ _ _ Hr)). reflexivity.
  - destruct Hr as [Rs Rd Rw Rk Rdi Rne].
    split; [by apply insert_subseteq_r | | by repeat split].
    split; simpl; [by rewrite lookup_insert_eq | | | | | done];
      (rewrite lookup_insert_ne; [assumption | congruence]).
Qed.

Lemma store_squares_owns hb h self ly v (c : bool) xs :
  owns hb h self ly v ->
  owns hb (<[(if c then l_white ly else l_black ly) := OSquares xs]> h)
    self ly (set_ep_squares_v c xs v).
Proof.
  intros [Hsub [Rs Rd Rw Rk Rdi Rne] (Hs & Hd & Hw & Hk & Hdi)].
  split; [destruct c; by apply insert_subseteq_r | | by repeat split].
  destruct c; split; simpl;
    try (by rewrite lookup_insert_eq); try done;
    (rewrite lookup_insert_ne; [assumption | congruence]).
Qed.

Lemma ep_squares_remove_owns hb h self ly v c sq xs :
  owns hb h self ly v ->
  list_remove_first sq (ep_squares v c) = Some xs ->
  exists h', ep_squares_remove self c sq h = (inr tt, h')
             /\ owns hb h' self ly (set_ep_squares_v c xs v).
Proof.
  intros Ho Hx. pose proof (owns_repr _ _ _ _ _ Ho) as Hr.
  eexists. split; [|apply (store_squares_owns _ _ _ _ _ c xs Ho)].
  unfold ep_squares_remove.
  rewrite (bind_eq _ _ _ _ _ (ep_squares_ref_repr _ _ _ _ c Hr)).
  rewrite (bind_eq _ _ _ _ _ (load_squares_repr _ _ _ _ c Hr)).
  rewrite Hx. reflexivity.
Qed.

Lemma ep_squares_remove_absent h self ly v c sq :
  repr h self ly v ->
  list_remove_first sq (ep_squares v c) = None ->
  ep_squares_remove self c sq h = (inl ValueError, h).
Proof.
  intros Hr Hx. unfold ep_squares_remove.
  rewrite (bind_eq _ _ _ _ _ (ep_squares_ref_repr _ _ _ _ c Hr)).
  rewrite (bind_eq _ _ _ _ _ (load_squares_repr _ _ _ _ c Hr)).
  rewrite Hx. reflexivity.
Qed.

Lemma ep_squares_append_owns hb h self ly v c sq :
  owns hb h self ly v ->
  exists h', ep_squares_append self c sq h = (inr tt, h')
             /\ owns hb h' self ly
                  (set_ep_squares_v c (ep_squares v c ++ [sq]) v).
Proof.
  intros Ho. pose proof (owns_repr _ _ _ _ _ Ho) as Hr.
  eexists. split; [|apply (store_squares_owns _ _ _ _ _ c _ Ho)].
  unfold ep_squares_append.
  rewrite (bind_eq _ _ _ _ _ (ep_squares_ref_repr _ _ _ _ c Hr)).
  rewrite (bind_eq _ _ _ _ _ (load_squares_repr _ _ _ _ c Hr)).
  reflexivity.
Qed.

Lemma dice_roll_remove_owns hb h self ly v t xs :
  owns hb h self ly v ->
  list_remove_first t (dice_roll v) = Some xs ->
  exists h', dice_roll_remove self t h = (inr tt, h')
             /\ owns hb h' self ly (set_dice_roll_v xs v).
Proof.
  intros [Hsub Hr (Hs & Hd & Hw & Hk & Hdi)] Hx.
  exists (<[l_dice ly := ODice xs]> h). split.
  - unfold dice_roll_remove.
    rewrite (bind_eq _ _ _ _ _ (load_board_repr _ _ _ _ Hr)). simpl.
    unfold bind, load_dice. rewrite (repr_dice _ _ _ _ Hr), Hx. reflexivity.
  - destruct Hr as [Rs Rd Rw Rk Rdi Rne].
    split; [by apply insert_subseteq_r | | by repeat split].
    split; simpl; try (by rewrite lookup_insert_eq); try done;
      (rewrite lookup_insert_ne; [assumption | congruence]).
Qed.

Lemma dice_roll_remove_absent h self ly v t :
  repr h self ly v ->
  list_remove_first t (dice_roll v) = None ->
  dice_roll_remove self t h = (inl ValueError, h).
Proof.
  intros Hr Hx. unfold dice_roll_remove.
  rewrite (bind_eq _ _ _ _ _ (load_board_repr _ _ _ _ Hr)). simpl.
  unfold bind, load_dice. rewrite (repr_dice _ _ _ _ Hr), Hx. reflexivity.
Qed.

Lemma ep_squares_clear_owns hb h self ly v c :
  owns hb h self ly v ->
  exists h' ly', ep_squares_clear self c h = (inr tt, h')
                 /\ owns hb h' self ly' (set_ep_squares_v c [] v).
Proof.
  intros [Hsub Hr (Hs & Hd & Hw & Hk & Hdi)].
  set (l := fresh (dom h)).
  assert (Hl : h !! l = None) by (apply not_elem_of_dom, is_fresh).
  assert (Hbl : hb !! l = None).
  { destruct (hb !! l) eqn:E; [|done].
    eapply lookup_weaken in E; [|exact Hsub]. congruence. }
  destruct Hr as [Rs Rd Rw Rk Rdi Rne].
  exists (<[l_dict ly :=
            if c then ODict l (l_black ly) else ODict (l_white ly) l]>
            (<[l := OSquares []]> h)).
  exists (if c then mkLayout (l_dict ly) l (l_black ly) (l_dice ly)
          else mkLayout (l_dict ly) (l_white ly) l (l_dice ly)).
  split.
  - unfold ep_squares_clear, bind, load_board, load_dict, alloc, store_at.
    rewrite Rs. simpl. rewrite Rd. simpl. destruct c; reflexivity.
  - split.
    + apply insert_subseteq_r; [done|]. by apply insert_subseteq_r.
    + destruct c; split; simpl;
        try (by rewrite lookup_insert_eq);
        try (rewrite lookup_insert_ne by congruence;
             by rewrite lookup_insert_eq);
        try (rewrite !lookup_insert_ne by congruence; assumption);
        congruence.
    + destruct c; by repeat split.
Qed.

Lemma list_remove_first_elem {A} `{EqDecision A} (x : A) l :
  x ∈ l -> exists l', list_remove_first x l = Some l'.
Proof.
  induction l as [|y l IH]; intros Hin.
  - by apply elem_of_nil in Hin.
  - simpl. destruct (decide (x = y)); [eauto|].
    apply elem_of_cons in Hin as [?|Hin]; [done|].
    destruct (IH Hin) as [l' ->]. simpl. eauto.
Qed.

(** *** [push] *)

Lemma ep_squares_set_board_v b v c :
  ep_squares (set_board_v b v) c = ep_squares v c.
Proof. destruct c; reflexivity. Qed.

Lemma ep_test_repr h self ly v mv mc :
  repr h self ly v ->
  (if mc && is_type PAWN (piece_at (board v) (from_square mv)) then
     eps <- get_ep_squares self (turn (board v)) ;;
     if bool_decide (to_square mv ∈ eps) then
       target <- self_piece_at self (to_square mv) ;;
       ret (negb (truthy target))
     else ret false
   else ret false) h
  = (inr (is_ep_capture_v mv mc v), h).
Proof.
  intros Hr. unfold is_ep_capture_v.
  destruct (mc && is_type PAWN _); simpl; [|reflexivity].
  ro Hr. destruct (bool_decide _); simpl; [|reflexivity].
  ro Hr. reflexivity.
Qed.

Lemma push_capture_sim hb h self ly v mv mc :
  owns hb h self ly v ->
  sim_at hb self ly
    (push_capture self mv mc (turn (board v))
       (is_type PAWN (piece_at (board v) (from_square mv))))
    (push_capture_v mv mc) h v.
Proof.
  intros Ho. pose proof (owns_repr _ _ _ _ _ Ho) as Hr.
  unfold sim_at, push_capture, push_capture_v.
  destruct (is_ep_capture_v mv mc v) eqn:Eep.
  - assert (Hin : to_square mv ∈ ep_squares v (turn (board v))).
    { unfold is_ep_capture_v in Eep.
      apply andb_prop in Eep as [Eep _]. apply andb_prop in Eep as [_ Eep].
      by apply bool_decide_eq_true in Eep. }
    destruct (list_remove_first_elem _ _ Hin) as [xs Hxs]. rewrite Hxs.
    destruct (set_board_owns _ _ _ _ _
                (remove_piece_at (ep_capture_square (turn (board v)) mv)
                   (board v)) Ho) as (h1 & E1 & Ho1).
    destruct (ep_squares_remove_owns _ _ _ _ _ (turn (board v))
                (to_square mv) xs Ho1) as (h2 & E2 & Ho2).
    { by rewrite ep_squares_set_board_v. }
    exists h2. split; [|split].
    + rewrite (bind_eq _ _ _ _ _ (ep_test_repr _ _ _ _ _ _ Hr)). rewrite Eep.
      ro Hr. unfold ep_capture_square in E1.
      rewrite (bind_eq _ _ _ _ _ E1). exact E2.
    + apply Ho2.
    + intros v' [= <-]. exact Ho2.
  - exists h. split; [|split].
    + rewrite (bind_eq _ _ _ _ _ (ep_test_repr _ _ _ _ _ _ Hr)). rewrite Eep.
      reflexivity.
    + apply Ho.
    + intros v' [= <-]. exact Ho.
Qed.

Lemma push_base_sim hb h self ly v mv c :
  owns hb h self ly v ->
  sim_at hb self ly (push_base self mv c) (push_base_v mv c) h v.
Proof.
  intros Ho.
  destruct (set_board_owns _ _ _ _ _ (base_push mv (board v)) Ho)
    as (h1 & E1 & Ho1).
  destruct (set_board_owns _ _ _ _ _ (set_turn c (base_push mv (board v))) Ho1)
    as (h2 & E2 & Ho2).
  destruct (set_board_owns _ _ _ _ _
              (set_ep_square None (set_turn c (base_push mv (board v)))) Ho2)
    as (h3 & E3 & Ho3).
  unfold sim_at, push_base, push_base_v.
  ro (owns_repr _ _ _ _ _ Ho). rewrite (bind_eq _ _ _ _ _ E1).
  destruct (engine_asserts (board v) mv).
  - exists h1. split; [reflexivity|]. split; [apply Ho1|]. discriminate.
  - exists h3. split; [|split].
    + ro (owns_repr _ _ _ _ _ Ho1). rewrite (bind_eq _ _ _ _ _ E2).
      ro (owns_repr _ _ _ _ _ Ho2). exact E3.
    + apply Ho3.
    + intros v' [= <-]. exact Ho3.
Qed.

Lemma try_except_ValueError_ok {S} (c : St S unit) s s' :
  c s = (inr tt, s') -> try_except_ValueError c s = (inr tt, s').
Proof. unfold try_except_ValueError. intros ->. reflexivity. Qed.

Lemma try_except_ValueError_caught {S} (c : St S unit) s s' :
  c s = (inl ValueError, s') -> try_except_ValueError c s = (inr tt, s').
Proof. unfold try_except_ValueError. intros ->. reflexivity. Qed.

Lemma push_dice_sim hb h self ly v piece castling :
  owns hb h self ly v ->
  sim_at hb self ly (push_dice self piece castling)
    (push_dice_v piece castling) h v.
Proof.
  intros Ho. pose proof (owns_repr _ _ _ _ _ Ho) as Hr.
  unfold sim_at, push_dice, push_dice_v.
  destruct piece as [p|].
  - destruct (list_remove_first (piece_type p) (dice_roll v)) as [d1|] eqn:E1.
    + destruct (dice_roll_remove_owns _ _ _ _ _ _ _ Ho E1) as (h1 & R1 & Ho1).
      destruct castling.
      * destruct (list_remove_first ROOK d1) as [d2|] eqn:E2.
        -- destruct (dice_roll_remove_owns _ _ _ _ _ ROOK d2 Ho1)
             as (h2 & R2 & Ho2); [exact E2|].
           exists h2. split; [|split].
           ++ apply try_except_ValueError_ok. rewrite bind_ret.
              rewrite (bind_eq _ _ _ _ _ R1). exact R2.
           ++ apply Ho2.
           ++ intros v' [= <-]. exact Ho2.
        -- exists h1. split; [|split].
           ++ apply try_except_ValueError_caught. rewrite bind_ret.
              rewrite (bind_eq _ _ _ _ _ R1).
              apply (dice_roll_remove_absent _ _ _ _ _
                       (owns_repr _ _ _ _ _ Ho1)). exact E2.
           ++ apply Ho1.
           ++ intros v' [= <-]. exact Ho1.
      * exists h1. split; [|split].
        -- apply try_except_ValueError_ok. rewrite bind_ret.
           rewrite (bind_eq _ _ _ _ _ R1). reflexivity.
        -- apply Ho1.
        -- intros v' [= <-]. exact Ho1.
    + exists h. split; [|split].
      * apply try_except_ValueError_caught. rewrite bind_ret.
        apply bind_raise. by apply (dice_roll_remove_absent _ _ _ _ _ Hr).
      * apply Ho.
      * intros v' [= <-]. exact Ho.
  - exists h. split; [|split].
    + reflexivity.
    + apply Ho.
    + discriminate.
Qed.

Lemma push_rights_sim hb h self ly v mv opp :
  owns hb h self ly v ->
  sim_at hb self ly (push_rights self mv opp)
    (fun v => inr (push_rights_v mv opp v)) h v.
Proof.
  intros Ho. pose proof (owns_repr _ _ _ _ _ Ho) as Hr.
  unfold sim_at, push_rights, push_rights_v, grants_right_v.
  destruct (_ =? 2); simpl.
  - destruct (has_adjacent_opponent_pawn_v _ _ _ _) eqn:Eadj; simpl.
    + destruct (bool_decide _) eqn:Ein; simpl.
      * exists h. split; [|split].
        -- rewrite (bind_eq _ _ _ _ _
                      (has_adjacent_opponent_pawn_repr _ _ _ _ _ _ _ Hr)).
           rewrite Eadj. ro Hr. rewrite Ein. reflexivity.
        -- apply Ho.
        -- intros v' [= <-]. exact Ho.
      * destruct (ep_squares_append_owns _ _ _ _ _ opp
                    ((from_square mv + to_square mv) `div` 2) Ho)
          as (h1 & E1 & Ho1).
        exists h1. split; [|split].
        -- rewrite (bind_eq _ _ _ _ _
                      (has_adjacent_opponent_pawn_repr _ _ _ _ _ _ _ Hr)).
           rewrite Eadj. ro Hr. rewrite Ein. exact E1.
        -- apply Ho1.
        -- intros v' [= <-]. exact Ho1.
    + exists h. split; [|split].
      * rewrite (bind_eq _ _ _ _ _
                   (has_adjacent_opponent_pawn_repr _ _ _ _ _ _ _ Hr)).
        rewrite Eadj. reflexivity.
      * apply Ho.
      * intros v' [= <-]. exact Ho.
  - exists h. split; [|split].
    + reflexivity.
    + apply Ho.
    + intros v' [= <-]. exact Ho.
Qed.

Lemma push_sim hb h self ly v mv mc :
  owns hb h self ly v ->
  sim_at hb self ly (push self mv mc) (push_v mv mc) h v.
Proof.
  intros Ho. pose proof (owns_repr _ _ _ _ _ Ho) as Hr.
  unfold sim_at, push. ro Hr.
  destruct (push_capture_sim _ _ _ _ _ mv mc Ho) as (h1 & E1 & S1 & O1).
  unfold push_v. destruct (push_capture_v mv mc v) as [e|v1] eqn:Ec.
  { exists h1. rewrite (bind_raise _ _ _ _ _ E1). by repeat split. }
  specialize (O1 v1 eq_refl). rewrite (bind_eq _ _ _ _ _ E1).
  destruct (push_base_sim _ _ _ _ _ mv (turn (board v)) O1)
    as (h2 & E2 & S2 & O2).
  destruct (push_base_v mv (turn (board v)) v1) as [e|v2] eqn:Eb.
  { exists h2. rewrite (bind_raise _ _ _ _ _ E2). by repeat split. }
  specialize (O2 _ eq_refl). rewrite (bind_eq _ _ _ _ _ E2).
  set (piece := piece_at (board v) (from_square mv)) in *.
  destruct mc.
  - destruct (push_dice_sim _ _ _ _ _ piece (is_castling (board v) mv) O2)
      as (h3 & E3 & S3 & O3).
    destruct (push_dice_v piece (is_castling (board v) mv) v2) as [e|v3].
    { exists h3. rewrite (bind_raise _ _ _ _ _ E3). by repeat split. }
    specialize (O3 _ eq_refl). rewrite (bind_eq _ _ _ _ _ E3).
    destruct (is_type PAWN piece); simpl.
    + destruct (push_rights_sim _ _ _ _ _ mv (negb (turn (board v))) O3)
        as (h4 & E4 & S4 & O4).
      exists h4. split; [exact E4|]. split; [exact S4|].
      intros v' [= <-]. by apply O4.
    + exists h3. split; [reflexivity|]. split; [exact S3|].
      intros v' [= <-]. exact O3.
  - rewrite bind_ret. rewrite andb_false_r.
    exists h2. split; [reflexivity|]. split; [exact S2|].
    intros v' [= <-]. exact O2.
Qed.

(** *** [next_player] *)

Lemma next_player_sim hb h self ly v :
  owns hb h self ly v ->
  exists h' ly', next_player self h = (inr tt, h')
                 /\ owns hb h' self ly' (next_player_v v).
Proof.
  intros Ho. pose proof (owns_repr _ _ _ _ _ Ho) as Hr.
  destruct (ep_squares_clear_owns _ _ _ _ _ (turn (board v)) Ho)
    as (h1 & ly1 & E1 & O1).
  destruct (set_board_owns _ _ _ _ _ (set_turn (negb (turn (board v)))
              (board (set_ep_squares_v (turn (board v)) [] v))) O1)
    as (h2 & E2 & O2).
  exists h2, ly1. split; [|exact O2].
  unfold next_player. ro Hr. rewrite (bind_eq _ _ _ _ _ E1).
  ro (owns_repr _ _ _ _ _ O1). exact E2.
Qed.

(** *** [copy] *)

Lemma alloc_fresh (o : obj B) h :
  exists l, alloc o h = (inr l, <[l := o]> h) /\ h !! l = None.
Proof.
  exists (fresh (dom h)). split; [reflexivity|].
  apply not_elem_of_dom, is_fresh.
Qed.

Lemma load_board_eq h l b d r :
  h !! l = Some (OBoard b d r) -> load_board l h = (inr (b, d, r), h).
Proof. unfold load_board. intros ->. reflexivity. Qed.

Lemma load_dict_eq h l w k :
  h !! l = Some (ODict w k) -> load_dict l h = (inr (w, k), h).
Proof. unfold load_dict. intros ->. reflexivity. Qed.

Lemma load_squares_eq h l xs :
  h !! l = Some (OSquares xs) -> load_squares l h = (inr xs, h).
Proof. unfold load_squares. intros ->. reflexivity. Qed.

Lemma load_dice_eq h l xs :
  h !! l = Some (ODice xs) -> load_dice l h = (inr xs, h).
Proof. unfold load_dice. intros ->. reflexivity. Qed.

Ltac alloc_step l Hf :=
  repeat rewrite bind_assoc;
  match goal with
  | |- context [bind (alloc ?o) _ ?h] =>
      let E := fresh "E" in
      destruct (alloc_fresh o h) as (l & E & Hf);
      rewrite (bind_eq _ _ _ _ _ E); clear E; cbv beta;
      repeat (let N := fresh "N" in
              apply lookup_insert_None in Hf as [Hf N])
  end.

Ltac ne :=
  first
    [ congruence
    | let E := fresh in intros E; rewrite E in *; congruence
    | let E := fresh in intros E; rewrite <- E in *; congruence ].

Ltac lk :=
  repeat (rewrite lookup_insert_ne by ne);
  first [ apply lookup_insert_eq | eassumption ].

Ltac load_step :=
  repeat rewrite bind_assoc;
  match goal with
  | |- context [bind (load_board ?l) _ ?h] =>
      let X := fresh in
      eassert (X : h !! l = Some (OBoard _ _ _)) by lk;
      rewrite (bind_eq _ _ _ _ _ (load_board_eq _ _ _ _ _ X)); clear X
  | |- context [bind (load_dict ?l) _ ?h] =>
      let X := fresh in
      eassert (X : h !! l = Some (ODict _ _)) by lk;
      rewrite (bind_eq _ _ _ _ _ (load_dict_eq _ _ _ _ X)); clear X
  | |- context [bind (load_squares ?l) _ ?h] =>
      let X := fresh in
      eassert (X : h !! l = Some (OSquares _)) by lk;
      rewrite (bind_eq _ _ _ _ _ (load_squares_eq _ _ _ X)); clear X
  | |- context [bind (load_dice ?l) _ ?h] =>
      let X := fresh in
      eassert (X : h !! l = Some (ODice _)) by lk;
      rewrite (bind_eq _ _ _ _ _ (load_dice_eq _ _ _ X)); clear X
  end;
  cbv beta; simpl fst; simpl snd.

Ltac store_step :=
  repeat rewrite bind_assoc;
  match goal with
  | |- context [bind (store_at ?l ?o) _ ?h] =>
      rewrite (bind_eq (store_at l o) _ h tt (<[l := o]> h) eq_refl)
  end;
  cbv beta.

Lemma copy_owns h self ly v :
  repr h self ly v ->
  exists h' p ly', copy self h = (inr p, h') /\ owns h h' p ly' v.
Proof.
  intros Hr. pose proof Hr as [Rs Rd Rw Rk Rdi Rne].
  unfold copy, new_board, deepcopy_dict.
  load_step.
  alloc_step l1 F1. alloc_step l2 F2. alloc_step l3 F3. alloc_step l4 F4.
  alloc_step l5 F5. load_step. load_step.
  alloc_step l6 F6.
  destruct (decide (l_black ly = l_white ly)) as [|_]; [congruence|].
  load_step.
  alloc_step l7 F7. alloc_step l8 F8.
  load_step. store_step. load_step. alloc_step l10 F10.
  load_step. store_step.
  eexists. exists l5, (mkLayout l8 l6 l7 l10).
  split; [reflexivity|]. split.
  - repeat (apply insert_subseteq_r; [assumption|]). reflexivity.
  - destruct v as [b ws ks dice]. split; simpl in *; lk.
  - by repeat split.
Qed.

(** *** Move selection *)

(** One simulated move: [copy], [push] on the copy, and the candidates
    of the copy.  The store only grows. *)
Lemma simulate_sim h self ly v mv :
  repr h self ly v ->
  exists h1 p ly1,
    copy self h = (inr p, h1) /\
    exists h2,
      push p mv true h1 = (outcome (push_v mv true v), h2) /\ h ⊆ h2 /\
      forall v1, push_v mv true v = inr v1 ->
        owns h h2 p ly1 v1 /\
        _get_pseudo_moves p h2 = (inr (_get_pseudo_moves_v v1), h2).
Proof.
  intros Hr. destruct (copy_owns _ _ _ _ Hr) as (h1 & p & ly1 & Ec & Ho).
  exists h1, p, ly1. split; [exact Ec|].
  destruct (push_sim _ _ _ _ _ mv true Ho) as (h2 & Ep & Hsub & Ho2).
  exists h2. split; [exact Ep|]. split; [exact Hsub|].
  intros v1 Hv1. split; [by apply Ho2|].
  eapply _get_pseudo_moves_repr, owns_repr, Ho2, Hv1.
Qed.

Lemma grow_trans h h2 (P : store B -> Prop) :
  h ⊆ h2 -> (exists h', h2 ⊆ h' /\ P h') -> exists h', h ⊆ h' /\ P h'.
Proof.
  intros Hsub (h' & Hsub' & HP). exists h'. split; [by transitivity h2 | exact HP].
Qed.

Lemma counts_2_sim self ly v ims :
  forall st h, repr h self ly v ->
    exists h', h ⊆ h'
      /\ for_each ims (count_step_2 self) st h = (counts_2_v v ims st, h').
Proof.
  induction ims as [|im ims IH]; intros st h Hr.
  - exists h. split; reflexivity.
  - simpl. unfold count_step_2 at 1. ro Hr.
    destruct (is_castling (board v) im.2); cbv iota.
    + rewrite bind_ret. apply IH, Hr.
    + destruct (simulate_sim _ _ _ _ im.2 Hr)
        as (h1 & p & ly1 & Ec & h2 & Ep & Hsub & Hv1).
      repeat rewrite bind_assoc.
      rewrite (bind_eq _ _ _ _ _ Ec). unfold continuations_v.
      repeat rewrite bind_assoc.
      destruct (push_v im.2 true v) as [e|v1].
      * exists h2. split; [exact Hsub|].
        rewrite (bind_raise _ _ _ _ _ Ep). reflexivity.
      * destruct (Hv1 v1 eq_refl) as [Ho Eg].
        rewrite (bind_eq _ _ _ _ _ Ep). repeat rewrite bind_assoc.
        rewrite (bind_eq _ _ _ _ _ Eg).
        assert (Hr2 : repr h2 self ly v) by (eapply repr_mono; eassumption).
        destruct (0 <? length (_get_pseudo_moves_v v1))%nat; cbv iota;
          rewrite bind_ret;
          (eapply grow_trans; [exact Hsub | apply IH, Hr2]).
Qed.

Lemma second_step_sim p ly v1 i pms :
  forall st h, repr h p ly v1 ->
    exists h', h ⊆ h'
      /\ second_step p i pms st h
         = (match second_step_v v1 pms with
            | inl e => inl e
            | inr true => inr (<[i := 3%nat]> (fst st), 3%nat)
            | inr false => inr st
            end, h').
Proof.
  unfold second_step.
  induction pms as [|m pms IH]; intros st h Hr.
  - exists h. split; reflexivity.
  - simpl. unfold second_step_body at 1. ro Hr.
    destruct (is_castling (board v1) m); cbv iota.
    + rewrite bind_ret. simpl. exists h. split; reflexivity.
    + destruct (simulate_sim _ _ _ _ m Hr)
        as (h1 & p2 & ly2 & Ec & h2 & Ep & Hsub & Hv2).
      repeat rewrite bind_assoc.
      rewrite (bind_eq _ _ _ _ _ Ec). unfold continuations_v.
      repeat rewrite bind_assoc.
      destruct (push_v m true v1) as [e|v2].
      * exists h2. split; [exact Hsub|].
        rewrite (bind_raise _ _ _ _ _ Ep). reflexivity.
      * destruct (Hv2 v2 eq_refl) as [Ho Eg].
        rewrite (bind_eq _ _ _ _ _ Ep). repeat rewrite bind_assoc.
        rewrite (bind_eq _ _ _ _ _ Eg).
        destruct (0 <? length (_get_pseudo_moves_v v2))%nat; cbv iota;
          rewrite bind_ret; simpl.
        -- exists h2. split; [exact Hsub | reflexivity].
        -- assert (Hr2 : repr h2 p ly v1) by (eapply repr_mono; eassumption).
           destruct (IH st _ Hr2) as (h' & Hsub' & E').
           exists h'. split; [by transitivity h2 | exact E'].
Qed.

Lemma counts_3_sim self ly v ims :
  forall st h, repr h self ly v ->
    exists h', h ⊆ h'
      /\ for_each ims (count_step_3 self) st h = (counts_3_v v ims st, h').
Proof.
  induction ims as [|im ims IH]; intros st h Hr.
  - exists h. split; reflexivity.
  - simpl. unfold count_step_3 at 1. repeat rewrite bind_assoc.
    destruct (simulate_sim _ _ _ _ im.2 Hr)
      as (h1 & p & ly1 & Ec & h2 & Ep & Hsub & Hv1).
    rewrite (bind_eq _ _ _ _ _ Ec). repeat rewrite bind_assoc.
    destruct (push_v im.2 true v) as [e|v1].
    { exists h2. split; [exact Hsub|].
      rewrite (bind_raise _ _ _ _ _ Ep). reflexivity. }
    destruct (Hv1 v1 eq_refl) as [Ho Eg].
    rewrite (bind_eq _ _ _ _ _ Ep). repeat rewrite bind_assoc.
    rewrite (bind_eq _ _ _ _ _ Eg).
    assert (Hr2 : repr h2 self ly v) by (eapply repr_mono; eassumption).
    ro Hr2.
    destruct (is_castling (board v) im.2); cbv iota.
    + destruct (0 <? length (_get_pseudo_moves_v v1))%nat; cbv iota;
        rewrite bind_ret;
        (eapply grow_trans; [exact Hsub | apply IH, Hr2]).
    + destruct (0 <? length (_get_pseudo_moves_v v1))%nat; cbv iota.
      * destruct (second_step_sim _ _ _ im.1 (_get_pseudo_moves_v v1)
                    (<[im.1 := 2%nat]> st.1,
                     if (st.2 <? 2)%nat then 2%nat else st.2)
                    _ (owns_repr _ _ _ _ _ Ho))
          as (h3 & Hsub3 & E3).
        assert (Hr3 : repr h3 self ly v) by (eapply repr_mono; eassumption).
        destruct (second_step_v v1 (_get_pseudo_moves_v v1)) as [e|[|]].
        -- exists h3. split; [by transitivity h2|].
           rewrite (bind_raise _ _ _ _ _ E3). reflexivity.
        -- rewrite (bind_eq _ _ _ _ _ E3).
           destruct (IH (<[im.1 := 3%nat]> (<[im.1 := 2%nat]> st.1), 3%nat)
                       _ Hr3) as (h' & Hsub' & E').
           exists h'. split; [|exact E'].
           transitivity h2; [done|]. by transitivity h3.
        -- rewrite (bind_eq _ _ _ _ _ E3).
           destruct (IH (<[im.1 := 2%nat]> st.1,
                         if (st.2 <? 2)%nat then 2%nat else st.2)
                       _ Hr3) as (h' & Hsub' & E').
           exists h'. split; [|exact E'].
           transitivity h2; [done|]. by transitivity h3.
      * rewrite bind_ret.
        eapply grow_trans; [exact Hsub | apply IH, Hr2].
Qed.

Lemma _get_moves_2_sim h self ly v :
  repr h self ly v ->
  exists h', h ⊆ h' /\ _get_moves_2 self h = (_get_moves_2_v v, h').
Proof.
  intros Hr. unfold _get_moves_2, _get_moves_2_v.
  rewrite (bind_eq _ _ _ _ _ (_get_pseudo_moves_repr _ _ _ _ Hr)).
  destruct (counts_2_sim self ly v (enumerate (_get_pseudo_moves_v v))
              (replicate (length (_get_pseudo_moves_v v)) 1%nat, 1%nat) _ Hr)
    as (h' & Hsub & E).
  exists h'. split; [exact Hsub|].
  destruct (counts_2_v _ _ _) as [e|st].
  - rewrite (bind_raise _ _ _ _ _ E). reflexivity.
  - rewrite (bind_eq _ _ _ _ _ E).
    eapply select_moves_repr, repr_mono; eassumption.
Qed.

Lemma _get_moves_3_sim h self ly v :
  repr h self ly v ->
  exists h', h ⊆ h' /\ _get_moves_3 self h = (_get_moves_3_v v, h').
Proof.
  intros Hr. unfold _get_moves_3, _get_moves_3_v.
  rewrite (bind_eq _ _ _ _ _ (_get_pseudo_moves_repr _ _ _ _ Hr)).
  destruct (counts_3_sim self ly v (enumerate (_get_pseudo_moves_v v))
              (replicate (length (_get_pseudo_moves_v v)) 1%nat, 1%nat) _ Hr)
    as (h' & Hsub & E).
  exists h'. split; [exact Hsub|].
  destruct (counts_3_v _ _ _) as [e|st].
  - rewrite (bind_raise _ _ _ _ _ E). reflexivity.
  - rewrite (bind_eq _ _ _ _ _ E).
    eapply select_moves_repr, repr_mono; eassumption.
Qed.

Lemma get_moves_sim h self ly v :
  repr h self ly v ->
  exists h', h ⊆ h' /\ get_moves self h = (get_moves_v v, h').
Proof.
  intros Hr. unfold get_moves, get_moves_v. ro Hr.
  destruct (length (dice_roll v)) as [|[|[|[|n]]]].
  - exists h. split; reflexivity.
  - exists h. split; [reflexivity|]. by eapply _get_pseudo_moves_repr.
  - by eapply _get_moves_2_sim.
  - by eapply _get_moves_3_sim.
  - exists h. split; reflexivity.
Qed.

End Refinement.

(** ** The small engine satisfies the laws *)

#[global] Instance MiniChess_laws : BoardEngineLaws MiniChess.Board.
Proof.
  split; try reflexivity.
  - intros sq b sq'. simpl. unfold MiniChess.m_piece_at. simpl.
    destruct (decide (sq' = sq)) as [->|Hne].
    + apply lookup_delete_eq.
    + by apply lookup_delete_ne.
  - intros b m. simpl. unfold MiniChess.m_is_castling, MiniChess.m_piece_at.
    destruct (MiniChess.pieces b !! from_square m) as [[[] c]|];
      try discriminate.
    intros _. by exists c.
Qed.

Lemma view_mk_store {B : Type} (v : DiceBoardV B) : view (mk_store v) 0%nat = Some v.
Proof. destruct v. reflexivity. Qed.

(** ** Facts on the value-level methods *)

Section ValueFacts.
Context {B : Type} `{BoardEngine B}.

Implicit Types (h hb : store B) (v : DiceBoardV B) (ly : layout).

#[local] Arguments bind : simpl never.

Lemma push_capture_v_ok v mv mc :
  exists v1, push_capture_v mv mc v = inr v1.
Proof.
  unfold push_capture_v.
  destruct (is_ep_capture_v mv mc v) eqn:Eep; [|eauto].
  unfold is_ep_capture_v in Eep.
  apply andb_prop in Eep as [Eep _]. apply andb_prop in Eep as [_ Eep].
  apply bool_decide_eq_true in Eep.
  destruct (list_remove_first_elem _ _ Eep) as [xs ->]. eauto.
Qed.

Lemma push_dice_v_ok (p : Piece) castling v :
  exists v1, push_dice_v (Some p) castling v = inr v1.
Proof.
  unfold push_dice_v.
  destruct (list_remove_first (piece_type p) (dice_roll v)); [|eauto].
  destruct castling; [|eauto].
  destruct (list_remove_first ROOK l); eauto.
Qed.

Lemma dice_allow_v_piece v m :
  dice_allow_v v m = true ->
  is_castling (board v) m = true \/ piece_at (board v) (from_square m) <> None.
Proof.
  unfold dice_allow_v. destruct (is_castling (board v) m); [by left|].
  simpl. destruct (piece_at _ _); [by right | discriminate].
Qed.

Lemma _get_pseudo_moves_v_allow v m :
  m ∈ _get_pseudo_moves_v v -> dice_allow_v v m = true.
Proof.
  unfold _get_pseudo_moves_v. rewrite list_elem_of_In, filter_In. tauto.
Qed.

(** *** The store-level depth is the value-level depth *)

Lemma simulate_repr h self ly v mv :
  repr h self ly v ->
  exists h2, h ⊆ h2 /\
    match push_v mv true v with
    | inl e => simulate self mv h = (inl e, h2)
    | inr v1 =>
        exists p ly1, simulate self mv h
                      = (inr (p, _get_pseudo_moves_v v1), h2)
                      /\ owns h h2 p ly1 v1
    end.
Proof.
  intros Hr.
  destruct (simulate_sim _ _ _ _ mv Hr)
    as (h1 & p & ly1 & Ec & h2 & Ep & Hsub & Hv1).
  exists h2. split; [exact Hsub|]. unfold simulate.
  rewrite (bind_eq _ _ _ _ _ Ec).
  destruct (push_v mv true v) as [e|v1].
  - apply (bind_raise _ _ _ _ _ Ep).
  - destruct (Hv1 v1 eq_refl) as [Ho Eg]. exists p, ly1. split; [|exact Ho].
    rewrite (bind_eq _ _ _ _ _ Ep). rewrite (bind_eq _ _ _ _ _ Eg).
    reflexivity.
Qed.

Lemma has_continuation_repr h self ly v mv :
  repr h self ly v -> has_continuation h self mv = has_continuation_v v mv.
Proof.
  intros Hr. unfold has_continuation, has_continuation_v, continuations_v.
  destruct (simulate_repr _ _ _ _ mv Hr) as (h2 & _ & Hs).
  destruct (push_v mv true v) as [e|v1].
  - rewrite Hs. reflexivity.
  - destruct Hs as (p & ly1 & -> & _). reflexivity.
Qed.

Lemma castling_at_repr h self ly v mv :
  repr h self ly v -> castling_at h self mv = is_castling (board v) mv.
Proof.
  intros Hr. unfold castling_at.
  by rewrite (self_is_castling_repr _ _ _ _ _ Hr).
Qed.

Lemma king_at_repr h self ly v sq :
  repr h self ly v -> king_at h self sq = is_type KING (piece_at (board v) sq).
Proof.
  intros Hr. unfold king_at. by rewrite (self_piece_at_repr _ _ _ _ _ Hr).
Qed.

Lemma depth_2_repr h self ly v mv :
  repr h self ly v -> depth_2 h self mv = depth_2_v v mv.
Proof.
  intros Hr. unfold depth_2, depth_2_v.
  by rewrite (castling_at_repr _ _ _ _ _ Hr),
             (has_continuation_repr _ _ _ _ _ Hr).
Qed.

Lemma continues_twice_repr h self ly v mv :
  repr h self ly v -> continues_twice h self mv = continues_twice_v v mv.
Proof.
  intros Hr. unfold continues_twice, continues_twice_v.
  destruct (simulate_repr _ _ _ _ mv Hr) as (h2 & _ & Hs).
  destruct (push_v mv true v) as [e|v1].
  - rewrite Hs. reflexivity.
  - destruct Hs as (p & ly1 & -> & Ho).
    pose proof (owns_repr _ _ _ _ _ Ho) as Hr1.
    induction (_get_pseudo_moves_v v1) as [|m1 l IH]; [reflexivity|].
    simpl. rewrite IH.
    by rewrite (castling_at_repr _ _ _ _ _ Hr1),
               (has_continuation_repr _ _ _ _ _ Hr1).
Qed.

Lemma depth_3_repr h self ly v mv :
  repr h self ly v -> depth_3 h self mv = depth_3_v v mv.
Proof.
  intros Hr. unfold depth_3, depth_3_v.
  by rewrite (castling_at_repr _ _ _ _ _ Hr),
             (has_continuation_repr _ _ _ _ _ Hr),
             (continues_twice_repr _ _ _ _ _ Hr).
Qed.

(** *** The counting loops *)

Lemma foldr_max_init a d ds :
  foldr Nat.max (Nat.max a d) ds = Nat.max d (foldr Nat.max a ds).
Proof. induction ds as [|x ds IH]; simpl; lia. Qed.

Lemma insert_at_length {A} (pre : list A) x y l :
  <[length pre := x]> (pre ++ y :: l) = pre ++ x :: l.
Proof. induction pre as [|z pre IH]; simpl; [reflexivity|]. by rewrite IH. Qed.

Lemma has_continuation_v_push v m v1 :
  push_v m true v = inr v1 ->
  has_continuation_v v m = (0 <? length (_get_pseudo_moves_v v1))%nat.
Proof.
  intros E. unfold has_continuation_v, continuations_v. rewrite E.
  by destruct (_get_pseudo_moves_v v1).
Qed.

Lemma counts_2_v_spec v ms :
  forall pre mx r, (1 <= mx <= 2)%nat ->
    counts_2_v v (zip (seq (length pre) (length ms)) ms)
      (pre ++ replicate (length ms) 1%nat, mx)
    = inr r ->
    r = (pre ++ map (depth_2_v v) ms,
         foldr Nat.max mx (map (depth_2_v v) ms)).
Proof.
  induction ms as [|m ms IH]; intros pre mx r Hmx.
  - simpl. by intros [= <-].
  - assert (Hstep : forall mx',
      (1 <= mx' <= 2)%nat ->
      counts_2_v v (zip (seq (S (length pre)) (length ms)) ms)
        (<[length pre := depth_2_v v m]>
           (pre ++ replicate (length (m :: ms)) 1%nat), mx')
      = inr r ->
      r = (pre ++ map (depth_2_v v) (m :: ms),
           foldr Nat.max mx' (map (depth_2_v v) ms))).
    { intros mx' Hmx'. simpl. rewrite insert_at_length. intros E.
      specialize (IH (pre ++ [depth_2_v v m]) mx' r Hmx').
      rewrite length_app, Nat.add_1_r, <- !app_assoc in IH. exact (IH E). }
    simpl zip. simpl counts_2_v.
    destruct (is_castling (board v) m) eqn:Ecast.
    + assert (Hd : depth_2_v v m = 2%nat)
        by (unfold depth_2_v; by rewrite Ecast).
      rewrite Hd in Hstep. intros E.
      rewrite (Hstep 2%nat ltac:(lia) E).
      simpl. rewrite Hd, <- foldr_max_init. repeat f_equal. lia.
    + unfold continuations_v.
      destruct (push_v m true v) as [e|v1] eqn:Ev1; [discriminate|].
      pose proof (has_continuation_v_push _ _ _ Ev1) as Hc.
      destruct (0 <? length (_get_pseudo_moves_v v1))%nat.
      * assert (Hd : depth_2_v v m = 2%nat)
          by (unfold depth_2_v; by rewrite Ecast, Hc).
        rewrite Hd in Hstep. intros E.
        rewrite (Hstep 2%nat ltac:(lia) E).
        simpl. rewrite Hd, <- foldr_max_init. repeat f_equal. lia.
      * assert (Hd : depth_2_v v m = 1%nat)
          by (unfold depth_2_v; by rewrite Ecast, Hc).
        rewrite Hd in Hstep. rewrite list_insert_id in Hstep.
        2:{ rewrite lookup_app_r by lia. by rewrite Nat.sub_diag. }
        intros E. rewrite (Hstep mx ltac:(lia) E).
        simpl. rewrite Hd, <- foldr_max_init. repeat f_equal. lia.
Qed.

Lemma select_moves_v_spec v (d : Move -> nat) l mx :
  select_moves_v v l (map d l) mx
  = List.filter (fun m => (d m =? mx)%nat || is_game_over_v v m) l.
Proof.
  unfold select_moves_v. induction l as [|m l IH]; [reflexivity|].
  simpl. destruct (_ || _); simpl; by f_equal.
Qed.

(** When the loop of [_get_moves_2] runs to its end, it has counted the
    depths, and the result is the filter on them. *)
Lemma _get_moves_2_v_spec v moves :
  _get_moves_2_v v = inr moves ->
  let cands := _get_pseudo_moves_v v in
  let maxd := max_depth (map (depth_2_v v) cands) in
  counts_2_v v (enumerate cands) (replicate (length cands) 1%nat, 1%nat)
  = inr (map (depth_2_v v) cands, maxd)
  /\ moves
     = List.filter
         (fun m => (depth_2_v v m =? maxd)%nat || is_game_over_v v m)
         cands.
Proof.
  intros Em cands maxd. unfold _get_moves_2_v in Em. fold cands in Em.
  destruct (counts_2_v v (enumerate cands)
              (replicate (length cands) 1%nat, 1%nat)) as [e|st] eqn:E;
    [discriminate|].
  injection Em as <-.
  rewrite (counts_2_v_spec v cands [] 1%nat st ltac:(lia) E). simpl.
  split; [reflexivity|]. by rewrite select_moves_v_spec.
Qed.

Lemma second_step_v_spec v1 pms b :
  second_step_v v1 pms = inr b ->
  b = existsb (fun m1 => is_castling (board v1) m1
                         || has_continuation_v v1 m1) pms.
Proof.
  induction pms as [|m pms IH]; [by intros [= <-]|].
  simpl. destruct (is_castling (board v1) m) eqn:Ecast; [by intros [= <-]|].
  unfold continuations_v.
  destruct (push_v m true v1) as [e|v2] eqn:Ev2; [discriminate|].
  rewrite (has_continuation_v_push _ _ _ Ev2).
  destruct (0 <? length (_get_pseudo_moves_v v2))%nat; [by intros [= <-]|].
  simpl. exact IH.
Qed.

Lemma counts_3_v_spec v ms :
  forall pre mx r, (1 <= mx <= 3)%nat ->
    counts_3_v v (zip (seq (length pre) (length ms)) ms)
      (pre ++ replicate (length ms) 1%nat, mx)
    = inr r ->
    r = (pre ++ map (depth_3_v v) ms,
         foldr Nat.max mx (map (depth_3_v v) ms)).
Proof.
  induction ms as [|m ms IH]; intros pre mx r Hmx.
  - simpl. by intros [= <-].
  - assert (Hstep : forall d mx',
      (1 <= mx' <= 3)%nat ->
      counts_3_v v (zip (seq (S (length pre)) (length ms)) ms)
        (<[length pre := d]>
           (pre ++ replicate (length (m :: ms)) 1%nat), mx')
      = inr r ->
      r = (pre ++ d :: map (depth_3_v v) ms,
           foldr Nat.max mx' (map (depth_3_v v) ms))).
    { intros d mx' Hmx'. simpl. rewrite insert_at_length. intros E.
      specialize (IH (pre ++ [d]) mx' r Hmx').
      rewrite length_app, Nat.add_1_r, <- !app_assoc in IH. exact (IH E). }
    assert (Hmax2 : (if (mx <? 2)%nat then 2%nat else mx) = Nat.max mx 2).
    { destruct (Nat.ltb_spec mx 2); lia. }
    simpl zip. simpl counts_3_v.
    destruct (push_v m true v) as [e|v1] eqn:Ev1; [discriminate|].
    pose proof (has_continuation_v_push _ _ _ Ev1) as Hc.
    rewrite list_insert_insert_eq, Hmax2.
    destruct (is_castling (board v) m) eqn:Ecast.
    + destruct (0 <? length (_get_pseudo_moves_v v1))%nat.
      * assert (Hd : depth_3_v v m = 3%nat)
          by (unfold depth_3_v; by rewrite Ecast, Hc).
        intros E. rewrite (Hstep 3%nat 3%nat ltac:(lia) E).
        simpl. rewrite Hd, <- foldr_max_init. repeat f_equal. lia.
      * assert (Hd : depth_3_v v m = 2%nat)
          by (unfold depth_3_v; by rewrite Ecast, Hc).
        intros E. rewrite (Hstep 2%nat (Nat.max mx 2) ltac:(lia) E).
        simpl. rewrite Hd, <- foldr_max_init. reflexivity.
    + destruct (0 <? length (_get_pseudo_moves_v v1))%nat.
      * destruct (second_step_v v1 (_get_pseudo_moves_v v1)) as [e|b] eqn:Es;
          [discriminate|].
        apply second_step_v_spec in Es.
        assert (Ht : continues_twice_v v m
                     = existsb (fun m1 => is_castling (board v1) m1
                                          || has_continuation_v v1 m1)
                         (_get_pseudo_moves_v v1))
          by (unfold continues_twice_v; by rewrite Ev1).
        rewrite <- Ht in Es. subst b.
        destruct (continues_twice_v v m) eqn:Et.
        -- assert (Hd : depth_3_v v m = 3%nat)
             by (unfold depth_3_v; by rewrite Ecast, Hc, Et).
           intros E. rewrite (Hstep 3%nat 3%nat ltac:(lia) E).
           simpl. rewrite Hd, <- foldr_max_init. repeat f_equal. lia.
        -- assert (Hd : depth_3_v v m = 2%nat)
             by (unfold depth_3_v; by rewrite Ecast, Hc, Et).
           intros E. rewrite (Hstep 2%nat (Nat.max mx 2) ltac:(lia) E).
           simpl. rewrite Hd, <- foldr_max_init. reflexivity.
      * assert (Hd : depth_3_v v m = 1%nat)
          by (unfold depth_3_v; by rewrite Ecast, Hc).
        specialize (Hstep 1%nat mx ltac:(lia)).
        rewrite list_insert_id in Hstep.
        2:{ rewrite lookup_app_r by lia. by rewrite Nat.sub_diag. }
        intros E. rewrite (Hstep E).
        simpl. rewrite Hd, <- foldr_max_init. repeat f_equal. lia.
Qed.

Lemma _get_moves_3_v_spec v moves :
  _get_moves_3_v v = inr moves ->
  let cands := _get_pseudo_moves_v v in
  let maxd := max_depth (map (depth_3_v v) cands) in
  counts_3_v v (enumerate cands) (replicate (length cands) 1%nat, 1%nat)
  = inr (map (depth_3_v v) cands, maxd)
  /\ moves
     = List.filter
         (fun m => (depth_3_v v m =? maxd)%nat || is_game_over_v v m)
         cands.
Proof.
  intros Em cands maxd. unfold _get_moves_3_v in Em. fold cands in Em.
  destruct (counts_3_v v (enumerate cands)
              (replicate (length cands) 1%nat, 1%nat)) as [e|st] eqn:E;
    [discriminate|].
  injection Em as <-.
  rewrite (counts_3_v_spec v cands [] 1%nat st ltac:(lia) E). simpl.
  split; [reflexivity|]. by rewrite select_moves_v_spec.
Qed.

End ValueFacts.

Section ValueFactsLaws.
Context {B : Type} `{BoardEngineLaws B}.

Implicit Types (h hb : store B) (v : DiceBoardV B) (ly : layout).

Lemma board_set_ep_squares_v c l v :
  board (set_ep_squares_v c l v) = board v.
Proof. by destruct c. Qed.

(** When [push] returns: the move starts on a piece that [push] does not
    remove itself (with [make_changes]), or passes the engine's
    assertion (without). *)
Lemma push_v_returns v mv mc :
  push_returns v mv mc = true -> exists v', push_v mv mc v = inr v'.
Proof.
  unfold push_returns, push_v, push_base_v. destruct mc.
  - destruct (piece_at (board v) (from_square mv)) as [p|] eqn:Ep;
      [|discriminate].
    simpl. intros Ht. apply negb_true_iff in Ht.
    destruct (push_capture_v_ok v mv true) as [v1 E1]. rewrite E1.
    assert (Ea : engine_asserts (board v1) mv = false).
    { unfold engine_asserts. unfold push_capture_v in E1.
      unfold takes_itself in Ht.
      destruct (is_ep_capture_v mv true v) eqn:Eep.
      - simpl in Ht. apply bool_decide_eq_false in Ht.
        destruct (list_remove_first _ _); [|discriminate].
        injection E1 as <-. rewrite board_set_ep_squares_v. simpl.
        rewrite piece_at_remove_piece_at.
        destruct (decide _) as [Heq|_]; [by destruct Ht|].
        rewrite Ep. simpl. apply andb_false_r.
      - injection E1 as <-. rewrite Ep. simpl. apply andb_false_r. }
    rewrite Ea. repeat case_match; eauto.
  - intros Ha. apply negb_true_iff in Ha.
    assert (E1 : push_capture_v mv false v = inr v).
    { unfold push_capture_v, is_ep_capture_v. reflexivity. }
    rewrite E1, Ha. eauto.
Qed.

(** Otherwise it raises: the engine's [AssertionError], or
    [AttributeError] for the null move from an empty square with
    [make_changes]. *)
Lemma push_v_raises v mv mc :
  push_returns v mv mc = false ->
  push_v mv mc v
  = inl (if mc && null_move mv
            && negb (truthy (piece_at (board v) (from_square mv)))
         then AttributeError else AssertionError).
Proof.
  unfold push_returns, push_v, push_base_v. destruct mc.
  - destruct (piece_at (board v) (from_square mv)) as [p|] eqn:Ep; simpl.
    + intros Ht. apply negb_false_iff in Ht. rewrite andb_false_r.
      unfold takes_itself in Ht. apply andb_prop in Ht as [Eep Ht].
      apply bool_decide_eq_true in Ht.
      unfold push_capture_v. rewrite Eep.
      pose proof Eep as Eep'. unfold is_ep_capture_v in Eep'.
      apply andb_prop in Eep' as [Eep' Hto].
      apply andb_prop in Eep' as [_ Hin].
      apply bool_decide_eq_true in Hin.
      destruct (list_remove_first_elem _ _ Hin) as [xs ->].
      rewrite board_set_ep_squares_v. simpl.
      unfold engine_asserts. rewrite piece_at_remove_piece_at.
      destruct (decide _) as [_|Hne]; [|by destruct Hne].
      assert (Hn : null_move mv = false).
      { unfold null_move. unfold ep_capture_square in Ht.
        destruct (from_square mv =? 0) eqn:Ef; [|reflexivity].
        destruct (to_square mv =? 0) eqn:Et; [|reflexivity].
        apply Z.eqb_eq in Ef, Et. destruct (turn (board v)); lia. }
      by rewrite Hn.
    + intros _. unfold push_capture_v, is_ep_capture_v. rewrite Ep. simpl.
      unfold engine_asserts. rewrite Ep. simpl.
      destruct (null_move mv); reflexivity.
  - intros Ha. apply negb_false_iff in Ha.
    unfold push_capture_v, is_ep_capture_v. simpl. by rewrite Ha.
Qed.

Lemma push_returns_true v mv :
  piece_at (board v) (from_square mv) <> None ->
  (is_ep_capture_v mv true v = true ->
   ep_capture_square (turn (board v)) mv <> from_square mv) ->
  push_returns v mv true = true.
Proof.
  intros Hp Hne. unfold push_returns, takes_itself.
  destruct (piece_at (board v) (from_square mv)); [simpl|done].
  destruct (is_ep_capture_v mv true v); [simpl|reflexivity].
  apply negb_true_iff, bool_decide_eq_false. by apply Hne.
Qed.


(** A candidate starts on a piece. *)
Lemma candidate_piece v m :
  dice_allow_v v m = true -> piece_at (board v) (from_square m) <> None.
Proof.
  intros Ha. destruct (dice_allow_v_piece _ _ Ha) as [Hc|Hp]; [|exact Hp].
  destruct (is_castling_piece _ _ Hc) as [c ->]. discriminate.
Qed.

(** Every candidate can be pushed, but for the pawn that [push] removes
    itself. *)
Lemma candidate_push_ok v m :
  dice_allow_v v m = true -> takes_itself v m = false ->
  exists v1, push_v m true v = inr v1.
Proof.
  intros Ha Ht. apply push_v_returns. unfold push_returns.
  destruct (piece_at (board v) (from_square m)) eqn:Ep;
    [by rewrite Ht | by destruct (candidate_piece _ _ Ha)].
Qed.

End ValueFactsLaws.

(** ** The claims *)

Section Claims.
Context {B : Type} `{BoardEngineLaws B}.

Implicit Types (h hb : store B) (v : DiceBoardV B) (ly : layout).

#[local] Arguments bind : simpl never.

Lemma owns_view hb h self ly v : owns hb h self ly v -> view h self = Some v.
Proof. intros Ho. apply view_repr. exists ly. apply Ho. Qed.

Lemma push_v_false v mv :
  push_v mv false v = push_base_v mv (turn (board v)) v.
Proof.
  unfold push_v, push_capture_v, is_ep_capture_v. simpl.
  destruct (push_base_v mv (turn (board v)) v); [reflexivity|].
  by rewrite andb_false_r.
Qed.

Lemma push_base_v_inv mv c v v2 :
  push_base_v mv c v = inr v2 ->
  engine_asserts (board v) mv = false /\
  v2 = set_board_v
         (set_ep_square None (set_turn c (base_push mv (board v)))) v.
Proof.
  unfold push_base_v. destruct (engine_asserts (board v) mv); [discriminate|].
  by intros [= <-].
Qed.

(** C5.  [next_player] empties the right-set of the side to move and
    gives the turn to the other side; the other side's rights, the dice
    and the piece placement stay as they were. *)
Theorem C5_next_player h self v :
  view h self = Some v ->
  exists h' v',
    next_player self h = (inr tt, h') /\
    view h' self = Some v' /\
    ep_squares v' (turn (board v)) = [] /\
    turn (board v') = negb (turn (board v)) /\
    ep_squares v' (negb (turn (board v))) = ep_squares v (negb (turn (board v))) /\
    dice_roll v' = dice_roll v /\
    forall sq, piece_at (board v') sq = piece_at (board v) sq.
Proof.
  intros Hv. apply view_repr in Hv as [ly Hr].
  destruct (next_player_sim ∅ _ _ _ _ (owns_empty _ _ _ _ Hr))
    as (h' & ly' & E & Ho).
  exists h', (next_player_v v). split; [exact E|].
  split; [exact (owns_view _ _ _ _ _ Ho)|].
  unfold next_player_v. destruct v as [b ws ks ds]. simpl.
  destruct (turn b) eqn:Et; simpl;
    rewrite ?turn_set_turn; repeat split; auto using piece_at_set_turn.
Qed.

(** C10, as amended.  For the null move and for a move that starts on
    an occupied square, [push] without [make_changes] returns and leaves
    the dice and both right-sets as they were and removes no pawn: the
    board is the engine's push of the unchanged board, with the turn
    given back to the mover and the standard en-passant square cleared.
    For any other move the engine's assertion fails and the call raises
    [AssertionError]. *)
Theorem C10_push_without_changes h self v mv :
  view h self = Some v ->
  if engine_asserts (board v) mv
  then exists h', push self mv false h = (inl AssertionError, h')
  else
    (exists h' v',
       push self mv false h = (inr tt, h') /\
       view h' self = Some v' /\
       dice_roll v' = dice_roll v /\
       ep_white v' = ep_white v /\
       ep_black v' = ep_black v /\
       board v'
       = set_ep_square None
           (set_turn (turn (board v)) (base_push mv (board v))) /\
       turn (board v') = turn (board v) /\
       ep_square (board v') = None).
Proof.
  intros Hv. apply view_repr in Hv as [ly Hr].
  destruct (push_sim ∅ _ _ _ _ mv false (owns_empty _ _ _ _ Hr))
    as (h' & E & _ & Ho).
  rewrite push_v_false in E, Ho. unfold push_base_v in E, Ho.
  destruct (engine_asserts (board v) mv).
  - by exists h'.
  - specialize (Ho _ eq_refl). eexists h', _.
    split; [exact E|]. split; [exact (owns_view _ _ _ _ _ Ho)|].
    simpl. rewrite turn_set_ep_square, turn_set_turn, ep_square_set_ep_square.
    by repeat split.
Qed.

(** C8.  With no dice [get_moves] returns the empty list; with more than
    three it raises [ValueError] and returns nothing. *)
Theorem C8_get_moves_dice_count h self v :
  view h self = Some v ->
  (length (dice_roll v) = 0%nat -> get_moves self h = (inr [], h)) /\
  ((3 < length (dice_roll v))%nat -> get_moves self h = (inl ValueError, h)).
Proof.
  intros Hv. apply view_repr in Hv as [ly Hr].
  unfold get_moves. rewrite (bind_eq _ _ _ _ _ (get_dice_roll_repr _ _ _ _ Hr)).
  split; intros Hn.
  - rewrite Hn. reflexivity.
  - destruct (length (dice_roll v)) as [|[|[|[|n]]]]; try lia. reflexivity.
Qed.

(** C6.  [get_moves] touches no object of the store it is called on:
    whatever the dice, the store afterwards contains the store before,
    so the board, its dice and both right-sets read as before; the
    copies it worked on are new objects. *)
Theorem C6_get_moves_pure h self v :
  view h self = Some v ->
  exists r h',
    get_moves self h = (r, h') /\ h ⊆ h' /\ view h' self = Some v
    /\ r = get_moves_v v.
Proof.
  intros Hv. apply view_repr in Hv as [ly Hr].
  destruct (get_moves_sim _ _ _ _ Hr) as (h' & Hsub & E).
  exists (get_moves_v v), h'. split; [exact E|]. split; [exact Hsub|].
  split; [|reflexivity].
  apply view_repr. exists ly. by eapply repr_mono.
Qed.

Lemma map_depth_2_repr h self ly v l :
  repr h self ly v -> map (depth_2 h self) l = map (depth_2_v v) l.
Proof. intros Hr. apply map_ext. intros m. by eapply depth_2_repr. Qed.

Lemma map_depth_3_repr h self ly v l :
  repr h self ly v -> map (depth_3 h self) l = map (depth_3_v v) l.
Proof. intros Hr. apply map_ext. intros m. by eapply depth_3_repr. Qed.

Lemma filter_ext_eq {A} (f g : A -> bool) l :
  (forall x, f x = g x) -> List.filter f l = List.filter g l.
Proof. intros E. induction l as [|x l IH]; simpl; [done|]. by rewrite E, IH. Qed.

(** X16.  With two dice, when [get_moves] returns, the loop of
    [_get_moves_2] has given each candidate the depth 2 exactly when it
    is a castling move or when the candidates recomputed on a copy, after
    the move is pushed there with its die consumed, are not empty, and 1
    otherwise; the list returned holds, in order, the candidates whose
    depth is the maximum over all candidates and those whose destination
    square holds a king.  So, when some candidate has a continuation, a
    move of depth 1 is returned only if its destination holds a king. *)
Theorem get_moves_2_depths h self v moves h' :
  view h self = Some v ->
  length (dice_roll v) = 2%nat ->
  get_moves self h = (inr moves, h') ->
  exists cands h1,
    let depths := map (depth_2 h self) cands in
    _get_pseudo_moves self h = (inr cands, h) /\
    for_each (enumerate cands) (count_step_2 self)
      (replicate (length cands) 1%nat, 1%nat) h
    = (inr (depths, max_depth depths), h1) /\
    moves
    = List.filter (fun m => (depth_2 h self m =? max_depth depths)%nat
                            || king_at h self (to_square m)) cands /\
    ((exists m, m ∈ cands /\ has_continuation h self m = true) ->
     forall m, m ∈ moves -> depth_2 h self m = 1%nat ->
               king_at h self (to_square m) = true).
Proof.
  intros Hv Hlen Eg. apply view_repr in Hv as [ly Hr].
  set (cands := _get_pseudo_moves_v v).
  destruct (get_moves_sim _ _ _ _ Hr) as (h2 & _ & Eg').
  rewrite Eg in Eg'. injection Eg' as Ev _. symmetry in Ev.
  unfold get_moves_v in Ev. rewrite Hlen in Ev.
  destruct (_get_moves_2_v_spec v moves Ev) as [Ecount Eres].
  fold cands in Ecount, Eres.
  destruct (counts_2_sim self ly v (enumerate cands)
              (replicate (length cands) 1%nat, 1%nat) _ Hr)
    as (h1 & _ & Eloop).
  exists cands, h1. cbv zeta.
  rewrite (map_depth_2_repr _ _ _ _ _ Hr).
  split; [by eapply _get_pseudo_moves_repr|].
  split; [by rewrite Eloop, Ecount|].
  assert (Efilter :
    List.filter (fun m => (depth_2 h self m
                           =? max_depth (map (depth_2_v v) cands))%nat
                          || king_at h self (to_square m)) cands
    = List.filter (fun m => (depth_2_v v m
                             =? max_depth (map (depth_2_v v) cands))%nat
                            || is_game_over_v v m) cands).
  { apply filter_ext_eq. intros m.
    by rewrite (depth_2_repr _ _ _ _ _ Hr), (king_at_repr _ _ _ _ _ Hr). }
  rewrite Efilter. split; [exact Eres|].
  intros (m0 & Hm0 & Hc0) m Hm Hd. rewrite Eres in Hm.
  apply list_elem_of_In, filter_In in Hm as [Hm Hkeep].
  rewrite (king_at_repr _ _ _ _ _ Hr).
  rewrite (depth_2_repr _ _ _ _ _ Hr) in Hd. rewrite Hd in Hkeep.
  apply orb_prop in Hkeep as [Hmax|Hk]; [|exact Hk].
  exfalso. apply Nat.eqb_eq in Hmax.
  assert (H2 : (2 <= max_depth (map (depth_2_v v) cands))%nat).
  { rewrite (has_continuation_repr _ _ _ _ _ Hr) in Hc0.
    clear -Hm0 Hc0. induction cands as [|x l IH]; [by inversion Hm0|].
    simpl. apply elem_of_cons in Hm0 as [<-|Hin].
    - unfold depth_2_v at 1. rewrite Hc0, orb_true_r. lia.
    - specialize (IH Hin). unfold max_depth in *. lia. }
  lia.
Qed.

(** One round of the inner loop of [_get_moves_3]. *)
Lemma second_step_body_spec h p ly v1 i m st :
  repr h p ly v1 ->
  exists h2, h ⊆ h2 /\
    second_step_body p i m st h
    = (if is_castling (board v1) m
       then inr (true, (<[i := 3%nat]> (fst st), 3%nat))
       else match continuations_v v1 m with
            | inl e => inl e
            | inr pm2 =>
                if (0 <? length pm2)%nat
                then inr (true, (<[i := 3%nat]> (fst st), 3%nat))
                else inr (false, st)
            end, h2).
Proof.
  intros Hr. unfold second_step_body.
  rewrite (bind_eq _ _ _ _ _ (self_is_castling_repr _ _ _ _ m Hr)).
  destruct (is_castling (board v1) m).
  { exists h. split; reflexivity. }
  destruct (simulate_sim _ _ _ _ m Hr)
    as (h1 & p2 & ly2 & Ec & h2 & Ep & Hsub & Hv2).
  exists h2. split; [exact Hsub|].
  rewrite (bind_eq _ _ _ _ _ Ec). unfold continuations_v.
  destruct (push_v m true v1) as [e|v2].
  - by rewrite (bind_raise _ _ _ _ _ Ep).
  - destruct (Hv2 v2 eq_refl) as [Ho Eg].
    rewrite (bind_eq _ _ _ _ _ Ep), (bind_eq _ _ _ _ _ Eg).
    by destruct (0 <? length (_get_pseudo_moves_v v2))%nat.
Qed.

(** The loop is left at the first continuation that confirms depth 3:
    the moves after it are not simulated, so the store at the end is the
    one reached at that move. *)
Lemma second_step_short h p ly v1 i pre m1 post st :
  repr h p ly v1 ->
  is_castling (board v1) m1 || has_continuation_v v1 m1 = true ->
  second_step p i (pre ++ m1 :: post) st h
  = second_step p i (pre ++ [m1]) st h.
Proof.
  unfold second_step. revert h st.
  induction pre as [|m pre IH]; intros h st Hr Hc; simpl.
  - destruct (second_step_body_spec _ _ _ _ i m1 st Hr) as (h2 & _ & E).
    unfold has_continuation_v in Hc.
    destruct (is_castling (board v1) m1).
    + by rewrite !(bind_eq _ _ _ _ _ E).
    + simpl in Hc. destruct (continuations_v v1 m1) as [e|[|m2 pm2]];
        try discriminate.
      by rewrite !(bind_eq _ _ _ _ _ E).
  - destruct (second_step_body_spec _ _ _ _ i m st Hr) as (h2 & Hsub & E).
    destruct (is_castling (board v1) m).
    { by rewrite !(bind_eq _ _ _ _ _ E). }
    destruct (continuations_v v1 m) as [e|pm2].
    { by rewrite !(bind_raise _ _ _ _ _ E). }
    destruct (0 <? length pm2)%nat; rewrite !(bind_eq _ _ _ _ _ E); simpl.
    + reflexivity.
    + apply IH; [by eapply repr_mono | exact Hc].
Qed.

(** X17.  With three dice, when [get_moves] returns, the loop of
    [_get_moves_3] has given a castling candidate the depth 3 when it has
    a continuation and 2 otherwise, and another candidate the depth 1
    when it has no continuation, 3 when one of its continuations is a
    castling move or has a continuation of its own, and 2 otherwise; the
    list returned holds the candidates of maximal depth and those whose
    destination holds a king.  A candidate with a continuation has depth
    at least 2, and the inner loop stops at the first continuation that
    confirms depth 3. *)
Theorem get_moves_3_depths h self v moves h' :
  view h self = Some v ->
  length (dice_roll v) = 3%nat ->
  get_moves self h = (inr moves, h') ->
  exists cands h1,
    let depths := map (depth_3 h self) cands in
    _get_pseudo_moves self h = (inr cands, h) /\
    for_each (enumerate cands) (count_step_3 self)
      (replicate (length cands) 1%nat, 1%nat) h
    = (inr (depths, max_depth depths), h1) /\
    moves
    = List.filter (fun m => (depth_3 h self m =? max_depth depths)%nat
                            || king_at h self (to_square m)) cands /\
    (forall m, has_continuation h self m = true ->
               (2 <= depth_3 h self m)%nat) /\
    (forall h0 p v1 i pre m1 post st,
        view h0 p = Some v1 ->
        castling_at h0 p m1 || has_continuation h0 p m1 = true ->
        second_step p i (pre ++ m1 :: post) st h0
        = second_step p i (pre ++ [m1]) st h0).
Proof.
  intros Hv Hlen Eg. apply view_repr in Hv as [ly Hr].
  set (cands := _get_pseudo_moves_v v).
  destruct (get_moves_sim _ _ _ _ Hr) as (h2 & _ & Eg').
  rewrite Eg in Eg'. injection Eg' as Ev _. symmetry in Ev.
  unfold get_moves_v in Ev. rewrite Hlen in Ev.
  destruct (_get_moves_3_v_spec v moves Ev) as [Ecount Eres].
  fold cands in Ecount, Eres.
  destruct (counts_3_sim self ly v (enumerate cands)
              (replicate (length cands) 1%nat, 1%nat) _ Hr)
    as (h1 & _ & Eloop).
  exists cands, h1. cbv zeta.
  rewrite (map_depth_3_repr _ _ _ _ _ Hr).
  split; [by eapply _get_pseudo_moves_repr|].
  split; [by rewrite Eloop, Ecount|].
  assert (Efilter :
    List.filter (fun m => (depth_3 h self m
                           =? max_depth (map (depth_3_v v) cands))%nat
                          || king_at h self (to_square m)) cands
    = List.filter (fun m => (depth_3_v v m
                             =? max_depth (map (depth_3_v v) cands))%nat
                            || is_game_over_v v m) cands).
  { apply filter_ext_eq. intros m.
    by rewrite (depth_3_repr _ _ _ _ _ Hr), (king_at_repr _ _ _ _ _ Hr). }
  rewrite Efilter. split; [exact Eres|]. split.
  - intros m Hc. unfold depth_3. rewrite Hc.
    destruct (castling_at h self m), (continues_twice h self m); lia.
  - intros h0 p v1 i pre m1 post st Hv1 Hc.
    apply view_repr in Hv1 as [ly1 Hr1].
    rewrite (castling_at_repr _ _ _ _ _ Hr1),
            (has_continuation_repr _ _ _ _ _ Hr1) in Hc.
    by eapply second_step_short.
Qed.

(** *** What [push] does to the board and to the right-sets *)

Lemma ep_squares_set_same (c : bool) l v :
  ep_squares (set_ep_squares_v c l v) c = l.
Proof. by destruct c. Qed.

Lemma ep_squares_set_other (c : bool) l v :
  ep_squares (set_ep_squares_v (negb c) l v) c = ep_squares v c.
Proof. by destruct c. Qed.

Lemma ep_squares_set_other' (c : bool) l v :
  ep_squares (set_ep_squares_v c l v) (negb c) = ep_squares v (negb c).
Proof. by destruct c. Qed.

Lemma push_dice_v_frame piece castling v v3 :
  push_dice_v piece castling v = inr v3 ->
  board v3 = board v /\ forall c, ep_squares v3 c = ep_squares v c.
Proof.
  unfold push_dice_v. destruct piece as [p|]; [|discriminate].
  destruct (list_remove_first (piece_type p) (dice_roll v)) as [d1|].
  - destruct castling; [destruct (list_remove_first ROOK d1)|];
      intros [= <-]; split; trivial; by intros [].
  - intros [= <-]. split; trivial.
Qed.

Lemma board_push_rights_v mv opp v : board (push_rights_v mv opp v) = board v.
Proof.
  unfold push_rights_v. destruct (grants_right_v mv opp v); [|done].
  apply board_set_ep_squares_v.
Qed.

Lemma ep_squares_push_rights_v_other mv (c : bool) v :
  ep_squares (push_rights_v mv (negb c) v) c = ep_squares v c.
Proof.
  unfold push_rights_v. destruct (grants_right_v mv (negb c) v); [|done].
  apply ep_squares_set_other.
Qed.

Lemma ep_squares_push_rights_v_same mv opp v :
  ep_squares (push_rights_v mv opp v) opp
  = if grants_right_v mv opp v
    then ep_squares v opp ++ [(from_square mv + to_square mv) `div` 2]
    else ep_squares v opp.
Proof.
  unfold push_rights_v. destruct (grants_right_v mv opp v); [|done].
  apply ep_squares_set_same.
Qed.

Lemma push_v_true_inv v mv v' :
  push_v mv true v = inr v' ->
  let color := turn (board v) in
  let before :=
    if is_ep_capture_v mv true v
    then remove_piece_at (ep_capture_square color mv) (board v)
    else board v in
  board v' = set_ep_square None (set_turn color (base_push mv before)) /\
  (if is_ep_capture_v mv true v
   then list_remove_first (to_square mv) (ep_squares v color)
        = Some (ep_squares v' color)
   else ep_squares v' color = ep_squares v color) /\
  ep_squares v' (negb color)
  = if is_type PAWN (piece_at (board v) (from_square mv))
       && grants_right_v mv (negb color)
            (mkDiceBoardV (board v') (ep_white v) (ep_black v) (dice_roll v))
    then ep_squares v (negb color)
         ++ [(from_square mv + to_square mv) `div` 2]
    else ep_squares v (negb color).
Proof.
  intros E. cbv zeta. unfold push_v in E.
  set (color := turn (board v)) in *.
  assert (Hcap : exists v1,
    push_capture_v mv true v = inr v1 /\
    board v1 = (if is_ep_capture_v mv true v
                then remove_piece_at (ep_capture_square color mv) (board v)
                else board v) /\
    (if is_ep_capture_v mv true v
     then list_remove_first (to_square mv) (ep_squares v color)
          = Some (ep_squares v1 color)
     else ep_squares v1 color = ep_squares v color) /\
    ep_squares v1 (negb color) = ep_squares v (negb color)).
  { unfold push_capture_v. fold color.
    destruct (is_ep_capture_v mv true v) eqn:Eep.
    - assert (Hin : to_square mv ∈ ep_squares v color).
      { unfold is_ep_capture_v in Eep.
        apply andb_prop in Eep as [Eep _]. apply andb_prop in Eep as [_ Eep].
        by apply bool_decide_eq_true in Eep. }
      destruct (list_remove_first_elem _ _ Hin) as [xs ->].
      eexists. split; [reflexivity|].
      rewrite board_set_ep_squares_v, ep_squares_set_same,
              ep_squares_set_other'.
      by repeat split.
    - eexists. by repeat split. }
  destruct Hcap as (v1 & Ev1 & Hb1 & Hc1 & Ho1). rewrite Ev1 in E.
  destruct (push_base_v mv color v1) as [e|v2] eqn:Eb; [discriminate|].
  apply push_base_v_inv in Eb as [_ ->].
  destruct (push_dice_v _ _ _) as [e|v3] eqn:Ed; [discriminate|].
  apply push_dice_v_frame in Ed as [Hb3 He3]. simpl in Hb3.
  assert (Hb' : board v' = board v3).
  { injection E as <-. destruct (_ && _); [apply board_push_rights_v|done]. }
  assert (Hc' : ep_squares v' color = ep_squares v1 color).
  { injection E as <-.
    rewrite <- (ep_squares_set_board_v
                  (set_ep_square None
                     (set_turn color (base_push mv (board v1)))) v1 color),
            <- He3.
    destruct (_ && _); [apply ep_squares_push_rights_v_other|done]. }
  assert (Hg : grants_right_v mv (negb color) v3
               = grants_right_v mv (negb color)
                   (mkDiceBoardV (board v') (ep_white v) (ep_black v)
                      (dice_roll v))).
  { unfold grants_right_v. simpl.
    rewrite Hb', (He3 (negb color)), ep_squares_set_board_v, Ho1.
    by destruct color. }
  rewrite <- Hg.
  rewrite Hb', Hb3, Hb1, Hc'. split; [reflexivity|]. split; [exact Hc1|].
  injection E as <-.
  rewrite andb_true_r.
  destruct (is_type PAWN (piece_at (board v) (from_square mv))); simpl.
  - rewrite ep_squares_push_rights_v_same.
    by rewrite He3, ep_squares_set_board_v, Ho1.
  - by rewrite He3, ep_squares_set_board_v, Ho1.
Qed.

Lemma list_remove_first_sub {A} `{EqDecision A} (x : A) l xs :
  list_remove_first x l = Some xs -> forall y, y ∈ xs -> y ∈ l.
Proof.
  revert xs. induction l as [|z l IH]; intros xs; simpl; [discriminate|].
  destruct (decide (x = z)).
  - intros [= <-] y Hy. by right.
  - destruct (list_remove_first x l) as [xs'|]; [|discriminate].
    intros [= <-] y Hy. apply elem_of_cons in Hy as [->|Hy]; [by left|].
    right. by eapply IH.
Qed.

Lemma list_remove_first_NoDup {A} `{EqDecision A} (x : A) l xs :
  list_remove_first x l = Some xs -> NoDup l -> NoDup xs /\ x ∉ xs.
Proof.
  revert xs. induction l as [|z l IH]; intros xs; simpl; [discriminate|].
  intros E Hnd. apply NoDup_cons in Hnd as [Hz Hnd].
  destruct (decide (x = z)) as [->|Hne].
  - injection E as <-. by split.
  - destruct (list_remove_first x l) as [xs'|] eqn:E'; [|discriminate].
    injection E as <-. destruct (IH _ eq_refl Hnd) as [Hnd' Hx].
    split.
    + apply NoDup_cons. split; [|exact Hnd'].
      intros Hin. apply Hz. by eapply list_remove_first_sub.
    + intros Hin. apply elem_of_cons in Hin as [?|?]; [congruence|done].
Qed.


(** C3, as amended.  When [push] is called with [make_changes] for a
    move of a pawn of the mover whose destination is a right of the
    mover and is empty, and an enemy pawn stands one rank behind the
    destination, the call returns: that enemy pawn is taken off the board
    before the engine applies the move, and one occurrence of the right
    leaves the mover's right-set; in a right-set without duplicates the
    right is then gone, and a second move to that square is no
    en-passant capture. *)
Theorem C3_push_ep_capture h self v mv :
  view h self = Some v ->
  piece_at (board v) (from_square mv)
  = Some (mkPiece PAWN (turn (board v))) ->
  to_square mv ∈ ep_squares v (turn (board v)) ->
  piece_at (board v) (to_square mv) = None ->
  piece_at (board v) (to_square mv + (if turn (board v) then -8 else 8))
  = Some (mkPiece PAWN (negb (turn (board v)))) ->
  exists h' v',
    let color := turn (board v) in
    let captured_sq := to_square mv + (if color then -8 else 8) in
    push self mv true h = (inr tt, h') /\
    view h' self = Some v' /\
    piece_at (remove_piece_at captured_sq (board v)) captured_sq = None /\
    board v'
    = set_ep_square None
        (set_turn color
           (base_push mv (remove_piece_at captured_sq (board v)))) /\
    list_remove_first (to_square mv) (ep_squares v color)
    = Some (ep_squares v' color) /\
    (NoDup (ep_squares v color) ->
     (to_square mv ∉ ep_squares v' color) /\
     forall mv2, to_square mv2 = to_square mv ->
                 turn (board v') = color /\
                 is_ep_capture_v mv2 true v' = false).
Proof.
  intros Hv Hp Hin Hto Hcap. apply view_repr in Hv as [ly Hr].
  assert (Hne : ep_capture_square (turn (board v)) mv <> from_square mv).
  { unfold ep_capture_square. intros Heq. rewrite Heq, Hp in Hcap.
    injection Hcap as Hcol. by destruct (turn (board v)). }
  destruct (push_v_returns v mv true) as [v' Ev].
  { apply push_returns_true; [by rewrite Hp | by intros _]. }
  destruct (push_sim ∅ _ _ _ _ mv true (owns_empty _ _ _ _ Hr))
    as (h' & E & _ & Ho).
  rewrite Ev in E. specialize (Ho _ Ev).
  exists h', v'. cbv zeta. split; [exact E|].
  split; [exact (owns_view _ _ _ _ _ Ho)|].
  assert (Eep : is_ep_capture_v mv true v = true).
  { unfold is_ep_capture_v. rewrite Hp, Hto. simpl.
    by rewrite bool_decide_eq_true_2. }
  destruct (push_v_true_inv _ _ _ Ev) as (Hb & Hc & _).
  rewrite Eep in Hb, Hc. unfold ep_capture_square in Hb.
  split; [|split; [exact Hb|split; [exact Hc|]]].
  { rewrite piece_at_remove_piece_at. by rewrite decide_True. }
  intros Hnd. destruct (list_remove_first_NoDup _ _ _ Hc Hnd) as [_ Hnot].
  split; [exact Hnot|]. intros mv2 Hmv2.
  assert (Ht : turn (board v') = turn (board v))
    by (by rewrite Hb, turn_set_ep_square, turn_set_turn).
  split; [exact Ht|].
  unfold is_ep_capture_v. rewrite Ht, Hmv2.
  rewrite (bool_decide_eq_false_2 _ Hnot). simpl.
  by rewrite andb_false_r.
Qed.

Lemma is_piece_true t c p : is_piece t c p = true <-> p = Some (mkPiece t c).
Proof.
  destruct p as [[t' c']|]; simpl; [|done].
  rewrite andb_true_iff, !bool_decide_eq_true. simpl.
  split; [intros [-> ->]; done | intros [= -> ->]; done].
Qed.



Lemma rights_on_ranks_disjoint v : rights_on_ranks v -> rights_disjoint v.
Proof.
  intros [Hw Hk] sq Hin Hin'. specialize (Hw _ Hin). specialize (Hk _ Hin').
  congruence.
Qed.

Lemma square_rank_midpoint from d :
  square_rank ((from + (from + 2 * d * 8)) `div` 2) = square_rank from + d.
Proof.
  unfold square_rank. rewrite !Z.shiftr_div_pow2 by lia.
  replace (from + (from + 2 * d * 8)) with ((from + d * 8) * 2) by lia.
  rewrite Z.div_mul by lia. change (2 ^ 3) with 8.
  by rewrite Z.div_add by lia.
Qed.

Lemma rights_kept_white_black v :
  rights_kept v <->
  (forall c sq, sq ∈ ep_squares v c -> square_rank sq = if c then 5 else 2)
  /\ (forall c, NoDup (ep_squares v c)).
Proof.
  unfold rights_kept, rights_on_ranks. split.
  - intros ([Hw Hk] & Nw & Nk). split; intros []; simpl; auto.
  - intros [Hr Hn]. split; [split|split].
    + apply (Hr true). + apply (Hr false).
    + apply (Hn true). + apply (Hn false).
Qed.

Lemma push_v_rights_kept v mv mc v' :
  rights_kept v -> orthodox_double_step v mv ->
  push_v mv mc v = inr v' -> rights_kept v'.
Proof.
  intros Hk Horth Ev. destruct mc.
  2:{ rewrite push_v_false in Ev. apply push_base_v_inv in Ev as [_ ->].
      exact Hk. }
  destruct (push_v_true_inv _ _ _ Ev) as (_ & Hc & Hopp).
  apply rights_kept_white_black in Hk as [Hr Hn].
  apply rights_kept_white_black.
  remember (turn (board v)) as color eqn:Ecolor in *.
  assert (Hsame : forall sq, sq ∈ ep_squares v' color ->
                             sq ∈ ep_squares v color).
  { destruct (is_ep_capture_v mv true v).
    - by eapply list_remove_first_sub.
    - by rewrite Hc. }
  assert (Hnd : NoDup (ep_squares v' color)).
  { destruct (is_ep_capture_v mv true v).
    - by eapply list_remove_first_NoDup.
    - by rewrite Hc. }
  destruct (is_type PAWN (piece_at (board v) (from_square mv))
            && grants_right_v mv (negb color) _) eqn:Eg.
  - apply andb_prop in Eg as [Hp Eg]. unfold grants_right_v in Eg.
    apply andb_prop in Eg as [Eg Hnew]. apply andb_prop in Eg as [Hd _].
    apply Z.eqb_eq in Hd. destruct (Horth Hp Hd) as [Hto Hfrom].
    rewrite <- Ecolor in Hto, Hfrom.
    apply negb_true_iff, bool_decide_eq_false in Hnew. simpl in Hnew.
    replace (ep_squares (mkDiceBoardV (board v') (ep_white v) (ep_black v)
                           (dice_roll v)) (negb color))
      with (ep_squares v (negb color)) in Hnew by (by destruct color).
    assert (Hmid : square_rank ((from_square mv + to_square mv) `div` 2)
                   = if negb color then 5 else 2).
    { rewrite Hto. destruct color; simpl.
      - change 16 with (2 * 1 * 8).
        rewrite (square_rank_midpoint _ 1). lia.
      - change (-16) with (2 * (-1) * 8).
        rewrite (square_rank_midpoint _ (-1)). lia. }
    split.
    + intros c sq Hin. destruct (decide (c = color)) as [->|Hne].
      * apply Hr. by apply Hsame.
      * assert (c = negb color) as -> by (destruct c, color; simpl; congruence).
        rewrite Hopp in Hin. apply elem_of_app in Hin as [Hin|Hin].
        -- by apply Hr.
        -- by apply list_elem_of_singleton in Hin as ->.
    + intros c. destruct (decide (c = color)) as [->|Hne]; [exact Hnd|].
      assert (c = negb color) as -> by (destruct c, color; simpl; congruence).
      rewrite Hopp. apply NoDup_app. split; [apply Hn|].
      split; [|apply NoDup_singleton].
      intros x Hx Hx'. by apply list_elem_of_singleton in Hx' as ->.
  - split.
    + intros c sq Hin. destruct (decide (c = color)) as [->|Hne].
      * apply Hr. by apply Hsame.
      * assert (c = negb color) as -> by (destruct c, color; simpl; congruence).
        rewrite Hopp in Hin. by apply Hr.
    + intros c. destruct (decide (c = color)) as [->|Hne]; [exact Hnd|].
      assert (c = negb color) as -> by (destruct c, color; simpl; congruence).
      rewrite Hopp. apply Hn.
Qed.

(** C7, as amended.  In a state where white's rights lie on the sixth
    rank and black's on the third, without duplicates, no square is a
    right of both colours, and [next_player], [get_moves] and every
    [push] that returns (with or without [make_changes], for a move
    whose double pawn step, if it is one, is orthodox) keep the state so.
    [next_player] and [get_moves] also keep every right on an empty
    square; [push] does not promise it. *)
Theorem C7_rights_kept h self v :
  view h self = Some v ->
  rights_kept v ->
  rights_disjoint v /\
  (exists h' v',
      next_player self h = (inr tt, h') /\ view h' self = Some v' /\
      rights_kept v' /\ (rights_unoccupied v -> rights_unoccupied v')) /\
  (exists r h', get_moves self h = (r, h') /\ view h' self = Some v) /\
  (forall mv mc h',
      orthodox_double_step v mv ->
      push self mv mc h = (inr tt, h') ->
      exists v', view h' self = Some v' /\ rights_kept v').
Proof.
  intros Hv Hk. apply view_repr in Hv as [ly Hr].
  split; [apply rights_on_ranks_disjoint, Hk|]. split; [|split].
  - destruct (next_player_sim ∅ _ _ _ _ (owns_empty _ _ _ _ Hr))
      as (h' & ly' & E & Ho).
    exists h', (next_player_v v). split; [exact E|].
    split; [exact (owns_view _ _ _ _ _ Ho)|].
    destruct Hk as ([Hw Hb] & Nw & Nb).
    unfold next_player_v, rights_kept, rights_on_ranks, rights_unoccupied.
    destruct v as [b ws ks ds]. simpl in *.
    destruct (turn b); simpl; (split; [split; [split|split]|]);
      try assumption; try (by intros sq Hin; inversion Hin);
      try apply NoDup_nil_2.
    + intros Hu [] sq Hin; simpl in *; [by inversion Hin|].
      rewrite piece_at_set_turn. by apply (Hu false).
    + intros Hu [] sq Hin; simpl in *; [|by inversion Hin].
      rewrite piece_at_set_turn. by apply (Hu true).
  - destruct (get_moves_sim _ _ _ _ Hr) as (h' & Hsub & E).
    exists (get_moves_v v), h'. split; [exact E|].
    apply view_repr. exists ly. by eapply repr_mono.
  - intros mv mc h' Horth E'.
    destruct (push_sim ∅ _ _ _ _ mv mc (owns_empty _ _ _ _ Hr))
      as (h1 & E & _ & Ho).
    rewrite E' in E. injection E as Eo <-.
    destruct (push_v mv mc v) as [e|v'] eqn:Ev; [discriminate|].
    specialize (Ho _ eq_refl).
    exists v'. split; [exact (owns_view _ _ _ _ _ Ho)|].
    by eapply push_v_rights_kept.
Qed.

End Claims.

(** ** The claims on the small engine *)

Section Instances.
Import MiniChess Examples.

Local Open Scope nat_scope.

(** Castling is a candidate with rook, rook, king rolled, and has depth
    3: the rook left on f1 can still move with the remaining die. *)
Example castling_offered :
  e1g1 ∈ _get_pseudo_moves_v castling_roll /\
  depth_3 (mk_store castling_roll) 0 e1g1 = 3 /\
  match fst (get_moves 0 (mk_store castling_roll)) with
  | inr moves => last moves
  | inl _ => None
  end = Some e1g1.
Proof.
  split; [|split; vm_compute; reflexivity].
  apply list_elem_of_In. vm_compute. tauto.
Qed.

(** After e2-e4 past the black pawn on d4 and the end of white's turn,
    black's capture d4-e3 takes the pawn off e4 and consumes the right. *)
Example en_passant_takes_the_passed_pawn :
  let run :=
    bind (push 0 e2e4 true)
      (fun _ => bind (next_player 0) (fun _ => push 0 d4e3 true)) in
  fst (run (mk_store pawn_on_d4)) = inr tt /\
  option_map
    (fun v => (piece_at (board v) 28%Z, piece_at (board v) 20%Z, ep_black v))
    (view (snd (run (mk_store pawn_on_d4))) 0)
  = Some (None, Some (mkPiece PAWN BLACK), []).
Proof. cbv zeta. split; vm_compute; reflexivity. Qed.

(** C1 at its failing inputs.  With pawn and king to play,
    [get_moves] returns the pawn move d4-e3 although its depth is 1 and
    the maximum is 2, because the king on e3, the mover's own, passes
    the king test; the generator has offered that capture onto an
    occupied square.  And with two pawn dice and the black pawn on e4
    behind black's right on e3, [get_moves] raises [AssertionError]:
    the simulated step e4-e3 makes [push] remove the moving pawn. *)
Lemma C1_failing_input :
  let h := mk_store king_on_right in
  length (dice_roll king_on_right) = 2 /\
  fst (_get_pseudo_moves 0 h)
  = inr [mkMove 20 29 None; mkMove 20 28 None; mkMove 20 21 None;
         mkMove 20 19 None; mkMove 20 13 None; mkMove 20 12 None;
         mkMove 20 11 None; mkMove 27 19 None; d4e3] /\
  fst (get_moves 0 h)
  = inr [mkMove 20 29 None; mkMove 20 28 None; mkMove 20 21 None;
         mkMove 20 19 None; mkMove 20 13 None; mkMove 20 12 None;
         mkMove 20 11 None; mkMove 27 19 None; d4e3] /\
  depth_2 h 0 d4e3 = 1 /\
  depth_2 h 0 (mkMove 27 19 None) = 2 /\
  turn (board king_on_right) = BLACK /\
  piece_at (board king_on_right) (to_square d4e3)
  = Some (mkPiece KING BLACK) /\
  length (dice_roll behind_the_right) = 2 /\
  fst (get_moves 0 (mk_store behind_the_right)) = inl AssertionError.
Proof. cbv zeta. repeat split; vm_compute; reflexivity. Qed.

(** C2 at its failing input.  White plays e2-e4 past the black pawn on
    d4 and ends the turn; black rolls three pawns.  [get_moves] takes
    the candidate f5xe4 first and simulates it; the first continuation
    is the step e4-e3 onto black's own right, for which [push] removes
    the black pawn on e4 itself; the engine's push then finds the origin
    empty, and [get_moves] raises [AssertionError] instead of returning
    the moves of maximal depth. *)
Lemma C2_failing_input :
  let play :=
    bind (push 0 e2e4 true)
      (fun _ => bind (next_player 0) (fun _ => roll_dices 0 (fun _ => 0))) in
  let h := snd (play (mk_store before_e2e4)) in
  fst (play (mk_store before_e2e4)) = inr tt /\
  view h 0 = Some right_on_e3 /\
  length (dice_roll right_on_e3) = 3 /\
  fst (get_moves 0 h) = inl AssertionError /\
  head (_get_pseudo_moves_v right_on_e3) = Some f5e4 /\
  match push_v f5e4 true right_on_e3 with
  | inr v1 =>
      piece_at (board v1) 28%Z = Some (mkPiece PAWN BLACK) /\
      ep_black v1 = [20%Z] /\
      dice_roll v1 = [PAWN; PAWN] /\
      head (_get_pseudo_moves_v v1) = Some e4e3 /\
      takes_itself v1 e4e3 = true /\
      push_v e4e3 true v1 = inl AssertionError
  | inl _ => False
  end.
Proof.
  cbv zeta. repeat split; vm_compute; repeat split; reflexivity.
Qed.

(** C3 fails as stated: pushed without [make_changes], the capture
    d5-e6 leaves the black pawn on e5 and the right on e6 where they
    were. *)
Lemma C3_counterexample :
  let h := mk_store en_passant in
  let h' := snd (push 0 d5e6 false h) in
  is_type PAWN (piece_at (board en_passant) (from_square d5e6)) = true /\
  to_square d5e6 ∈ ep_squares en_passant (turn (board en_passant)) /\
  piece_at (board en_passant) (to_square d5e6) = None /\
  fst (push 0 d5e6 false h) = inr tt /\
  option_map ep_white (view h' 0) = Some [44%Z] /\
  option_map (fun v' => piece_at (board v') 36%Z) (view h' 0)
  = Some (Some (mkPiece PAWN BLACK)).
Proof.
  cbv zeta. split; [reflexivity|]. split; [by apply list_elem_of_singleton|].
  repeat split; vm_compute; reflexivity.
Qed.

Lemma C3_push_ep_capture_witness :
  view (mk_store en_passant) 0 = Some en_passant /\
  piece_at (board en_passant) (from_square d5e6)
  = Some (mkPiece PAWN (turn (board en_passant))) /\
  to_square d5e6 ∈ ep_squares en_passant (turn (board en_passant)) /\
  piece_at (board en_passant) (to_square d5e6) = None /\
  piece_at (board en_passant)
    (to_square d5e6 + (if turn (board en_passant) then -8 else 8))%Z
  = Some (mkPiece PAWN (negb (turn (board en_passant)))) /\
  exists h' v',
    push 0 d5e6 true (mk_store en_passant) = (inr tt, h') /\
    view h' 0 = Some v' /\
    list_remove_first 44%Z [44%Z] = Some (ep_squares v' WHITE).
Proof.
  assert (Hin : to_square d5e6 ∈ ep_squares en_passant (turn (board en_passant)))
    by (by apply list_elem_of_singleton).
  assert (Hp : piece_at (board en_passant) (from_square d5e6)
               = Some (mkPiece PAWN (turn (board en_passant))))
    by (vm_compute; reflexivity).
  assert (Hto : piece_at (board en_passant) (to_square d5e6) = None)
    by (vm_compute; reflexivity).
  assert (Hcap : piece_at (board en_passant)
                   (to_square d5e6
                    + (if turn (board en_passant) then -8 else 8))%Z
                 = Some (mkPiece PAWN (negb (turn (board en_passant)))))
    by (vm_compute; reflexivity).
  split; [reflexivity|]. split; [exact Hp|]. split; [exact Hin|].
  split; [exact Hto|]. split; [exact Hcap|].
  destruct (C3_push_ep_capture (mk_store en_passant) 0 en_passant d5e6
              eq_refl Hp Hin Hto Hcap)
    as (h' & v' & E & Hv & _ & _ & Hrm & _).
  exists h', v'. split; [exact E|]. split; [exact Hv | exact Hrm].
Defined.


Lemma C5_next_player_witness :
  view (mk_store both_rights) 0 = Some both_rights /\
  ep_squares both_rights WHITE = [44%Z] /\
  ep_squares both_rights BLACK = [18%Z] /\
  exists h' v',
    next_player 0 (mk_store both_rights) = (inr tt, h') /\
    view h' 0 = Some v' /\
    ep_squares v' WHITE = [] /\
    turn (board v') = BLACK /\
    ep_squares v' BLACK = [18%Z] /\
    dice_roll v' = [PAWN; KNIGHT].
Proof.
  split; [reflexivity|]. split; [reflexivity|]. split; [reflexivity|].
  destruct (C5_next_player (mk_store both_rights) 0 both_rights eq_refl)
    as (h' & v' & E & Hv & He & Ht & Ho & Hd & _).
  exists h', v'. split; [exact E|]. split; [exact Hv|].
  split; [exact He|]. split; [exact Ht|]. split; [exact Ho | exact Hd].
Defined.

Lemma C6_get_moves_pure_witness :
  view (mk_store opening) 0 = Some opening /\
  exists r h',
    get_moves 0 (mk_store opening) = (r, h') /\
    mk_store opening ⊆ h' /\ view h' 0 = Some opening.
Proof.
  split; [reflexivity|].
  destruct (C6_get_moves_pure (mk_store opening) 0 opening eq_refl)
    as (r & h' & E & Hsub & Hv & _).
  exists r, h'. split; [exact E|]. split; [exact Hsub | exact Hv].
Defined.

(** C7 fails as stated.  From the start position with the black pawn on
    d4 and a roll of pawn, queen, queen, the moves e2-e4 and Qd1-e2 lead
    to a state where the invariant holds (black's right on e3, square
    20, is empty); then Qe2-e3, a move [get_moves] offers, puts the queen
    on that square, and the right stays. *)
Lemma C7_counterexample :
  let h := mk_store pawn_on_d4 in
  let h2 := snd (bind (push 0 e2e4 true) (fun _ => push 0 d1e2 true) h) in
  let h3 := snd (push 0 e2e3 true h2) in
  fst (bind (push 0 e2e4 true) (fun _ => push 0 d1e2 true) h) = inr tt /\
  (exists v2, view h2 0 = Some v2 /\ ep_invariant v2) /\
  fst (get_moves 0 h2) = inr [mkMove 12 40 None; mkMove 12 39 None;
                              mkMove 12 33 None; mkMove 12 30 None;
                              mkMove 12 26 None; mkMove 12 21 None;
                              e2e3; mkMove 12 19 None; mkMove 12 3 None] /\
  fst (push 0 e2e3 true h2) = inr tt /\
  exists v3, view h3 0 = Some v3 /\ ep_black v3 = [20%Z] /\
             piece_at (board v3) 20%Z = Some (mkPiece QUEEN WHITE) /\
             ~ ep_invariant v3.
Proof.
  cbv zeta. split; [vm_compute; reflexivity|]. split; [|split; [|split]].
  - eexists. split; [vm_compute; reflexivity|].
    match goal with
    | |- ep_invariant ?x =>
        assert (Ew : ep_white x = []) by (vm_compute; reflexivity);
        assert (Ek : ep_black x = [20%Z]) by (vm_compute; reflexivity);
        assert (Ep : piece_at (board x) 20%Z = None)
          by (vm_compute; reflexivity);
        revert Ew Ek Ep; generalize x
    end.
    intros v2 Ew Ek Ep. split.
    + intros sq Hin. rewrite Ew in Hin. inversion Hin.
    + intros [] sq Hin;
        [change (sq ∈ ep_white v2) in Hin | change (sq ∈ ep_black v2) in Hin].
      * rewrite Ew in Hin. inversion Hin.
      * rewrite Ek in Hin. by apply list_elem_of_singleton in Hin as ->.
  - vm_compute. reflexivity.
  - vm_compute. reflexivity.
  - eexists. split; [vm_compute; reflexivity|].
    split; [vm_compute; reflexivity|]. split; [vm_compute; reflexivity|].
    match goal with
    | |- ~ ep_invariant ?x =>
        assert (Ek : ep_black x = [20%Z]) by (vm_compute; reflexivity);
        assert (Ep : piece_at (board x) 20%Z = Some (mkPiece QUEEN WHITE))
          by (vm_compute; reflexivity);
        revert Ek Ep; generalize x
    end.
    intros v3 Ek Ep [_ Hu]. specialize (Hu false 20%Z).
    change (ep_squares v3 false) with (ep_black v3) in Hu.
    rewrite Ek, Ep in Hu. discriminate Hu. by apply list_elem_of_singleton.
Qed.

Lemma C7_rights_kept_witness :
  view (mk_store both_rights) 0 = Some both_rights /\
  rights_kept both_rights /\
  orthodox_double_step both_rights g2g4 /\
  (exists h' v',
      next_player 0 (mk_store both_rights) = (inr tt, h') /\
      view h' 0 = Some v' /\ rights_kept v') /\
  exists h' v',
    push 0 g2g4 true (mk_store both_rights) = (inr tt, h') /\
    view h' 0 = Some v' /\ rights_kept v'.
Proof.
  assert (Hk : rights_kept both_rights).
  { split; [split|split]; simpl.
    - intros sq Hin. by apply list_elem_of_singleton in Hin as ->.
    - intros sq Hin. by apply list_elem_of_singleton in Hin as ->.
    - apply NoDup_singleton.
    - apply NoDup_singleton. }
  assert (Ho : orthodox_double_step both_rights g2g4)
    by (intros _ _; split; reflexivity).
  assert (E : push 0 g2g4 true (mk_store both_rights)
              = (inr tt, snd (push 0 g2g4 true (mk_store both_rights))))
    by (vm_compute; reflexivity).
  split; [reflexivity|]. split; [exact Hk|]. split; [exact Ho|].
  destruct (C7_rights_kept (mk_store both_rights) 0 both_rights eq_refl Hk)
    as (_ & (h1 & v1 & E1 & Hv1 & Hk1 & _) & _ & Hpush).
  split.
  - exists h1, v1. split; [exact E1|]. split; [exact Hv1 | exact Hk1].
  - destruct (Hpush g2g4 true _ Ho E) as (v' & Hv' & Hk').
    eexists _, v'. split; [exact E|]. split; [exact Hv' | exact Hk'].
Defined.

Lemma C8_get_moves_dice_count_witness :
  (view (mk_store no_dice) 0 = Some no_dice /\
   length (dice_roll no_dice) = 0 /\
   get_moves 0 (mk_store no_dice) = (inr [], mk_store no_dice)) /\
  (view (mk_store four_dice) 0 = Some four_dice /\
   3 < length (dice_roll four_dice) /\
   get_moves 0 (mk_store four_dice) = (inl ValueError, mk_store four_dice)).
Proof.
  assert (H4 : 3 < length (dice_roll four_dice)) by (simpl; lia).
  split.
  - split; [reflexivity|]. split; [reflexivity|].
    exact (proj1 (C8_get_moves_dice_count (mk_store no_dice) 0 no_dice
                    eq_refl) eq_refl).
  - split; [reflexivity|]. split; [exact H4|].
    exact (proj2 (C8_get_moves_dice_count (mk_store four_dice) 0 four_dice
                    eq_refl) H4).
Defined.

(** C9 at its failing input: [is_game_over] answers [True] for the pawn
    move d4-e3, the last move that [get_moves] returns there, although
    the king on e3 belongs to the side to move. *)
Lemma C9_failing_input :
  let h := mk_store king_on_right in
  is_game_over 0 d4e3 h = (inr true, h) /\
  turn (board king_on_right) = BLACK /\
  piece_at (board king_on_right) (to_square d4e3)
  = Some (mkPiece KING BLACK) /\
  piece_at (board king_on_right) (to_square d4e3)
  <> Some (mkPiece KING (negb (turn (board king_on_right)))) /\
  match fst (get_moves 0 h) with
  | inr moves => last moves
  | inl _ => None
  end = Some d4e3.
Proof.
  cbv zeta. split; [vm_compute; reflexivity|]. split; [reflexivity|].
  split; [reflexivity|]. split; [vm_compute; discriminate|].
  vm_compute. reflexivity.
Qed.

(** C10 fails as stated: the move e3-e4 starts on an empty square of the
    start position, and [push] without [make_changes] raises
    [AssertionError] instead of applying a board move. *)
Lemma C10_counterexample :
  piece_at (board opening) (from_square e3e4) = None /\
  fst (push 0 e3e4 false (mk_store opening)) = inl AssertionError.
Proof. split; vm_compute; reflexivity. Qed.

Lemma C10_push_without_changes_witness :
  view (mk_store en_passant) 0 = Some en_passant /\
  engine_asserts (board en_passant) d5e6 = false /\
  exists h' v',
    push 0 d5e6 false (mk_store en_passant) = (inr tt, h') /\
    view h' 0 = Some v' /\
    dice_roll v' = [PAWN] /\ ep_white v' = [44%Z] /\ ep_black v' = [].
Proof.
  assert (Ea : engine_asserts (board en_passant) d5e6 = false)
    by (vm_compute; reflexivity).
  split; [reflexivity|]. split; [exact Ea|].
  pose proof (C10_push_without_changes (mk_store en_passant) 0 en_passant
                d5e6 eq_refl) as Hc.
  rewrite Ea in Hc. destruct Hc as (h' & v' & E & Hv & Hd & Hw & Hk & _).
  exists h', v'. split; [exact E|]. split; [exact Hv|].
  split; [exact Hd|]. split; [exact Hw | exact Hk].
Defined.

End Instances.

(** ** Further properties of the module *)

Section Further.
Context {B : Type} `{BoardEngineLaws B} `{BoardSan B}.

Implicit Types (h hb : store B) (v : DiceBoardV B) (ly : layout).

#[local] Arguments bind : simpl never.

Ltac differ :=
  first
    [ congruence
    | let E := fresh in intros E; rewrite E in *; congruence
    | let E := fresh in intros E; rewrite <- E in *; congruence ].

(** *** Copies are independent *)

Lemma repr_distinct h p ly v :
  repr h p ly v ->
  p <> l_dict ly /\ p <> l_white ly /\ p <> l_black ly /\ p <> l_dice ly /\
  l_dict ly <> l_white ly /\ l_dict ly <> l_black ly /\ l_dict ly <> l_dice ly /\
  l_white ly <> l_dice ly /\ l_black ly <> l_dice ly.
Proof. intros [Rs Rd Rw Rk Rdi Rne]. repeat split; differ. Qed.

Lemma cells_sub h p ly v : repr h p ly v -> cells p ly v ⊆ h.
Proof.
  intros [Rs Rd Rw Rk Rdi Rne]. apply map_subseteq_spec. intros i x.
  unfold cells. rewrite !lookup_insert_Some, lookup_singleton_Some.
  intros [[<- <-]|[_ [[<- <-]|[_ [[<- <-]|[_ [[<- <-]|[_ [<- <-]]]]]]]]];
    assumption.
Qed.

Lemma repr_cells h p ly v : repr h p ly v -> repr (cells p ly v) p ly v.
Proof.
  intros Hr. destruct (repr_distinct _ _ _ _ Hr)
    as (N1 & N2 & N3 & N4 & N5 & N6 & N7 & N8 & N9).
  pose proof (repr_sep _ _ _ _ Hr) as N0.
  unfold cells. split; try assumption;
    repeat (rewrite lookup_insert_ne by congruence);
    first [apply lookup_insert_eq | apply lookup_singleton_eq].
Qed.

Lemma cells_lookup_None p ly v i :
  i <> p -> i <> l_dict ly -> i <> l_white ly -> i <> l_black ly ->
  i <> l_dice ly -> cells p ly v !! i = None.
Proof.
  intros. unfold cells.
  rewrite !lookup_insert_ne by congruence. by apply lookup_singleton_ne.
Qed.

(** Two board objects of a store that share no cell: the second lies
    outside the cells of the first. *)
Lemma owns_beside h self ly v p ly' v' :
  repr h self ly v -> repr h p ly' v' -> outside (cells p ly' v') self ly ->
  owns (cells p ly' v') h self ly v.
Proof. intros Hr Hp Ho. split; [by apply cells_sub | exact Hr | exact Ho]. Qed.

Lemma outside_cells_of_fresh h h1 self ly v p ly' v' :
  repr h self ly v -> owns h h1 p ly' v' -> outside (cells p ly' v') self ly.
Proof.
  intros [Rs Rd Rw Rk Rdi Rne] [_ _ (F1 & F2 & F3 & F4 & F5)].
  repeat split; apply cells_lookup_None; differ.
Qed.

(** X1.  [copy] returns a new object that holds the same board, rights
    and dice as the original; no object of the store before is written,
    and the new object is none of them. *)
Theorem copy_is_new h self v :
  view h self = Some v ->
  exists p h',
    copy self h = (inr p, h') /\ h ⊆ h' /\ h !! p = None /\
    view h' p = Some v /\ view h' self = Some v.
Proof.
  intros Hv. apply view_repr in Hv as [ly Hr].
  destruct (copy_owns _ _ _ _ Hr) as (h' & p & ly' & E & Ho).
  exists p, h'. split; [exact E|]. split; [apply Ho|].
  split; [apply Ho|]. split; [exact (owns_view _ _ _ _ _ Ho)|].
  apply view_repr. exists ly. eapply repr_mono; [apply Ho | exact Hr].
Qed.

(** X2.  After [copy], a [push] or a [next_player] on the copy leaves the
    original as it was, and one on the original leaves the copy as it
    was, whether the call returns or raises. *)
Theorem copy_is_independent h self v p h1 mv mc :
  view h self = Some v ->
  copy self h = (inr p, h1) ->
  view (snd (push p mv mc h1)) self = Some v /\
  view (snd (next_player p h1)) self = Some v /\
  view (snd (push self mv mc h1)) p = Some v /\
  view (snd (next_player self h1)) p = Some v.
Proof.
  intros Hv Ec. apply view_repr in Hv as [ly Hr].
  destruct (copy_owns _ _ _ _ Hr) as (h1' & p' & ly' & E & Ho).
  rewrite Ec in E. injection E as <- <-.
  assert (Hr1 : repr h1 self ly v) by (eapply repr_mono; [apply Ho | exact Hr]).
  pose proof (owns_repr _ _ _ _ _ Ho) as Hp.
  pose proof (owns_beside _ _ _ _ _ _ _ Hr1 Hp
                (outside_cells_of_fresh _ _ _ _ _ _ _ _ Hr Ho)) as Hbeside.
  split; [|split; [|split]].
  - destruct (push_sim _ _ _ _ _ mv mc Ho) as (h2 & E & Hsub & _).
    rewrite E. simpl. apply view_repr. exists ly. by eapply repr_mono.
  - destruct (next_player_sim _ _ _ _ _ Ho) as (h2 & ly2 & E & Ho2).
    rewrite E. simpl. apply view_repr. exists ly.
    eapply repr_mono; [apply Ho2 | exact Hr].
  - destruct (push_sim _ _ _ _ _ mv mc Hbeside) as (h2 & E & Hsub & _).
    rewrite E. simpl. apply view_repr. exists ly'.
    eapply repr_mono; [exact Hsub | by eapply repr_cells].
  - destruct (next_player_sim _ _ _ _ _ Hbeside) as (h2 & ly2 & E & Ho2).
    rewrite E. simpl. apply view_repr. exists ly'.
    eapply repr_mono; [apply Ho2 | by eapply repr_cells].
Qed.

(** *** What [get_moves] returns *)

(** X3.  The result of [get_moves] is decided by what the board object
    holds: two board objects with the same board, rights and dice, in
    whatever stores, get the same answer (in particular a board and its
    copy). *)
Theorem get_moves_by_value h1 self1 h2 self2 v :
  view h1 self1 = Some v ->
  view h2 self2 = Some v ->
  fst (get_moves self1 h1) = fst (get_moves self2 h2).
Proof.
  intros Hv1 Hv2.
  apply view_repr in Hv1 as [ly1 Hr1]. apply view_repr in Hv2 as [ly2 Hr2].
  destruct (get_moves_sim _ _ _ _ Hr1) as (h1' & _ & ->).
  destruct (get_moves_sim _ _ _ _ Hr2) as (h2' & _ & ->).
  reflexivity.
Qed.

Lemma dice_allow_v_spec v m :
  dice_allow_v v m = true <->
  (is_castling (board v) m = true /\ KING ∈ dice_roll v /\ ROOK ∈ dice_roll v)
  \/ (is_castling (board v) m = false /\
      exists p, piece_at (board v) (from_square m) = Some p
                /\ piece_type p ∈ dice_roll v).
Proof.
  unfold dice_allow_v. destruct (is_castling (board v) m); simpl.
  - rewrite andb_true_iff, !bool_decide_eq_true. split.
    + intros [? ?]. by left.
    + intros [(_ & ? & ?)|[? _]]; [done | discriminate].
  - rewrite orb_false_r. destruct (piece_at (board v) (from_square m)) as [p|].
    + rewrite bool_decide_eq_true. split.
      * intros ?. right. split; [done|]. by exists p.
      * intros [[? _]|(_ & q & [= <-] & ?)]; [discriminate|done].
    + split; [discriminate|].
      intros [[? _]|(_ & q & ? & _)]; discriminate.
Qed.

(** X4.  With one die left, [get_moves] reads the store without writing
    it, and every move it returns starts on a piece of the type of that
    die and is no castling move. *)
Theorem get_moves_one_die h self v t :
  view h self = Some v ->
  dice_roll v = [t] ->
  exists moves,
    get_moves self h = (inr moves, h) /\
    forall m, m ∈ moves ->
      is_castling (board v) m = false /\
      exists c, piece_at (board v) (from_square m) = Some (mkPiece t c).
Proof.
  intros Hv Hd. apply view_repr in Hv as [ly Hr].
  exists (_get_pseudo_moves_v v). split.
  - unfold get_moves.
    rewrite (bind_eq _ _ _ _ _ (get_dice_roll_repr _ _ _ _ Hr)), Hd. simpl.
    by eapply _get_pseudo_moves_repr.
  - intros m Hm. apply _get_pseudo_moves_v_allow, dice_allow_v_spec in Hm.
    rewrite Hd in Hm. destruct Hm as [(_ & Hk & Hrk)|(Hc & [t' c] & Hp & Ht)].
    + apply list_elem_of_singleton in Hk, Hrk. congruence.
    + apply list_elem_of_singleton in Ht. simpl in Ht. subst t'.
      split; [exact Hc|]. by exists c.
Qed.

Lemma select_moves_v_sublist v l cl mx :
  select_moves_v v l cl mx `sublist_of` l.
Proof.
  unfold select_moves_v. revert cl.
  induction l as [|m l IH]; intros cl; [by destruct cl|].
  destruct cl as [|c cl]; simpl; [apply sublist_nil_l|].
  destruct (_ || _); simpl.
  - apply sublist_skip, IH.
  - apply sublist_cons, IH.
Qed.

Lemma get_moves_v_sublist v moves :
  get_moves_v v = inr moves -> moves `sublist_of` _get_pseudo_moves_v v.
Proof.
  unfold get_moves_v, _get_moves_2_v, _get_moves_3_v.
  destruct (length (dice_roll v)) as [|[|[|[|n]]]].
  - intros [= <-]. apply sublist_nil_l.
  - by intros [= <-].
  - destruct (counts_2_v _ _ _) as [e|st]; [discriminate|].
    intros [= <-]. apply select_moves_v_sublist.
  - destruct (counts_3_v _ _ _) as [e|st]; [discriminate|].
    intros [= <-]. apply select_moves_v_sublist.
  - discriminate.
Qed.

(** X5.  Whatever the dice, the moves [get_moves] returns are candidates
    of [_get_pseudo_moves], in the order of generation: each is a
    castling move with a king and a rook among the dice, or starts on a
    piece whose type is among the dice. *)
Theorem get_moves_are_candidates h self v moves h' :
  view h self = Some v ->
  get_moves self h = (inr moves, h') ->
  exists cands,
    _get_pseudo_moves self h = (inr cands, h) /\
    moves `sublist_of` cands /\
    forall m, m ∈ moves ->
      (is_castling (board v) m = true
       /\ KING ∈ dice_roll v /\ ROOK ∈ dice_roll v)
      \/ (is_castling (board v) m = false /\
          exists p, piece_at (board v) (from_square m) = Some p
                    /\ piece_type p ∈ dice_roll v).
Proof.
  intros Hv Eg. apply view_repr in Hv as [ly Hr].
  destruct (get_moves_sim _ _ _ _ Hr) as (h2 & _ & E).
  rewrite Eg in E. injection E as Ev _. symmetry in Ev.
  exists (_get_pseudo_moves_v v).
  split; [by eapply _get_pseudo_moves_repr|].
  pose proof (get_moves_v_sublist _ _ Ev) as Hsub. split; [exact Hsub|].
  intros m Hm. apply dice_allow_v_spec, _get_pseudo_moves_v_allow.
  by eapply elem_of_sublist.
Qed.

Lemma max_depth_attained {A} (d : A -> nat) l :
  l <> [] -> (forall m, (1 <= d m)%nat) ->
  exists m, m ∈ l /\ d m = max_depth (map d l).
Proof.
  intros Hne Hd. induction l as [|x l IH]; [done|].
  destruct l as [|y l].
  - exists x. split; [by left|]. simpl. specialize (Hd x). lia.
  - destruct (IH ltac:(done)) as (m & Hm & Em).
    unfold max_depth in *. simpl in *.
    destruct (Nat.max_spec (d x) (Nat.max (d y) (foldr Nat.max 1%nat (map d l))))
      as [[_ E]|[_ E]]; rewrite E.
    + exists m. split; [by right | exact Em].
    + exists x. split; [by left | reflexivity].
Qed.

Lemma filter_nil_iff_max {A} (d : A -> nat) (g : A -> bool) l :
  (forall m, (1 <= d m)%nat) ->
  List.filter (fun m => (d m =? max_depth (map d l))%nat || g m) l = []
  <-> l = [].
Proof.
  intros Hd. split; [|by intros ->].
  intros Hf. destruct l as [|x l]; [done|]. exfalso.
  destruct (max_depth_attained d (x :: l) ltac:(done) Hd) as (m & Hm & Em).
  assert (Hin : In m (List.filter
                        (fun m => (d m =? max_depth (map d (x :: l)))%nat
                                  || g m) (x :: l))).
  { apply filter_In. split; [by apply list_elem_of_In|].
    apply orb_true_intro. left. by apply Nat.eqb_eq. }
  rewrite Hf in Hin. inversion Hin.
Qed.

Lemma depth_2_v_pos v m : (1 <= depth_2_v v m)%nat.
Proof. unfold depth_2_v. destruct (_ || _); lia. Qed.

Lemma depth_3_v_pos v m : (1 <= depth_3_v v m)%nat.
Proof.
  unfold depth_3_v.
  destruct (is_castling (board v) m), (has_continuation_v v m),
    (continues_twice_v v m); lia.
Qed.

(** *** When the lookahead cannot fail *)

Lemma no_right_no_capture v m mc :
  ep_squares v (turn (board v)) = [] -> is_ep_capture_v m mc v = false.
Proof.
  unfold is_ep_capture_v. intros ->.
  rewrite (bool_decide_eq_false_2 _ (not_elem_of_nil _)).
  by rewrite andb_false_r.
Qed.

(** A side that holds no right keeps none when it pushes a candidate,
    and the push returns. *)
Lemma candidate_push_no_right v m :
  ep_squares v (turn (board v)) = [] -> dice_allow_v v m = true ->
  exists v1, push_v m true v = inr v1 /\ ep_squares v1 (turn (board v1)) = [].
Proof.
  intros He Ha. pose proof (no_right_no_capture v m true He) as Hn.
  destruct (candidate_push_ok v m Ha) as [v1 Ev].
  { unfold takes_itself. by rewrite Hn. }
  exists v1. split; [exact Ev|].
  destruct (push_v_true_inv _ _ _ Ev) as (Hb & Hc & _).
  rewrite Hn in Hb, Hc.
  by rewrite Hb, turn_set_ep_square, turn_set_turn, Hc.
Qed.

Lemma counts_2_v_returns v ims :
  ep_squares v (turn (board v)) = [] ->
  (forall im, im ∈ ims -> dice_allow_v v (snd im) = true) ->
  forall st, exists r, counts_2_v v ims st = inr r.
Proof.
  intros He. induction ims as [|im ims IH]; intros Hall st; simpl; [eauto|].
  assert (Hall' : forall im', im' ∈ ims -> dice_allow_v v (snd im') = true)
    by (intros im' Hin; apply Hall; by right).
  destruct (is_castling (board v) (snd im)); [by apply IH|].
  unfold continuations_v.
  destruct (candidate_push_no_right v (snd im) He (Hall im ltac:(by left)))
    as (v1 & -> & _).
  destruct (0 <? _)%nat; by apply IH.
Qed.

Lemma second_step_v_returns v1 pms :
  ep_squares v1 (turn (board v1)) = [] ->
  (forall m, m ∈ pms -> dice_allow_v v1 m = true) ->
  exists b, second_step_v v1 pms = inr b.
Proof.
  intros He. induction pms as [|m pms IH]; intros Hall; simpl; [eauto|].
  destruct (is_castling (board v1) m); [eauto|].
  unfold continuations_v.
  destruct (candidate_push_no_right v1 m He (Hall m ltac:(by left)))
    as (v2 & -> & _).
  destruct (0 <? _)%nat; [eauto|].
  apply IH. intros m' Hin. apply Hall. by right.
Qed.

Lemma counts_3_v_returns v ims :
  ep_squares v (turn (board v)) = [] ->
  (forall im, im ∈ ims -> dice_allow_v v (snd im) = true) ->
  forall st, exists r, counts_3_v v ims st = inr r.
Proof.
  intros He. induction ims as [|im ims IH]; intros Hall st; simpl; [eauto|].
  assert (Hall' : forall im', im' ∈ ims -> dice_allow_v v (snd im') = true)
    by (intros im' Hin; apply Hall; by right).
  destruct (candidate_push_no_right v (snd im) He (Hall im ltac:(by left)))
    as (v1 & -> & He1).
  destruct (is_castling (board v) (snd im)).
  - destruct (0 <? _)%nat; by apply IH.
  - destruct (0 <? _)%nat; [|by apply IH].
    destruct (second_step_v_returns v1 (_get_pseudo_moves_v v1) He1
                (_get_pseudo_moves_v_allow v1)) as [b ->].
    destruct b; by apply IH.
Qed.

(** With at most three dice, the value-level [get_moves] returns when
    the side to move holds no right. *)
Lemma get_moves_v_returns v :
  ep_squares v (turn (board v)) = [] ->
  (length (dice_roll v) <= 3)%nat -> exists moves, get_moves_v v = inr moves.
Proof.
  intros He Hlen. unfold get_moves_v.
  assert (Hall : forall im : nat * Move,
             im ∈ enumerate (_get_pseudo_moves_v v) ->
             dice_allow_v v (snd im) = true).
  { intros [i m] Hin. apply _get_pseudo_moves_v_allow.
    unfold enumerate in Hin. by apply elem_of_zip_r in Hin. }
  destruct (length (dice_roll v)) as [|[|[|[|n]]]]; try lia.
  - by eexists.
  - by eexists.
  - unfold _get_moves_2_v.
    destruct (counts_2_v_returns v _ He Hall
                (replicate (length (_get_pseudo_moves_v v)) 1%nat, 1%nat))
      as [r ->]. by eexists.
  - unfold _get_moves_3_v.
    destruct (counts_3_v_returns v _ He Hall
                (replicate (length (_get_pseudo_moves_v v)) 1%nat, 1%nat))
      as [r ->]. by eexists.
Qed.

(** X6.  With at most three dice [get_moves] returns whenever the side
    to move holds no en-passant right; and whenever it returns, with one
    to three dice, the list is empty exactly when there is no candidate:
    the depth filter never removes every candidate. *)
Theorem get_moves_empty_iff h self v :
  view h self = Some v ->
  (length (dice_roll v) <= 3)%nat ->
  (ep_squares v (turn (board v)) = [] ->
   exists moves h', get_moves self h = (inr moves, h')) /\
  forall moves h',
    get_moves self h = (inr moves, h') ->
    (1 <= length (dice_roll v))%nat ->
    (moves = [] <-> _get_pseudo_moves self h = (inr [], h)).
Proof.
  intros Hv Hlen. apply view_repr in Hv as [ly Hr].
  destruct (get_moves_sim _ _ _ _ Hr) as (h1 & _ & E). split.
  { intros He. destruct (get_moves_v_returns v He Hlen) as [moves Em].
    rewrite Em in E. by exists moves, h1. }
  intros moves h' Eg Hpos. rewrite Eg in E. injection E as Ev _.
  symmetry in Ev.
  rewrite (_get_pseudo_moves_repr _ _ _ _ Hr).
  assert (Hc : forall l : list Move,
             (inr l : exn + list Move, h) = (inr [], h) <-> l = []).
  { intros l. split; [by intros [= ->] | by intros ->]. }
  rewrite Hc. unfold get_moves_v in Ev.
  destruct (length (dice_roll v)) as [|[|[|[|n]]]]; try lia.
  - by injection Ev as <-.
  - destruct (_get_moves_2_v_spec v moves Ev) as [_ ->].
    apply filter_nil_iff_max, depth_2_v_pos.
  - destruct (_get_moves_3_v_spec v moves Ev) as [_ ->].
    apply filter_nil_iff_max, depth_3_v_pos.
Qed.

(** *** [push] and the dice *)

Lemma list_remove_first_length {A} `{EqDecision A} (x : A) l l' :
  list_remove_first x l = Some l' -> length l = S (length l').
Proof.
  revert l'. induction l as [|y l IH]; intros l'; simpl; [discriminate|].
  destruct (decide (x = y)); [by intros [= <-]|].
  destruct (list_remove_first x l) as [l0|]; [|discriminate].
  intros [= <-]. simpl. f_equal. by apply IH.
Qed.

Lemma list_remove_first_sublist {A} `{EqDecision A} (x : A) l l' :
  list_remove_first x l = Some l' -> l' `sublist_of` l.
Proof.
  revert l'. induction l as [|y l IH]; intros l'; simpl; [discriminate|].
  destruct (decide (x = y)); [intros [= <-]; by apply sublist_cons|].
  destruct (list_remove_first x l) as [l0|]; [|discriminate].
  intros [= <-]. apply sublist_skip. by apply IH.
Qed.

Lemma list_remove_first_keeps {A} `{EqDecision A} (x y : A) l l' :
  list_remove_first x l = Some l' -> y ∈ l -> y <> x -> y ∈ l'.
Proof.
  revert l'. induction l as [|z l IH]; intros l'; simpl; [discriminate|].
  destruct (decide (x = z)) as [->|Hne].
  - intros [= <-] Hy Hyx. apply elem_of_cons in Hy as [?|?]; [congruence|done].
  - destruct (list_remove_first x l) as [l0|]; [|discriminate].
    intros [= <-] Hy Hyx. apply elem_of_cons in Hy as [->|Hy]; [by left|].
    right. by apply IH.
Qed.

Lemma list_remove_first_absent {A} `{EqDecision A} (x : A) l :
  x ∉ l -> list_remove_first x l = None.
Proof.
  induction l as [|y l IH]; intros Hx; simpl; [done|].
  apply not_elem_of_cons in Hx as [Hne Hx].
  destruct (decide (x = y)); [done|]. by rewrite IH.
Qed.

Lemma push_capture_v_dice mv mc v v1 :
  push_capture_v mv mc v = inr v1 -> dice_roll v1 = dice_roll v.
Proof.
  unfold push_capture_v. destruct (is_ep_capture_v mv mc v).
  - destruct (list_remove_first _ _); [|discriminate].
    intros [= <-]. by destruct (turn (board v)).
  - by intros [= <-].
Qed.

Lemma dice_roll_push_rights_v mv opp v :
  dice_roll (push_rights_v mv opp v) = dice_roll v.
Proof.
  unfold push_rights_v. destruct (grants_right_v mv opp v); [|done].
  by destruct opp.
Qed.

(** The dice after a [push] with [make_changes]. *)
Lemma push_v_true_dice v mv v' :
  push_v mv true v = inr v' ->
  exists p,
    piece_at (board v) (from_square mv) = Some p /\
    dice_roll v'
    = match list_remove_first (piece_type p) (dice_roll v) with
      | None => dice_roll v
      | Some d1 =>
          if is_castling (board v) mv then
            match list_remove_first ROOK d1 with
            | None => d1
            | Some d2 => d2
            end
          else d1
      end.
Proof.
  unfold push_v.
  destruct (push_capture_v mv true v) as [e|v1] eqn:Ec; [discriminate|].
  apply push_capture_v_dice in Ec.
  destruct (push_base_v mv (turn (board v)) v1) as [e|v2] eqn:Eb;
    [discriminate|].
  apply push_base_v_inv in Eb as [_ ->].
  destruct (piece_at (board v) (from_square mv)) as [p|]; [|discriminate].
  unfold push_dice_v. simpl. rewrite Ec.
  intros E. exists p. split; [reflexivity|].
  destruct (list_remove_first (piece_type p) (dice_roll v)) as [d1|];
    [destruct (is_castling (board v) mv);
     [destruct (list_remove_first ROOK d1) as [d2|]|]|];
    injection E as <-;
    (destruct (_ && true);
     [by rewrite dice_roll_push_rights_v | done]).
Qed.

(** X7.  Pushing a candidate of [_get_pseudo_moves] with [make_changes]
    raises [AssertionError] when the candidate is a pawn step straight
    onto an empty right of its own side, for [push] then removes the
    moving pawn before the engine moves it.  For every other candidate
    the call returns and consumes its dice: the roll loses exactly one
    die, or exactly two for a castling move, and gains none. *)
Theorem push_consumes_dice h self v cands m :
  view h self = Some v ->
  _get_pseudo_moves self h = (inr cands, h) ->
  m ∈ cands ->
  if takes_itself v m
  then fst (push self m true h) = inl AssertionError
  else
    (exists h' v',
       push self m true h = (inr tt, h') /\
       view h' self = Some v' /\
       dice_roll v' `sublist_of` dice_roll v /\
       length (dice_roll v)
       = (length (dice_roll v')
          + if is_castling (board v) m then 2 else 1)%nat).
Proof.
  intros Hv Ec Hm. apply view_repr in Hv as [ly Hr].
  rewrite (_get_pseudo_moves_repr _ _ _ _ Hr) in Ec. injection Ec as <-.
  apply _get_pseudo_moves_v_allow in Hm.
  destruct (push_sim ∅ _ _ _ _ m true (owns_empty _ _ _ _ Hr))
    as (h' & E & _ & Ho).
  destruct (takes_itself v m) eqn:Et.
  { rewrite E, (push_v_raises v m true).
    - destruct (piece_at (board v) (from_square m)) eqn:Ep;
        [by rewrite andb_false_r | by destruct (candidate_piece _ _ Hm)].
    - unfold push_returns. rewrite Et. apply andb_false_r. }
  destruct (candidate_push_ok _ _ Hm Et) as [v' Ev].
  rewrite Ev in E. specialize (Ho _ Ev).
  exists h', v'. split; [exact E|].
  split; [exact (owns_view _ _ _ _ _ Ho)|].
  destruct (push_v_true_dice _ _ _ Ev) as (p & Hp & ->).
  apply dice_allow_v_spec in Hm.
  destruct Hm as [(Hc & Hk & Hrk)|(Hc & q & Hq & Ht)]; rewrite Hc.
  - destruct (is_castling_piece _ _ Hc) as [c Hking].
    rewrite Hp in Hking. injection Hking as ->. simpl.
    destruct (list_remove_first_elem _ _ Hk) as [d1 E1]. rewrite E1.
    assert (Hr1 : ROOK ∈ d1)
      by (eapply list_remove_first_keeps; [exact E1 | exact Hrk | done]).
    destruct (list_remove_first_elem _ _ Hr1) as [d2 E2]. rewrite E2.
    split.
    + etransitivity; by eapply list_remove_first_sublist.
    + rewrite (list_remove_first_length _ _ _ E1),
              (list_remove_first_length _ _ _ E2). lia.
  - rewrite Hp in Hq. injection Hq as <-.
    destruct (list_remove_first_elem _ _ Ht) as [d1 E1]. rewrite E1.
    split; [by eapply list_remove_first_sublist|].
    rewrite (list_remove_first_length _ _ _ E1). lia.
Qed.

(** X8.  When the type of the moved piece is not among the dice, and
    the move is not a pawn step that [push] answers by removing the
    moving pawn, [push] with [make_changes] swallows the [ValueError] and
    leaves the roll as it is, also for a castling move with a rook among
    the dice. *)
Theorem push_absent_die h self v m p :
  view h self = Some v ->
  piece_at (board v) (from_square m) = Some p ->
  piece_type p ∉ dice_roll v ->
  takes_itself v m = false ->
  exists h' v',
    push self m true h = (inr tt, h') /\
    view h' self = Some v' /\
    dice_roll v' = dice_roll v.
Proof.
  intros Hv Hp Ht Hs. apply view_repr in Hv as [ly Hr].
  destruct (push_v_returns v m true) as [v' Ev].
  { unfold push_returns. by rewrite Hp, Hs. }
  destruct (push_sim ∅ _ _ _ _ m true (owns_empty _ _ _ _ Hr))
    as (h' & E & _ & Ho).
  rewrite Ev in E. specialize (Ho _ Ev).
  exists h', v'. split; [exact E|].
  split; [exact (owns_view _ _ _ _ _ Ho)|].
  destruct (push_v_true_dice _ _ _ Ev) as (q & Hq & ->).
  rewrite Hp in Hq. injection Hq as <-.
  by rewrite (list_remove_first_absent _ _ Ht).
Qed.

(** X9.  A [push] that returns, with or without [make_changes], leaves
    the turn with the side that moved and the standard en-passant square
    unset, so the same side can move again. *)
Theorem push_keeps_turn h self v mv mc h' :
  view h self = Some v ->
  push self mv mc h = (inr tt, h') ->
  exists v',
    view h' self = Some v' /\
    turn (board v') = turn (board v) /\
    ep_square (board v') = None.
Proof.
  intros Hv Ep. apply view_repr in Hv as [ly Hr].
  destruct (push_sim ∅ _ _ _ _ mv mc (owns_empty _ _ _ _ Hr))
    as (h2 & E & _ & Ho).
  rewrite Ep in E. injection E as Eo <-.
  destruct (push_v mv mc v) as [e|v'] eqn:Ev; [discriminate|].
  specialize (Ho _ eq_refl). exists v'.
  split; [exact (owns_view _ _ _ _ _ Ho)|].
  destruct mc.
  - destruct (push_v_true_inv _ _ _ Ev) as (-> & _).
    by rewrite turn_set_ep_square, turn_set_turn, ep_square_set_ep_square.
  - rewrite push_v_false in Ev. apply push_base_v_inv in Ev as [_ ->]. simpl.
    by rewrite turn_set_ep_square, turn_set_turn, ep_square_set_ep_square.
Qed.

(** *** The custom en-passant moves *)

Lemma custom_ep_moves_eq (b : B) color ep_sq moves :
  custom_ep_moves b color ep_sq moves
  = moves ++ (custom_ep_move color ep_sq
                <$> List.filter (custom_ep_ok b color ep_sq) [-1; 1]).
Proof.
  unfold custom_ep_moves, custom_ep_ok, custom_ep_move. cbv zeta. simpl.
  repeat match goal with
         | |- context [Z.leb ?a ?b] => destruct (Z.leb a b)
         | |- context [is_piece ?t ?c ?p] => destruct (is_piece t c p)
         end;
    simpl; rewrite ?app_nil_r, <- ?app_assoc; reflexivity.
Qed.

Lemma pseudo_legal_moves_dice_v_eq v :
  pseudo_legal_moves_dice_v v
  = pseudo_legal_moves (board v)
    ++ concat (map (fun ep_sq =>
                      custom_ep_move (turn (board v)) ep_sq
                        <$> List.filter
                              (custom_ep_ok (board v) (turn (board v)) ep_sq)
                              [-1; 1])
                 (ep_squares v (turn (board v)))).
Proof.
  unfold pseudo_legal_moves_dice_v.
  generalize (pseudo_legal_moves (board v)) as base.
  induction (ep_squares v (turn (board v))) as [|ep_sq l IH]; intros base.
  - simpl. by rewrite app_nil_r.
  - simpl. rewrite IH, custom_ep_moves_eq. by rewrite <- app_assoc.
Qed.

Lemma custom_ep_spec v m :
  custom_ep v m <->
  exists ep_sq df,
    ep_sq ∈ ep_squares v (turn (board v)) /\ df ∈ [-1; 1] /\
    custom_ep_ok (board v) (turn (board v)) ep_sq df = true /\
    m = custom_ep_move (turn (board v)) ep_sq df.
Proof.
  unfold custom_ep, custom_ep_ok, custom_ep_move. cbv zeta.
  split; intros (ep_sq & df & Hin & Hrest); exists ep_sq, df;
    (split; [exact Hin|]).
  - destruct Hrest as (Hdf & [Hlo Hhi] & -> & Hp & Hc). simpl in Hp.
    split; [rewrite !elem_of_cons; tauto|].
    split; [|reflexivity].
    rewrite !andb_true_iff, !Z.leb_le, !is_piece_true. by repeat split.
  - destruct Hrest as (Hdf & Hok & ->).
    rewrite !andb_true_iff, !Z.leb_le, !is_piece_true in Hok.
    destruct Hok as [[[Hlo Hhi] Hp] Hc].
    split; [|by repeat split].
    rewrite !elem_of_cons in Hdf. destruct Hdf as [?|[?|Hdf]]; [tauto..|].
    by apply elem_of_nil in Hdf.
Qed.

(** X10.  [pseudo_legal_moves_dice] reads the store without writing it.
    It returns the engine's pseudo-legal moves followed by the custom
    en-passant moves, at most two for each right of the side to move; a
    move is in the result exactly when the engine generates it or it is
    such a capture: an own pawn beside the landing square of an opposing
    pawn steps onto a right behind that pawn. *)
Theorem pseudo_legal_moves_dice_spec h self v :
  view h self = Some v ->
  exists moves,
    pseudo_legal_moves_dice self h = (inr moves, h) /\
    pseudo_legal_moves (board v) `prefix_of` moves /\
    (forall m, m ∈ moves <->
               m ∈ pseudo_legal_moves (board v) \/ custom_ep v m) /\
    (length moves
     <= length (pseudo_legal_moves (board v))
        + 2 * length (ep_squares v (turn (board v))))%nat.
Proof.
  intros Hv. apply view_repr in Hv as [ly Hr].
  exists (pseudo_legal_moves_dice_v v).
  split; [by eapply pseudo_legal_moves_dice_repr|].
  rewrite pseudo_legal_moves_dice_v_eq.
  split; [by eexists|]. split.
  - intros m. rewrite elem_of_app, custom_ep_spec.
    apply or_iff_compat_l. rewrite list_elem_of_In, in_concat. split.
    + intros (l & Hl & Hm). apply in_map_iff in Hl as (ep_sq & <- & Hep).
      apply list_elem_of_In, list_elem_of_fmap in Hm as (df & -> & Hdf).
      apply list_elem_of_In, filter_In in Hdf as [Hdf Hok].
      exists ep_sq, df. by rewrite !list_elem_of_In.
    + intros (ep_sq & df & Hep & Hdf & Hok & ->).
      eexists. split.
      * apply in_map_iff. exists ep_sq.
        split; [reflexivity | by apply list_elem_of_In].
      * apply list_elem_of_In, list_elem_of_fmap. exists df.
        split; [reflexivity|].
        apply list_elem_of_In, filter_In. by rewrite <- list_elem_of_In.
  - rewrite length_app. apply Nat.add_le_mono_l.
    induction (ep_squares v (turn (board v))) as [|ep_sq l IH];
      [simpl; lia|].
    cbn [map concat]. rewrite length_app, length_fmap.
    match goal with
    | |- context [List.filter ?f ?l] =>
        pose proof (List.filter_length_le f l) as Hle
    end.
    cbn [length] in *. lia.
Qed.

Lemma square_behind s d : square (square_file s) (square_rank s - d) = s - 8 * d.
Proof.
  unfold square, square_file, square_rank.
  rewrite Z.shiftr_div_pow2 by lia. change 7 with (Z.ones 3).
  rewrite Z.land_ones by lia. change (2 ^ 3) with 8.
  pose proof (Z.div_mod s 8 ltac:(lia)). lia.
Qed.

(** X11.  The generator and [push] agree on the captured pawn: when a
    custom en-passant move that [pseudo_legal_moves_dice] generates is
    pushed with [make_changes] and its destination is empty, the square
    [push] clears is the one on which the generator found the opposing
    pawn, and the right used leaves the mover's right-set. *)
Theorem custom_ep_push h self v m :
  view h self = Some v ->
  custom_ep v m ->
  piece_at (board v) (to_square m) = None ->
  exists h' v',
    let color := turn (board v) in
    let captured_sq := to_square m + (if color then -8 else 8) in
    push self m true h = (inr tt, h') /\
    view h' self = Some v' /\
    piece_at (board v) captured_sq = Some (mkPiece PAWN (negb color)) /\
    board v'
    = set_ep_square None
        (set_turn color
           (base_push m (remove_piece_at captured_sq (board v)))) /\
    list_remove_first (to_square m) (ep_squares v color)
    = Some (ep_squares v' color).
Proof.
  intros Hv (ep_sq & df & Hin & _ & _ & Em & Hp & Hc) Hto.
  apply view_repr in Hv as [ly Hr].
  assert (Eto : to_square m = ep_sq) by (by rewrite Em).
  assert (Ecap : to_square m + (if turn (board v) then -8 else 8)
                 = square (square_file ep_sq)
                     (square_rank ep_sq - (if turn (board v) then 1 else -1))).
  { rewrite square_behind, Eto. destruct (turn (board v)); lia. }
  destruct (push_v_returns v m true) as [v' Ev].
  { apply push_returns_true; [by rewrite Hp|]. intros _.
    unfold ep_capture_square. rewrite Ecap. intros Heq.
    rewrite Heq, Hp in Hc. injection Hc as Hcol.
    by destruct (turn (board v)). }
  destruct (push_sim ∅ _ _ _ _ m true (owns_empty _ _ _ _ Hr))
    as (h' & E & _ & Ho).
  rewrite Ev in E. specialize (Ho _ Ev).
  exists h', v'. cbv zeta. split; [exact E|].
  split; [exact (owns_view _ _ _ _ _ Ho)|].
  split; [by rewrite Ecap|].
  assert (Eep : is_ep_capture_v m true v = true).
  { unfold is_ep_capture_v. rewrite Hp, Hto, Eto. simpl.
    by rewrite bool_decide_eq_true_2. }
  destruct (push_v_true_inv _ _ _ Ev) as (Hb & Hrm & _).
  rewrite Eep in Hb, Hrm. by split.
Qed.

(** *** A new board and the dice roll *)

Ltac fresh_cell l Hf :=
  repeat rewrite bind_assoc;
  match goal with
  | |- context [bind (alloc ?o) _ ?h] =>
      let E := fresh "E" in
      destruct (alloc_fresh o h) as (l & E & Hf);
      rewrite (bind_eq _ _ _ _ _ E); clear E; cbv beta
  | |- context [alloc ?o ?h] =>
      let E := fresh "E" in
      destruct (alloc_fresh o h) as (l & E & Hf);
      rewrite E; clear E
  end;
  repeat (let N := fresh "N" in apply lookup_insert_None in Hf as [Hf N]).

Ltac cell :=
  repeat (rewrite lookup_insert_ne by differ);
  first [ apply lookup_insert_eq | eassumption ].

Lemma new_board_owns h (b : B) :
  exists p ly h',
    new_board b h = (inr p, h') /\ owns h h' p ly (mkDiceBoardV b [] [] []).
Proof.
  unfold new_board.
  fresh_cell l1 F1. fresh_cell l2 F2. fresh_cell l3 F3. fresh_cell l4 F4.
  fresh_cell l5 F5.
  exists l5, (mkLayout l3 l1 l2 l4). eexists. split; [reflexivity|]. split.
  - repeat (apply insert_subseteq_r; [assumption|]). reflexivity.
  - split; simpl; cell.
  - by repeat split.
Qed.

(** X12.  A newly constructed board is a new object with no rights for
    either side and no dice, and [get_moves] on it returns the empty list
    without error: nothing can be played before the dice are rolled. *)
Theorem new_board_has_no_moves h (b : B) :
  exists p h',
    new_board b h = (inr p, h') /\ h ⊆ h' /\ h !! p = None /\
    view h' p = Some (mkDiceBoardV b [] [] []) /\
    get_moves p h' = (inr [], h').
Proof.
  destruct (new_board_owns h b) as (p & ly & h' & E & Ho).
  exists p, h'. split; [exact E|]. split; [apply Ho|].
  split; [apply Ho|]. split; [exact (owns_view _ _ _ _ _ Ho)|].
  unfold get_moves.
  by rewrite (bind_eq _ _ _ _ _ (get_dice_roll_repr _ _ _ _ (owns_repr _ _ _ _ _ Ho))).
Qed.

Lemma pieces_list_lookup (n : nat) :
  exists t, pieces_list !! (n mod length pieces_list)%nat = Some t.
Proof.
  apply lookup_lt_is_Some. apply Nat.mod_upper_bound. simpl. lia.
Qed.

Lemma roll_dices_sim h self ly v (rnd : nat -> nat) :
  repr h self ly v ->
  exists r t0 t1 t2,
    pieces_list !! (rnd 0 mod 6)%nat = Some t0 /\
    pieces_list !! (rnd 1 mod 6)%nat = Some t1 /\
    pieces_list !! (rnd 2 mod 6)%nat = Some t2 /\
    h !! r = None /\
    roll_dices self rnd h
    = (inr tt,
       <[self := OBoard (board v) (l_dict ly) r]>
         (<[r := ODice [t0; t1; t2]]> h)).
Proof.
  intros Hr. pose proof Hr as [Rs Rd Rw Rk Rdi Rne].
  destruct (pieces_list_lookup (rnd 0%nat)) as [t0 E0].
  destruct (pieces_list_lookup (rnd 1%nat)) as [t1 E1].
  destruct (pieces_list_lookup (rnd 2%nat)) as [t2 E2].
  change (length pieces_list) with 6%nat in E0, E1, E2.
  unfold roll_dices, choices. change (length pieces_list) with 6%nat.
  cbn [seq map]. rewrite E0, E1, E2. cbn.
  fresh_cell r F.
  assert (X : <[r := ODice [t0; t1; t2]]> h !! self
              = Some (OBoard (board v) (l_dict ly) (l_dice ly))) by cell.
  rewrite (bind_eq _ _ _ _ _ (load_board_eq _ _ _ _ _ X)).
  exists r, t0, t1, t2. by repeat split.
Qed.

(** X13.  [roll_dices] returns for every generator.  Afterwards the board
    holds exactly three dice, the [j]-th being the member of
    [pieces_list] that the [j]-th draw selects; the placement, the turn
    and both right-sets are as before; and every other object of the
    store, the previous dice list among them, is left as it was. *)
Theorem roll_dices_three h self v (rnd : nat -> nat) :
  view h self = Some v ->
  exists h' dice,
    roll_dices self rnd h = (inr tt, h') /\
    view h' self = Some (set_dice_roll_v dice v) /\
    length dice = 3%nat /\
    (forall j, (j < 3)%nat ->
               dice !! j = pieces_list !! (rnd j mod length pieces_list)%nat) /\
    (forall l o, l <> self -> h !! l = Some o -> h' !! l = Some o).
Proof.
  intros Hv. apply view_repr in Hv as [ly Hr].
  destruct (roll_dices_sim _ _ _ _ rnd Hr)
    as (r & t0 & t1 & t2 & E0 & E1 & E2 & F & E).
  pose proof Hr as [Rs Rd Rw Rk Rdi Rne].
  assert (Hr' : repr (<[self := OBoard (board v) (l_dict ly) r]>
                        (<[r := ODice [t0; t1; t2]]> h))
                  self (mkLayout (l_dict ly) (l_white ly) (l_black ly) r)
                  (set_dice_roll_v [t0; t1; t2] v)).
  { split; simpl; try assumption; cell. }
  eexists _, [t0; t1; t2]. split; [exact E|].
  split; [apply view_repr; eexists; exact Hr'|].
  split; [reflexivity|]. split.
  - intros [|[|[|j]]] Hj; simpl; try lia; symmetry; assumption.
  - intros l o Hl Ho. rewrite lookup_insert_ne by congruence.
    rewrite lookup_insert_ne by differ. exact Ho.
Qed.

(** *** Passing the turn twice *)

(** X14.  Two calls of [next_player] give the turn back to the side that
    had it, with the same placement and dice, and leave both right-sets
    empty: a right not used in the turn that follows its grant is
    lost. *)
Theorem next_player_twice h self v :
  view h self = Some v ->
  exists h1 h2 v',
    next_player self h = (inr tt, h1) /\
    next_player self h1 = (inr tt, h2) /\
    view h2 self = Some v' /\
    turn (board v') = turn (board v) /\
    (forall sq, piece_at (board v') sq = piece_at (board v) sq) /\
    ep_white v' = [] /\ ep_black v' = [] /\
    dice_roll v' = dice_roll v.
Proof.
  intros Hv. apply view_repr in Hv as [ly Hr].
  destruct (next_player_sim ∅ _ _ _ _ (owns_empty _ _ _ _ Hr))
    as (h1 & ly1 & E1 & O1).
  destruct (next_player_sim _ _ _ _ _ O1) as (h2 & ly2 & E2 & O2).
  exists h1, h2, (next_player_v (next_player_v v)).
  split; [exact E1|]. split; [exact E2|].
  split; [exact (owns_view _ _ _ _ _ O2)|].
  unfold next_player_v. destruct v as [b ws ks ds]. simpl.
  destruct (turn b) eqn:Et; simpl; rewrite ?turn_set_turn; simpl;
    rewrite ?turn_set_turn; simpl;
    repeat split; try reflexivity;
    intros sq; by rewrite !piece_at_set_turn.
Qed.

(** *** [san] *)

Ltac reads Hr :=
  repeat first
    [ rewrite bind_assoc
    | rewrite bind_ret
    | rewrite (bind_eq _ _ _ _ _ (get_board_repr _ _ _ _ Hr))
    | rewrite (bind_eq _ _ _ _ _ (get_turn_repr _ _ _ _ Hr))
    | rewrite (bind_eq _ _ _ _ _ (self_piece_at_repr _ _ _ _ _ Hr))
    | rewrite (bind_eq _ _ _ _ _ (get_ep_squares_repr _ _ _ _ _ Hr)) ];
  cbv beta.

(** X15.  For a move other than the null move that starts on an empty
    square, [san] raises [AssertionError] and leaves the store as it is.
    For every other move it returns the engine's notation, computed on
    the board with the standard en-passant square set to the destination
    exactly when [push] with [make_changes] would take the move for a
    custom en-passant capture; it then changes nothing but that square,
    which it leaves unset: the placement, the turn, both right-sets and
    the dice are as before. *)
Theorem san_restores h self v m :
  view h self = Some v ->
  if engine_asserts (board v) m
  then san self m h = (inl AssertionError, h)
  else
    (exists h' v',
       san self m h
       = (inr (base_san (if is_ep_capture_v m true v
                         then set_ep_square (Some (to_square m)) (board v)
                         else board v) m), h') /\
       view h' self = Some v' /\
       ep_square (board v') = None /\
       turn (board v') = turn (board v) /\
       (forall sq, piece_at (board v') sq = piece_at (board v) sq) /\
       ep_white v' = ep_white v /\ ep_black v' = ep_black v /\
       dice_roll v' = dice_roll v).
Proof.
  intros Hv. apply view_repr in Hv as [ly Hr].
  pose proof (owns_empty _ _ _ _ Hr) as Ho.
  assert (Hplain : forall h1 v1,
             owns ∅ h1 self ly v1 ->
             (board v1 = board v
              \/ board v1 = set_ep_square (Some (to_square m)) (board v)) ->
             ep_white v1 = ep_white v -> ep_black v1 = ep_black v ->
             dice_roll v1 = dice_roll v ->
             exists h' v',
               (set_board self (set_ep_square None (board v1)) ;;
                ret (base_san (board v1) m))%py h1
               = (inr (base_san (board v1) m), h') /\
               view h' self = Some v' /\
               ep_square (board v') = None /\
               turn (board v') = turn (board v) /\
               (forall sq, piece_at (board v') sq = piece_at (board v) sq) /\
               ep_white v' = ep_white v /\ ep_black v' = ep_black v /\
               dice_roll v' = dice_roll v).
  { intros h1 v1 O1 Hb Hw Hk Hd.
    destruct (set_board_owns _ _ _ _ _ (set_ep_square None (board v1)) O1)
      as (h' & E & O').
    exists h', (set_board_v (set_ep_square None (board v1)) v1).
    split; [by rewrite (bind_eq _ _ _ _ _ E)|].
    split; [exact (owns_view _ _ _ _ _ O')|]. simpl.
    rewrite ep_square_set_ep_square, turn_set_ep_square.
    repeat split; try assumption;
      destruct Hb as [-> | ->];
      rewrite ?turn_set_ep_square; try reflexivity;
      intros sq; by rewrite ?piece_at_set_ep_square. }
  assert (Hset : forall e, engine_asserts (set_ep_square e (board v)) m
                            = engine_asserts (board v) m).
  { intros e. unfold engine_asserts. by rewrite piece_at_set_ep_square. }
  destruct (engine_asserts (board v) m) eqn:Ea.
  { assert (Ep : piece_at (board v) (from_square m) = None).
    { unfold engine_asserts in Ea. apply andb_prop in Ea as [_ Ea].
      by destruct (piece_at (board v) (from_square m)). }
    unfold san. reads Hr. rewrite Ep. cbn [is_type]. reads Hr.
    rewrite Ea. reflexivity. }
  unfold san, is_ep_capture_v. cbn [andb]. reads Hr.
  destruct (is_type PAWN (piece_at (board v) (from_square m)));
    cbn [andb]; reads Hr.
  2:{ rewrite Ea. reads Hr. cbv zeta. reads Hr. by apply Hplain; auto. }
  destruct (bool_decide (to_square m ∈ ep_squares v (turn (board v))));
    cbn [andb]; reads Hr.
  2:{ rewrite Ea. reads Hr. cbv zeta. reads Hr. by apply Hplain; auto. }
  destruct (truthy (piece_at (board v) (to_square m)));
    cbn [negb]; reads Hr.
  { rewrite Ea. reads Hr. cbv zeta. reads Hr. by apply Hplain; auto. }
  destruct (set_board_owns _ _ _ _ _
              (set_ep_square (Some (to_square m)) (board v)) Ho)
    as (h1 & E1 & O1).
  rewrite (bind_eq _ _ _ _ _ E1).
  pose proof (owns_repr _ _ _ _ _ O1) as Hr1. reads Hr1.
  cbn [board set_board_v]. rewrite Hset. reads Hr1. cbv zeta. reads Hr1.
  cbn [board set_board_v].
  by apply (Hplain h1 (set_board_v _ v)); auto.
Qed.

End Further.

(** ** The further properties on the small engine *)

Section FurtherInstances.
Import MiniChess Examples.

Local Open Scope nat_scope.

Lemma copy_is_new_witness :
  view (mk_store opening) 0 = Some opening /\
  exists p h',
    copy 0 (mk_store opening) = (inr p, h') /\
    mk_store opening !! p = None /\
    view h' p = Some opening /\ view h' 0 = Some opening.
Proof.
  split; [reflexivity|].
  destruct (copy_is_new (mk_store opening) 0 opening eq_refl)
    as (p & h' & E & _ & Hf & Hp & Hs).
  exists p, h'. split; [exact E|]. split; [exact Hf|].
  split; [exact Hp | exact Hs].
Defined.

Lemma copy_is_independent_witness :
  view (mk_store en_passant) 0 = Some en_passant /\
  exists p h1,
    copy 0 (mk_store en_passant) = (inr p, h1) /\
    view (snd (push p d5e6 true h1)) 0 = Some en_passant /\
    view (snd (next_player 0 h1)) p = Some en_passant.
Proof.
  assert (Hv : view (mk_store en_passant) 0 = Some en_passant)
    by reflexivity.
  split; [exact Hv|].
  destruct (proj1 (view_repr _ _ _) Hv) as [ly Hr].
  destruct (copy_owns _ _ _ _ Hr) as (h1 & p & ly' & E & _).
  exists p, h1. split; [exact E|].
  destruct (copy_is_independent (mk_store en_passant) 0 en_passant p h1
              d5e6 true Hv E) as (A & _ & _ & D).
  split; [exact A | exact D].
Defined.

Lemma get_moves_by_value_witness :
  view (mk_store opening_2) 0 = Some opening_2 /\
  exists p h',
    view h' p = Some opening_2 /\ mk_store opening_2 !! p = None /\
    fst (get_moves 0 (mk_store opening_2)) = fst (get_moves p h').
Proof.
  assert (Hv : view (mk_store opening_2) 0 = Some opening_2)
    by reflexivity.
  split; [exact Hv|].
  destruct (proj1 (view_repr _ _ _) Hv) as [ly Hr].
  destruct (copy_owns _ _ _ _ Hr) as (h' & p & ly' & _ & Ho).
  pose proof (owns_view _ _ _ _ _ Ho) as Hp.
  exists p, h'. split; [exact Hp|]. split; [apply Ho|].
  exact (get_moves_by_value (mk_store opening_2) 0 h' p opening_2 Hv Hp).
Defined.

Lemma get_moves_one_die_witness :
  view (mk_store en_passant) 0 = Some en_passant /\
  dice_roll en_passant = [PAWN] /\
  exists moves,
    get_moves 0 (mk_store en_passant) = (inr moves, mk_store en_passant) /\
    forall m, m ∈ moves ->
      exists c, piece_at (board en_passant) (from_square m)
                = Some (mkPiece PAWN c).
Proof.
  split; [reflexivity|]. split; [reflexivity|].
  destruct (get_moves_one_die (mk_store en_passant) 0 en_passant PAWN
              eq_refl eq_refl) as (moves & E & Hm).
  exists moves. split; [exact E|]. intros m Hin. exact (proj2 (Hm m Hin)).
Defined.

Lemma get_moves_are_candidates_witness :
  view (mk_store opening_2) 0 = Some opening_2 /\
  exists moves h' cands,
    get_moves 0 (mk_store opening_2) = (inr moves, h') /\
    _get_pseudo_moves 0 (mk_store opening_2)
    = (inr cands, mk_store opening_2) /\
    moves `sublist_of` cands.
Proof.
  assert (Hv : view (mk_store opening_2) 0 = Some opening_2)
    by reflexivity.
  split; [exact Hv|].
  destruct (proj1 (view_repr _ _ _) Hv) as [ly Hr].
  destruct (get_moves_sim _ _ _ _ Hr) as (h' & _ & Eg).
  assert (He : ep_squares opening_2 (turn (board opening_2)) = []) by reflexivity.
  destruct (get_moves_v_returns opening_2 He) as [moves Em]; [simpl; lia|].
  rewrite Em in Eg.
  destruct (get_moves_are_candidates (mk_store opening_2) 0 opening_2
              moves h' Hv Eg) as (cands & Ec & Hsub & _).
  exists moves, h', cands. split; [exact Eg|]. split; [exact Ec | exact Hsub].
Defined.

Lemma get_moves_empty_iff_witness :
  view (mk_store opening) 0 = Some opening /\
  length (dice_roll opening) <= 3 /\
  ep_squares opening (turn (board opening)) = [] /\
  exists moves h',
    get_moves 0 (mk_store opening) = (inr moves, h') /\
    (moves = [] <->
     _get_pseudo_moves 0 (mk_store opening) = (inr [], mk_store opening)).
Proof.
  assert (Hlen : length (dice_roll opening) <= 3) by (simpl; lia).
  split; [reflexivity|]. split; [exact Hlen|]. split; [reflexivity|].
  destruct (get_moves_empty_iff (mk_store opening) 0 opening eq_refl Hlen)
    as [Hret Hiff].
  destruct (Hret eq_refl) as (moves & h' & E).
  exists moves, h'. split; [exact E|]. apply (Hiff moves h' E). simpl. lia.
Defined.

Lemma push_consumes_dice_witness :
  (view (mk_store en_passant) 0 = Some en_passant /\
   takes_itself en_passant d5e6 = false /\
   exists cands,
     _get_pseudo_moves 0 (mk_store en_passant)
     = (inr cands, mk_store en_passant) /\
     d5e6 ∈ cands /\
     exists h' v',
       push 0 d5e6 true (mk_store en_passant) = (inr tt, h') /\
       view h' 0 = Some v' /\
       length (dice_roll en_passant) = length (dice_roll v') + 1) /\
  (view (mk_store behind_the_right) 0 = Some behind_the_right /\
   takes_itself behind_the_right e4e3 = true /\
   exists cands,
     _get_pseudo_moves 0 (mk_store behind_the_right)
     = (inr cands, mk_store behind_the_right) /\
     e4e3 ∈ cands /\
     fst (push 0 e4e3 true (mk_store behind_the_right))
     = inl AssertionError).
Proof.
  split.
  - assert (Hv : view (mk_store en_passant) 0 = Some en_passant)
      by reflexivity.
    assert (Ht : takes_itself en_passant d5e6 = false)
      by (vm_compute; reflexivity).
    split; [exact Hv|]. split; [exact Ht|].
    destruct (proj1 (view_repr _ _ _) Hv) as [ly Hr].
    pose proof (_get_pseudo_moves_repr _ _ _ _ Hr) as Ec.
    assert (Hin : d5e6 ∈ _get_pseudo_moves_v en_passant).
    { apply list_elem_of_In. vm_compute. tauto. }
    assert (Hc : is_castling (board en_passant) d5e6 = false)
      by (vm_compute; reflexivity).
    exists (_get_pseudo_moves_v en_passant). split; [exact Ec|].
    split; [exact Hin|].
    pose proof (push_consumes_dice (mk_store en_passant) 0 en_passant
                  (_get_pseudo_moves_v en_passant) d5e6 Hv Ec Hin) as Hpush.
    rewrite Ht in Hpush.
    destruct Hpush as (h' & v' & E & Hv' & _ & Hlen).
    exists h', v'. split; [exact E|]. split; [exact Hv'|].
    rewrite Hc in Hlen. exact Hlen.
  - assert (Hv : view (mk_store behind_the_right) 0 = Some behind_the_right)
      by reflexivity.
    assert (Ht : takes_itself behind_the_right e4e3 = true)
      by (vm_compute; reflexivity).
    split; [exact Hv|]. split; [exact Ht|].
    destruct (proj1 (view_repr _ _ _) Hv) as [ly Hr].
    pose proof (_get_pseudo_moves_repr _ _ _ _ Hr) as Ec.
    assert (Hin : e4e3 ∈ _get_pseudo_moves_v behind_the_right).
    { apply list_elem_of_In. vm_compute. tauto. }
    exists (_get_pseudo_moves_v behind_the_right). split; [exact Ec|].
    split; [exact Hin|].
    pose proof (push_consumes_dice (mk_store behind_the_right) 0
                  behind_the_right (_get_pseudo_moves_v behind_the_right)
                  e4e3 Hv Ec Hin) as Hpush.
    rewrite Ht in Hpush. exact Hpush.
Defined.

Lemma push_absent_die_witness :
  view (mk_store pawn_on_d4) 0 = Some pawn_on_d4 /\
  piece_at (board pawn_on_d4) (from_square g1f3)
  = Some (mkPiece KNIGHT WHITE) /\
  (KNIGHT ∉ dice_roll pawn_on_d4) /\
  takes_itself pawn_on_d4 g1f3 = false /\
  exists h' v',
    push 0 g1f3 true (mk_store pawn_on_d4) = (inr tt, h') /\
    view h' 0 = Some v' /\
    dice_roll v' = [PAWN; QUEEN; QUEEN].
Proof.
  assert (Hp : piece_at (board pawn_on_d4) (from_square g1f3)
               = Some (mkPiece KNIGHT WHITE)) by (vm_compute; reflexivity).
  assert (Hn : piece_type (mkPiece KNIGHT WHITE) ∉ dice_roll pawn_on_d4).
  { simpl. rewrite !not_elem_of_cons.
    repeat split; try discriminate. apply not_elem_of_nil. }
  assert (Hs : takes_itself pawn_on_d4 g1f3 = false)
    by (vm_compute; reflexivity).
  split; [reflexivity|]. split; [exact Hp|]. split; [exact Hn|].
  split; [exact Hs|].
  destruct (push_absent_die (mk_store pawn_on_d4) 0 pawn_on_d4 g1f3
              (mkPiece KNIGHT WHITE) eq_refl Hp Hn Hs)
    as (h' & v' & E & Hv' & Hd).
  exists h', v'. split; [exact E|]. split; [exact Hv' | exact Hd].
Defined.

Lemma push_keeps_turn_witness :
  view (mk_store opening) 0 = Some opening /\
  exists h' v',
    push 0 e2e4 false (mk_store opening) = (inr tt, h') /\
    view h' 0 = Some v' /\
    turn (board v') = WHITE /\ ep_square (board v') = None.
Proof.
  assert (Hv : view (mk_store opening) 0 = Some opening) by reflexivity.
  split; [exact Hv|].
  destruct (proj1 (view_repr _ _ _) Hv) as [ly Hr].
  destruct (push_sim ∅ _ _ _ _ e2e4 false (owns_empty _ _ _ _ Hr))
    as (h' & E & _ & _).
  rewrite push_v_false in E.
  change (push_base_v e2e4 (turn (board opening)) opening)
    with (inr (set_board_v
                 (set_ep_square None
                    (set_turn (turn (board opening))
                       (base_push e2e4 (board opening)))) opening)
          : exn + DiceBoardV Board) in E.
  simpl outcome in E.
  destruct (push_keeps_turn (mk_store opening) 0 opening e2e4 false h' Hv E)
    as (v' & Hv' & Ht & He).
  exists h', v'. split; [exact E|]. split; [exact Hv'|].
  split; [exact Ht | exact He].
Defined.

Lemma pseudo_legal_moves_dice_spec_witness :
  view (mk_store en_passant) 0 = Some en_passant /\
  exists moves,
    pseudo_legal_moves_dice 0 (mk_store en_passant)
    = (inr moves, mk_store en_passant) /\
    pseudo_legal_moves (board en_passant) `prefix_of` moves /\
    length moves <= length (pseudo_legal_moves (board en_passant)) + 2 * 1.
Proof.
  split; [reflexivity|].
  destruct (pseudo_legal_moves_dice_spec (mk_store en_passant) 0 en_passant
              eq_refl) as (moves & E & Hpre & _ & Hlen).
  exists moves. split; [exact E|]. split; [exact Hpre | exact Hlen].
Defined.

Lemma custom_ep_push_witness :
  view (mk_store en_passant) 0 = Some en_passant /\
  custom_ep en_passant d5e6 /\
  piece_at (board en_passant) (to_square d5e6) = None /\
  exists h' v',
    push 0 d5e6 true (mk_store en_passant) = (inr tt, h') /\
    view h' 0 = Some v' /\
    piece_at (board en_passant) 36%Z = Some (mkPiece PAWN BLACK) /\
    list_remove_first 44%Z [44%Z] = Some (ep_squares v' WHITE).
Proof.
  assert (Hc : custom_ep en_passant d5e6).
  { exists 44%Z, (-1)%Z.
    split; [by apply list_elem_of_singleton|]. split; [by left|].
    split; [vm_compute; split; discriminate|].
    repeat split; vm_compute; reflexivity. }
  assert (Hto : piece_at (board en_passant) (to_square d5e6) = None)
    by (vm_compute; reflexivity).
  split; [reflexivity|]. split; [exact Hc|]. split; [exact Hto|].
  destruct (custom_ep_push (mk_store en_passant) 0 en_passant d5e6
              eq_refl Hc Hto) as (h' & v' & E & Hv' & Hp & _ & Hrm).
  exists h', v'. split; [exact E|]. split; [exact Hv'|].
  split; [exact Hp | exact Hrm].
Defined.

Lemma roll_dices_three_witness :
  view (mk_store opening) 0 = Some opening /\
  exists h' dice,
    roll_dices 0 (fun j => 7 * j + 3) (mk_store opening) = (inr tt, h') /\
    view h' 0 = Some (set_dice_roll_v dice opening) /\
    length dice = 3 /\
    dice !! 1 = Some QUEEN.
Proof.
  split; [reflexivity|].
  destruct (roll_dices_three (mk_store opening) 0 opening
              (fun j => 7 * j + 3) eq_refl)
    as (h' & dice & E & Hv' & Hlen & Hj & _).
  exists h', dice. split; [exact E|]. split; [exact Hv'|].
  split; [exact Hlen|]. exact (Hj 1 ltac:(lia)).
Defined.

Lemma next_player_twice_witness :
  view (mk_store en_passant) 0 = Some en_passant /\
  exists h1 h2 v',
    next_player 0 (mk_store en_passant) = (inr tt, h1) /\
    next_player 0 h1 = (inr tt, h2) /\
    view h2 0 = Some v' /\
    turn (board v') = WHITE /\ ep_white v' = [] /\ ep_black v' = [] /\
    dice_roll v' = [PAWN].
Proof.
  split; [reflexivity|].
  destruct (next_player_twice (mk_store en_passant) 0 en_passant eq_refl)
    as (h1 & h2 & v' & E1 & E2 & Hv' & Ht & _ & Hw & Hk & Hd).
  exists h1, h2, v'. split; [exact E1|]. split; [exact E2|].
  split; [exact Hv'|]. split; [exact Ht|]. split; [exact Hw|].
  split; [exact Hk | exact Hd].
Defined.

Lemma san_restores_witness :
  (view (mk_store en_passant) 0 = Some en_passant /\
   exists h' v',
     san 0 d5e6 (mk_store en_passant) = (inr "d5xe6"%string, h') /\
     view h' 0 = Some v' /\
     ep_square (board v') = None /\
     ep_white v' = [44%Z] /\ dice_roll v' = [PAWN]) /\
  (view (mk_store opening) 0 = Some opening /\
   san 0 e3e4 (mk_store opening) = (inl AssertionError, mk_store opening)).
Proof.
  split.
  - split; [reflexivity|].
    assert (Ea : engine_asserts (board en_passant) d5e6 = false)
      by (vm_compute; reflexivity).
    assert (Es : base_san
                   (if is_ep_capture_v d5e6 true en_passant
                    then set_ep_square (Some (to_square d5e6))
                           (board en_passant)
                    else board en_passant) d5e6 = "d5xe6"%string)
      by (vm_compute; reflexivity).
    pose proof (san_restores (mk_store en_passant) 0 en_passant d5e6 eq_refl)
      as Hs.
    rewrite Ea in Hs.
    destruct Hs as (h' & v' & E & Hv' & He & _ & _ & Hw & _ & Hd).
    rewrite Es in E.
    exists h', v'. split; [exact E|]. split; [exact Hv'|].
    split; [exact He|]. split; [exact Hw | exact Hd].
  - split; [reflexivity|].
    assert (Ea : engine_asserts (board opening) e3e4 = true)
      by (vm_compute; reflexivity).
    pose proof (san_restores (mk_store opening) 0 opening e3e4 eq_refl)
      as Hs.
    rewrite Ea in Hs. exact Hs.
Defined.

Lemma get_moves_2_depths_witness :
  view (mk_store opening_2) 0 = Some opening_2 /\
  length (dice_roll opening_2) = 2 /\
  exists moves h' cands,
    get_moves 0 (mk_store opening_2) = (inr moves, h') /\
    _get_pseudo_moves 0 (mk_store opening_2)
    = (inr cands, mk_store opening_2) /\
    moves
    = List.filter
        (fun m =>
           (depth_2 (mk_store opening_2) 0 m
            =? max_depth (map (depth_2 (mk_store opening_2) 0) cands))
           || king_at (mk_store opening_2) 0 (to_square m)) cands.
Proof.
  assert (Hv : view (mk_store opening_2) 0 = Some opening_2)
    by reflexivity.
  split; [exact Hv|]. split; [reflexivity|].
  destruct (proj1 (view_repr _ _ _) Hv) as [ly Hr].
  destruct (get_moves_sim _ _ _ _ Hr) as (h' & _ & Eg).
  assert (He : ep_squares opening_2 (turn (board opening_2)) = []) by reflexivity.
  destruct (get_moves_v_returns opening_2 He) as [moves Em]; [simpl; lia|].
  rewrite Em in Eg.
  destruct (get_moves_2_depths (mk_store opening_2) 0 opening_2 moves h'
              Hv eq_refl Eg) as (cands & h1 & Ec & _ & Eres & _).
  exists moves, h', cands. split; [exact Eg|]. split; [exact Ec | exact Eres].
Defined.

Lemma get_moves_3_depths_witness :
  view (mk_store opening) 0 = Some opening /\
  length (dice_roll opening) = 3 /\
  exists moves h' cands,
    get_moves 0 (mk_store opening) = (inr moves, h') /\
    _get_pseudo_moves 0 (mk_store opening) = (inr cands, mk_store opening) /\
    moves
    = List.filter
        (fun m =>
           (depth_3 (mk_store opening) 0 m
            =? max_depth (map (depth_3 (mk_store opening) 0) cands))
           || king_at (mk_store opening) 0 (to_square m)) cands.
Proof.
  assert (Hv : view (mk_store opening) 0 = Some opening) by reflexivity.
  split; [exact Hv|]. split; [reflexivity|].
  destruct (proj1 (view_repr _ _ _) Hv) as [ly Hr].
  destruct (get_moves_sim _ _ _ _ Hr) as (h' & _ & Eg).
  assert (He : ep_squares opening (turn (board opening)) = []) by reflexivity.
  destruct (get_moves_v_returns opening He) as [moves Em]; [simpl; lia|].
  rewrite Em in Eg.
  destruct (get_moves_3_depths (mk_store opening) 0 opening moves h'
              Hv eq_refl Eg) as (cands & h1 & Ec & _ & Eres & _).
  exists moves, h', cands. split; [exact Eg|]. split; [exact Ec | exact Eres].
Defined.

End FurtherInstances.
